(** * A shallow embedding of the [json] library (json.h / json.cpp)

    The C++ library consists of a tagged-union value ([json::Node]), a
    recursive-descent parser ([json::Load]) reading a [std::istream] with one
    character of lookahead, and a pretty printer ([json::Print]).

    Conventions of the embedding:
    - a [std::string] and the unread part of a [std::istream] are lists of
      8-bit characters;
    - [int] is a [Z] kept inside the 32-bit range, [double] is an IEEE-754
      binary64 value in the representation of [SpecFloat];
    - [std::map<std::string, Node>] is its in-order sequence of entries, a
      list sorted strictly by key;
    - a C++ function that may throw or loop returns an [outcome]; loops whose
      termination depends on the input are driven by a fuel argument, and
      [OutOfFuel] stands for "has not finished yet". *)

From Stdlib Require Import ZArith Ascii String Bool Lia SpecFloat.
From Stdlib Require Import List Sorted Permutation.
Import ListNotations.

#[local] Set Warnings "-register-all".

Local Open Scope Z_scope.
Local Open Scope list_scope.

(** ** Characters, strings and the C character classes *)

Definition std_string := list ascii.

(** String literal: the characters of a Rocq string. *)
Definition lit (s : string) : std_string := list_ascii_of_string s.
Arguments lit s%_string.

Definition ch_quote : ascii := "034"%char.     (* the double quote *)
Definition ch_backslash : ascii := "092"%char. (* the backslash *)
Definition ch_newline : ascii := "010"%char.   (* line feed *)
Definition ch_return : ascii := "013"%char.    (* carriage return *)
Definition ch_tab : ascii := "009"%char.       (* horizontal tab *)
Definition ch_vtab : ascii := "011"%char.      (* vertical tab *)
Definition ch_formfeed : ascii := "012"%char.  (* form feed *)

(** [traits_type::eof()]. *)
Definition EOF : Z := -1.

(** [traits_type::to_int_type]: a character read from a stream is returned
    as the value of its [unsigned char] image, 0..255. *)
Definition to_int_type (c : ascii) : Z := Z.of_N (N_of_ascii c).

(** The conversion [char c = <int>]: reduction modulo 256.  In particular
    [char c = EOF] is the character 0xFF. *)
Definition to_char (i : Z) : ascii := ascii_of_N (Z.to_N (i mod 256)).

(** The promotion of a (signed) [char] to [int], as in [isdigit(c)] for a
    [char c].  The classification functions below answer false on the
    negative values this gives for the characters above 0x7F. *)
Definition char_to_int (c : ascii) : Z :=
  let n := to_int_type c in if n <? 128 then n else n - 256.

(** <cctype> in the "C" locale (the program never calls [setlocale]). *)
Definition isspace (c : Z) : bool := (c =? 32) || ((9 <=? c) && (c <=? 13)).
Definition isdigit (c : Z) : bool := (48 <=? c) && (c <=? 57).
Definition isupper (c : Z) : bool := (65 <=? c) && (c <=? 90).
Definition islower (c : Z) : bool := (97 <=? c) && (c <=? 122).
Definition isalpha (c : Z) : bool := isupper c || islower c.
Definition tolower (c : Z) : Z := if isupper c then c + 32 else c.

(** Comparison of an [int] with a character constant. *)
Definition is_char (i : Z) (c : ascii) : bool := i =? to_int_type c.

(** [std::string::operator<]: lexicographic on unsigned character values, a
    proper prefix is smaller. *)
Fixpoint string_ltb (a b : std_string) : bool :=
  match a, b with
  | _, [] => false
  | [], _ :: _ => true
  | x :: a', y :: b' =>
      if (to_int_type x <? to_int_type y) then true
      else if (to_int_type y <? to_int_type x) then false
      else string_ltb a' b'
  end.

Definition string_eqb (a b : std_string) : bool :=
  if list_eq_dec ascii_dec a b then true else false.

(** ** Input streams *)

(** The unread characters of a [std::istream].  An exhausted stream stays
    exhausted: [peek] and [get] keep answering [EOF]. *)
Definition istream := list ascii.

Definition peek (input : istream) : Z :=
  match input with
  | [] => EOF
  | c :: _ => to_int_type c
  end.

Definition get (input : istream) : Z * istream :=
  match input with
  | [] => (EOF, [])
  | c :: rest => (to_int_type c, rest)
  end.

(** ** Exceptions and outcomes *)

Inductive exception : Type :=
| ParsingError (what : std_string)
| logic_error (what : std_string)
| bad_variant_access.

Inductive outcome (A : Type) : Type :=
| Returns (a : A)
| Throws (e : exception)
| OutOfFuel.

Arguments Returns {A} a.
Arguments Throws {A} e.
Arguments OutOfFuel {A}.

Definition bind {A B : Type} (m : outcome A) (k : A -> outcome B) : outcome B :=
  match m with
  | Returns a => k a
  | Throws e => Throws e
  | OutOfFuel => OutOfFuel
  end.

Notation "'do' x <- m ; k" := (bind m (fun x => k))
  (at level 10, x pattern, m at level 100, k at level 200).

(** ** Decimal numerals *)

Definition digit_char (d : Z) : ascii := to_char (48 + d).
Definition digit_val (c : ascii) : Z := to_int_type c - 48.

(** The value of a sequence of decimal digits, most significant first. *)
Definition dec_value (ds : std_string) : Z :=
  fold_left (fun acc c => 10 * acc + digit_val c) ds 0.

Fixpoint dec_digits (fuel : nat) (n : Z) (acc : std_string) : std_string :=
  match fuel with
  | O => acc
  | S fuel' =>
      let acc' := digit_char (n mod 10) :: acc in
      if n <? 10 then acc' else dec_digits fuel' (n / 10) acc'
  end.

(** The decimal numeral of a natural number, without leading zeros. *)
Definition Z_to_dec (n : Z) : std_string :=
  dec_digits (S (Z.to_nat (Z.log2 n))) n [].

(** The longest prefix of decimal digits, and what follows it. *)
Fixpoint take_digits (s : std_string) : std_string * std_string :=
  match s with
  | c :: s' =>
      if isdigit (to_int_type c) then
        let '(ds, rest) := take_digits s' in (c :: ds, rest)
      else ([], s)
  | [] => ([], [])
  end.

(** An optional sign: [true] for a minus. *)
Definition take_sign (s : std_string) : bool * std_string :=
  match s with
  | c :: s' =>
      if is_char (to_int_type c) "-" then (true, s')
      else if is_char (to_int_type c) "+" then (false, s')
      else (false, s)
  | [] => (false, [])
  end.

Definition clamp (lo hi z : Z) : Z := Z.max lo (Z.min hi z).

(** ** IEEE-754 binary64 *)

Module Double.

Definition prec : Z := 53.
Definition emax : Z := 1024.

Definition double := spec_float.

Definition of_Z (z : Z) : double := binary_normalize prec emax z 0 false.

Definition zero : double := S754_zero false.
Definition max : double := SFmax_float prec emax.

(** The comparison operators of the language on [double]: IEEE comparisons
    (a NaN is unequal to everything, the two zeros are equal). *)
Definition eqb (a b : double) : bool := SFeqb a b.
Definition ltb (a b : double) : bool := SFltb a b.
Definition abs (a : double) : double := SFabs a.

(** [std::floor]. *)
Definition floor (a : double) : double :=
  match a with
  | S754_finite s m e =>
      if 0 <=? e then a
      else
        let d := 2 ^ (- e) in
        let q := Z.pos m / d in
        if Z.pos m mod d =? 0 then a
        else if s then binary_normalize prec emax (- (q + 1)) 0 true
        else binary_normalize prec emax q 0 false
  | _ => a
  end.

(** The double nearest to [n * 10^e] for [n > 0], ties to even, with the
    sign [neg]: the correctly rounded conversion done by [strtod].  A
    negative [e] divides; the quotient is taken with 64 spare bits and a
    sticky bit for the remainder, which rounds like the exact value. *)
Definition of_decimal (neg : bool) (n e : Z) : double :=
  let sgn (m : Z) := if neg then - m else m in
  if n =? 0 then S754_zero neg
  else if 0 <=? e then binary_normalize prec emax (sgn (n * 10 ^ e)) 0 neg
  else
    let den := 10 ^ (- e) in
    let k := 64 + Z.log2 den in
    let q := (n * 2 ^ k) / den in
    let r := (n * 2 ^ k) mod den in
    let m := 2 * q + (if r =? 0 then 0 else 1) in
    binary_normalize prec emax (sgn m) (- k - 1) neg.

(** [v = num / den] as a fraction of positive integers, for a finite
    non-zero mantissa and exponent. *)
Definition fraction (m : positive) (e : Z) : Z * Z :=
  if 0 <=? e then (Z.pos m * 2 ^ e, 1) else (Z.pos m, 2 ^ (- e)).

(** [10^x <= num / den]. *)
Definition ge_pow10 (num den x : Z) : bool :=
  if 0 <=? x then den * 10 ^ x <=? num else den <=? num * 10 ^ (- x).

(** The largest [x], searched downwards from [x], with [10^x <= num/den]. *)
Fixpoint decimal_exponent (fuel : nat) (num den x : Z) : Z :=
  match fuel with
  | O => x
  | S fuel' =>
      if ge_pow10 num den x then x else decimal_exponent fuel' num den (x - 1)
  end.

(** Rounding of a positive fraction to the nearest integer, ties to even. *)
Definition round_half_even (num den : Z) : Z :=
  let q := num / den in
  let r := num mod den in
  match 2 * r ?= den with
  | Lt => q
  | Gt => q + 1
  | Eq => if Z.even q then q else q + 1
  end.

(** The six significant decimal digits [d] and the decimal exponent [x] of
    the style-e conversion with precision 5: [v] rounds to
    [d * 10^(x-5)] with [100000 <= d <= 999999]. *)
Definition six_digits (m : positive) (e : Z) : Z * Z :=
  let '(num, den) := fraction m e in
  let x0 := decimal_exponent 700 num den 310 in
  let d :=
    if 0 <=? 5 - x0 then round_half_even (num * 10 ^ (5 - x0)) den
    else round_half_even num (den * 10 ^ (x0 - 5)) in
  if d =? 1000000 then (100000, x0 + 1) else (d, x0).

Fixpoint drop_zeros (s : std_string) : std_string :=
  match s with
  | c :: s' => if Ascii.eqb c "0" then drop_zeros s' else s
  | [] => []
  end.

(** Removal of the trailing zeros of a fractional part. *)
Definition strip_zeros (s : std_string) : std_string := rev (drop_zeros (rev s)).

Definition with_point (frac : std_string) : std_string :=
  match frac with [] => [] | _ => "."%char :: frac end.

(** The exponent of style e: a sign and at least two digits. *)
Definition exponent_field (x : Z) : std_string :=
  let ds := Z_to_dec (Z.abs x) in
  "e"%char :: (if x <? 0 then "-"%char else "+"%char)
    :: (if (length ds <? 2)%nat then "0"%char :: ds else ds).

(** [operator<<(double)] on a stream in its default state: the conversion
    [%g] with precision 6.  With [x] the exponent of the style-e
    conversion, style f (precision [5 - x]) is used when [-4 <= x < 6] and
    style e (precision 5) otherwise; trailing zeros of the fraction, and a
    decimal point left without fraction, are removed. *)
Definition g_format (v : double) : std_string :=
  match v with
  | S754_zero s => (if s then ["-"%char] else []) ++ ["0"%char]
  | S754_infinity s => (if s then ["-"%char] else []) ++ lit "inf"
  | S754_nan => lit "nan"
  | S754_finite s m e =>
      let '(d, x) := six_digits m e in
      let ds := Z_to_dec d in
      (if s then ["-"%char] else []) ++
      (if (x <? -4) || (6 <=? x) then
         firstn 1 ds ++ with_point (strip_zeros (skipn 1 ds)) ++ exponent_field x
       else if x <? 0 then
         lit "0." ++ repeat "0"%char (Z.to_nat (- x - 1)) ++ strip_zeros ds
       else
         firstn (Z.to_nat (x + 1)) ds
           ++ with_point (strip_zeros (skipn (Z.to_nat (x + 1)) ds)))
  end.

(** The field accepted by [num_get] for a floating-point value: an optional
    sign, digits with an optional decimal point, and an optional exponent
    (marker, optional sign, digits).  [None] when the field has no mantissa
    digit or an exponent marker without digits: [strtod] then does not
    convert the entire field. *)
Definition scan_float (s : std_string) : option (bool * Z * Z) :=
  let '(neg, s1) := take_sign s in
  let '(ip, s2) := take_digits s1 in
  let '(fp, s3) :=
    match s2 with
    | c :: s2' => if is_char (to_int_type c) "." then take_digits s2' else ([], s2)
    | [] => ([], s2)
    end in
  match ip ++ fp with
  | [] => None
  | _ :: _ =>
      let n := dec_value (ip ++ fp) in
      let shift := Z.of_nat (length fp) in
      match s3 with
      | c :: s3' =>
          if is_char (tolower (to_int_type c)) "e" then
            let '(eneg, s4) := take_sign s3' in
            let '(ed, _) := take_digits s4 in
            match ed with
            | [] => None
            | _ :: _ =>
                let x := dec_value ed in
                Some (neg, n, (if eneg then - x else x) - shift)
            end
          else Some (neg, n, - shift)
      | [] => Some (neg, n, - shift)
      end
  end.

(** [std::istringstream(s) >> num] for a [double num]: a field that cannot
    be converted stores 0, a value out of range stores the largest finite
    value of its sign. *)
Definition extract (s : std_string) : double :=
  match scan_float s with
  | None => zero
  | Some (neg, n, e) =>
      match of_decimal neg n e with
      | S754_infinity sg => if sg then SFopp max else max
      | v => v
      end
  end.

End Double.

Definition double : Type := Double.double.

(** ** The value model: [json::Node] *)

(** [std::variant<std::nullptr_t, Array, Dict, bool, int, double, std::string>];
    the constructors are listed in the order of the alternatives. *)
Inductive Node : Type :=
| VNull
| VArray (array : list Node)
| VDict (map : list (std_string * Node))
| VBool (value : bool)
| VInt (value : Z)
| VDouble (value : double)
| VString (value : std_string).

Definition Array := list Node.
Definition Dict := list (std_string * Node).

Definition INT_MIN : Z := - 2 ^ 31.
Definition INT_MAX : Z := 2 ^ 31 - 1.
Definition int_range (z : Z) : Prop := INT_MIN <= z <= INT_MAX.

(** [std::variant::index()]. *)
Definition index (n : Node) : nat :=
  match n with
  | VNull => 0
  | VArray _ => 1
  | VDict _ => 2
  | VBool _ => 3
  | VInt _ => 4
  | VDouble _ => 5
  | VString _ => 6
  end%nat.

(** The alternatives of the variant and their value-initialised payloads;
    [Node() = default] default-constructs the variant, which holds a
    value-initialised first alternative. *)
Inductive alternative : Type :=
| alt_nullptr_t | alt_Array | alt_Dict | alt_bool | alt_int | alt_double | alt_string.

Definition alternatives : list alternative :=
  [alt_nullptr_t; alt_Array; alt_Dict; alt_bool; alt_int; alt_double; alt_string].

Definition value_initialized (a : alternative) : Node :=
  match a with
  | alt_nullptr_t => VNull
  | alt_Array => VArray []
  | alt_Dict => VDict []
  | alt_bool => VBool false
  | alt_int => VInt 0
  | alt_double => VDouble Double.zero
  | alt_string => VString []
  end.

Definition Node_default : Node := value_initialized (hd alt_nullptr_t alternatives).
Definition Node_of_nullptr : Node := VNull.

Definition IsNull (n : Node) : bool := match n with VNull => true | _ => false end.
Definition IsArray (n : Node) : bool := match n with VArray _ => true | _ => false end.
Definition IsMap (n : Node) : bool := match n with VDict _ => true | _ => false end.
Definition IsBool (n : Node) : bool := match n with VBool _ => true | _ => false end.
Definition IsInt (n : Node) : bool := match n with VInt _ => true | _ => false end.
Definition holds_double (n : Node) : bool := match n with VDouble _ => true | _ => false end.
Definition IsDouble (n : Node) : bool := holds_double n || IsInt n.
Definition IsPureDouble (n : Node) : bool := holds_double n.
Definition IsString (n : Node) : bool := match n with VString _ => true | _ => false end.

(** [std::get<T>] throws [std::bad_variant_access] on another alternative. *)
Definition get_int (n : Node) : outcome Z :=
  match n with VInt i => Returns i | _ => Throws bad_variant_access end.

Definition get_double (n : Node) : outcome double :=
  match n with VDouble d => Returns d | _ => Throws bad_variant_access end.

Definition AsInt (n : Node) : outcome Z :=
  if negb (IsInt n) then Throws (logic_error (lit "Not an int"))
  else get_int n.

(** The [int] returned by the first branch is converted to the return
    type, [double]. *)
Definition AsDouble (n : Node) : outcome double :=
  if IsInt n then
    do i <- get_int n; Returns (Double.of_Z i)
  else if negb (IsDouble n) then Throws (logic_error (lit "Not a double"))
  else get_double n.

(** [operator==] of [std::variant]: equal indices and equal payloads, where
    [std::vector] and [std::map] compare sizes and then elements pairwise. *)
Fixpoint Node_eqb (a b : Node) : bool :=
  Nat.eqb (index a) (index b) &&
  match a, b with
  | VNull, VNull => true
  | VArray x, VArray y =>
      (fix vec_eqb (x y : list Node) : bool :=
         match x, y with
         | [], [] => true
         | n :: x', m :: y' => Node_eqb n m && vec_eqb x' y'
         | _, _ => false
         end) x y
  | VDict x, VDict y =>
      (fix map_eqb (x y : list (std_string * Node)) : bool :=
         match x, y with
         | [], [] => true
         | (k, n) :: x', (l, m) :: y' => string_eqb k l && Node_eqb n m && map_eqb x' y'
         | _, _ => false
         end) x y
  | VBool x, VBool y => Bool.eqb x y
  | VInt x, VInt y => x =? y
  | VDouble x, VDouble y => Double.eqb x y
  | VString x, VString y => string_eqb x y
  | _, _ => false
  end.

(** ** Conversions of [int] to and from text *)

(** [std::istringstream(s) >> num] for an [int num]: an optional sign and
    decimal digits.  A field without digits stores 0; a value outside the
    range of [int] stores the nearest bound.  (The lexemes built by
    [LoadNumber] are non-empty and contain no white space, so the stream's
    leading-whitespace skip has nothing to do.) *)
Definition extract_int (s : std_string) : Z :=
  let '(neg, s1) := take_sign s in
  let '(ds, _) := take_digits s1 in
  match ds with
  | [] => 0
  | _ :: _ =>
      let n := dec_value ds in
      clamp INT_MIN INT_MAX (if neg then - n else n)
  end.

(** [operator<<(int)]: a minus sign for a negative value, then the decimal
    digits of the magnitude. *)
Definition print_int (z : Z) : std_string :=
  if z <? 0 then "-"%char :: Z_to_dec (- z) else Z_to_dec z.

(** ** The parser *)

(** Results of the scanning routines: the value and the stream after it. *)
Definition parsed (A : Type) : Type := outcome (A * istream).

Fixpoint SkipWhitespace (input : istream) : istream :=
  match input with
  | c :: rest => if isspace (to_int_type c) then SkipWhitespace rest else input
  | [] => []
  end.

(** The lambda [read_char] of [LoadNumber]: the next character is taken
    from the stream and appended to the lexeme. *)
Definition read_char (st : std_string * istream) : std_string * istream :=
  let '(num_str, input) := st in
  let '(c, input') := get input in
  (num_str ++ [to_char c], input').

(** [while (isdigit(input.peek())) read_char();] *)
Fixpoint read_digits (num_str : std_string) (input : istream)
  : std_string * istream :=
  match input with
  | c :: rest =>
      if isdigit (to_int_type c) then read_digits (num_str ++ [c]) rest
      else (num_str, input)
  | [] => (num_str, [])
  end.

(** The lexeme scanned by [LoadNumber], whether it is marked floating, and
    the stream after it. *)
Definition scan_number (input : istream) : std_string * bool * istream :=
  let st := ([], input) in
  let st := if is_char (peek (snd st)) "-" then read_char st else st in
  let st := read_digits (fst st) (snd st) in
  let '(st, is_double) :=
    if is_char (peek (snd st)) "." then
      let st := read_char st in
      (read_digits (fst st) (snd st), true)
    else (st, false) in
  let '(st, is_double) :=
    if is_char (tolower (peek (snd st))) "e" then
      let st := read_char st in
      let st :=
        if is_char (peek (snd st)) "+" || is_char (peek (snd st)) "-"
        then read_char st else st in
      (read_digits (fst st) (snd st), true)
    else (st, is_double) in
  (fst st, is_double, snd st).

Definition LoadNumber (input : istream) : Node * istream :=
  let '(num_str, is_double, input') := scan_number input in
  if is_double then (VDouble (Double.extract num_str), input')
  else (VInt (extract_int num_str), input').

(** The state of the loop of [LoadStringToken]. *)
Record string_state : Type := {
  ss_input : istream;
  ss_line : std_string;
  ss_escape : bool
}.

Inductive loop_step (S A : Type) : Type :=
| Continue (s : S)
| Break (a : A)
| Throw (e : exception).

Arguments Continue {S A} s.
Arguments Break {S A} a.
Arguments Throw {S A} e.

(** The decoding of an escaped character, the [switch] of [LoadStringToken]. *)
Definition unescape (c : ascii) : option ascii :=
  if Ascii.eqb c "n" then Some ch_newline
  else if Ascii.eqb c "r" then Some ch_return
  else if Ascii.eqb c "t" then Some ch_tab
  else if Ascii.eqb c ch_quote then Some ch_quote
  else if Ascii.eqb c ch_backslash then Some ch_backslash
  else None.

(** One iteration of the [while (true)] of [LoadStringToken].  The character
    is [char c = input.get()]: at the end of the stream it is the image of
    [EOF], the character 0xFF, and the stream stays exhausted. *)
Definition LoadStringToken_body (st : string_state)
  : loop_step string_state (std_string * istream) :=
  let '(i, input) := get (ss_input st) in
  let c := to_char i in
  if Ascii.eqb c ch_backslash && negb (ss_escape st) then
    Continue {| ss_input := input; ss_line := ss_line st; ss_escape := true |}
  else if Ascii.eqb c ch_quote && negb (ss_escape st) then
    Break (ss_line st, input)
  else if ss_escape st then
    match unescape c with
    | Some c' =>
        Continue {| ss_input := input; ss_line := ss_line st ++ [c'];
                    ss_escape := false |}
    | None => Throw (ParsingError (lit "Invalid escape sequence"))
    end
  else
    Continue {| ss_input := input; ss_line := ss_line st ++ [c];
                ss_escape := false |}.

Fixpoint LoadStringToken_loop (fuel : nat) (st : string_state)
  : parsed std_string :=
  match fuel with
  | O => OutOfFuel
  | S fuel' =>
      match LoadStringToken_body st with
      | Continue st' => LoadStringToken_loop fuel' st'
      | Break r => Returns r
      | Throw e => Throws e
      end
  end.

Definition LoadStringToken (fuel : nat) (input : istream) : parsed std_string :=
  LoadStringToken_loop fuel
    {| ss_input := input; ss_line := []; ss_escape := false |}.

Definition LoadString (fuel : nat) (input : istream) : parsed Node :=
  let '(c, input) := get input in
  if negb (is_char c ch_quote) then
    Throws (ParsingError (lit "String should start with " ++ [ch_quote]))
  else
    do (s, input) <- LoadStringToken fuel input;
    Returns (VString s, input).

(** [while (isalpha(input.peek())) token += input.get();] *)
Fixpoint read_alpha (token : std_string) (input : istream)
  : std_string * istream :=
  match input with
  | c :: rest =>
      if isalpha (to_int_type c) then read_alpha (token ++ [c]) rest
      else (token, input)
  | [] => (token, [])
  end.

Definition LoadBoolOrNull (input : istream) : parsed Node :=
  let '(token, input) := read_alpha [] input in
  if string_eqb token (lit "true") then Returns (VBool true, input)
  else if string_eqb token (lit "false") then Returns (VBool false, input)
  else if string_eqb token (lit "null") then Returns (VNull, input)
  else Throws (ParsingError (lit "Unknown token: " ++ token)).

(** [std::map::emplace]: the entry is inserted at its place in key order
    unless the map already has an entry with an equivalent key, in which
    case the map is left as it is. *)
Fixpoint emplace (key : std_string) (node : Node) (d : Dict) : Dict :=
  match d with
  | [] => [(key, node)]
  | (k, n) :: d' =>
      if string_ltb key k then (key, node) :: d
      else if string_ltb k key then (k, n) :: emplace key node d'
      else d
  end.

(** The recursive descent.  [LoadArray_loop] and [LoadDict_loop] are the
    [while (true)] loops of [LoadArray] and [LoadDict], with the collection
    built so far as an argument.  Where the source reads [char c =
    input.get()], the end of the stream is seen as the character 0xFF. *)
Fixpoint LoadNode (fuel : nat) (input : istream) {struct fuel} : parsed Node :=
  match fuel with
  | O => OutOfFuel
  | S fuel' =>
      let input := SkipWhitespace input in
      let c := to_char (peek input) in
      if Ascii.eqb c "[" then LoadArray fuel' input
      else if Ascii.eqb c "{" then LoadDict fuel' input
      else if Ascii.eqb c ch_quote then LoadString fuel' input
      else if isdigit (char_to_int c) || Ascii.eqb c "-" then
        Returns (LoadNumber input)
      else if isalpha (char_to_int c) then LoadBoolOrNull input
      else Throws (ParsingError (lit "Unexpected character: " ++ [c]))
  end

with LoadArray (fuel : nat) (input : istream) {struct fuel} : parsed Node :=
  match fuel with
  | O => OutOfFuel
  | S fuel' =>
      let '(c, input) := get input in
      if negb (is_char c "[") then
        Throws (ParsingError (lit "Array should start with ["))
      else
        let input := SkipWhitespace input in
        if is_char (peek input) "]" then Returns (VArray [], snd (get input))
        else LoadArray_loop fuel' [] input
  end

with LoadArray_loop (fuel : nat) (result : Array) (input : istream)
  {struct fuel} : parsed Node :=
  match fuel with
  | O => OutOfFuel
  | S fuel' =>
      let input := SkipWhitespace input in
      do (node, input) <- LoadNode fuel' input;
      let result := result ++ [node] in
      let input := SkipWhitespace input in
      let '(i, input) := get input in
      let c := to_char i in
      if Ascii.eqb c "]" then Returns (VArray result, input)
      else if negb (Ascii.eqb c ",") then
        Throws (ParsingError (lit "Expected ',' or ']' in array"))
      else LoadArray_loop fuel' result input
  end

with LoadDict (fuel : nat) (input : istream) {struct fuel} : parsed Node :=
  match fuel with
  | O => OutOfFuel
  | S fuel' =>
      let '(c, input) := get input in
      if negb (is_char c "{") then
        Throws (ParsingError (lit "Dict should start with {"))
      else
        let input := SkipWhitespace input in
        if is_char (peek input) "}" then Returns (VDict [], snd (get input))
        else LoadDict_loop fuel' [] input
  end

with LoadDict_loop (fuel : nat) (result : Dict) (input : istream)
  {struct fuel} : parsed Node :=
  match fuel with
  | O => OutOfFuel
  | S fuel' =>
      let input := SkipWhitespace input in
      let '(q, input) := get input in
      if negb (is_char q ch_quote) then
        Throws (ParsingError (lit "Dict key should start with " ++ [ch_quote]))
      else
        do (key, input) <- LoadStringToken fuel' input;
        let input := SkipWhitespace input in
        let '(colon, input) := get input in
        if negb (is_char colon ":") then
          Throws (ParsingError (lit "Expected ':' after dict key"))
        else
          let input := SkipWhitespace input in
          do (node, input) <- LoadNode fuel' input;
          let result := emplace key node result in
          let input := SkipWhitespace input in
          let '(i, input) := get input in
          let c := to_char i in
          if Ascii.eqb c "}" then Returns (VDict result, input)
          else if negb (Ascii.eqb c ",") then
            Throws (ParsingError (lit "Expected ',' or '}' in dict"))
          else LoadDict_loop fuel' result input
  end.

(** ** Documents *)

Record Document : Type := { GetRoot : Node }.

Definition Document_of_Node (root : Node) : Document := {| GetRoot := root |}.
Definition Document_of_Array (array : Array) : Document := {| GetRoot := VArray array |}.
Definition Document_of_Dict (dict : Dict) : Document := {| GetRoot := VDict dict |}.

Definition Load (fuel : nat) (input : istream) : parsed Document :=
  do (root, input) <- LoadNode fuel input;
  Returns (Document_of_Node root, input).

(** ** The printer *)

(** The functions write to a [std::ostream]; each returns the characters it
    appends. *)

Definition PrintString_char (c : ascii) : std_string :=
  if Ascii.eqb c ch_newline then [ch_backslash; "n"%char]
  else if Ascii.eqb c ch_return then [ch_backslash; "r"%char]
  else if Ascii.eqb c ch_tab then [ch_backslash; "t"%char]
  else if Ascii.eqb c ch_quote then [ch_backslash; ch_quote]
  else if Ascii.eqb c ch_backslash then [ch_backslash; ch_backslash]
  else [c].

Definition PrintString (value : std_string) : std_string :=
  [ch_quote] ++ flat_map PrintString_char value ++ [ch_quote].

(** [std::string(n, ' ')]. *)
Definition spaces (n : nat) : std_string := repeat " "%char n.

(** [output << value] for a [double], and the suffix rule of [PrintNode]. *)
Definition PrintDouble (value : double) : std_string :=
  Double.g_format value ++
  (if Double.eqb (Double.floor value) value
      && Double.ltb (Double.abs value) (Double.of_Z (10 ^ 10))
   then lit ".0" else []).

Section Printer.

(** The forward-declared [PrintNode] that [PrintArray] and [PrintDict]
    call on their elements. *)
Variable PrintNode : Node -> nat -> std_string.

Fixpoint PrintArray_items (array : Array) (first : bool) (indent : nat)
  : std_string :=
  match array with
  | [] => []
  | node :: array' =>
      (if first then [] else [","%char]) ++
      [ch_newline] ++ spaces (indent + 2) ++ PrintNode node (indent + 2) ++
      PrintArray_items array' false indent
  end.

Definition PrintArray (array : Array) (indent : nat) : std_string :=
  ["["%char] ++ PrintArray_items array true indent ++
  (match array with [] => [] | _ :: _ => [ch_newline] ++ spaces indent end) ++
  ["]"%char].

Fixpoint PrintDict_items (dict : Dict) (first : bool) (indent : nat)
  : std_string :=
  match dict with
  | [] => []
  | (key, node) :: dict' =>
      (if first then [] else [","%char]) ++
      [ch_newline] ++ spaces (indent + 2) ++ PrintString key ++ lit ": " ++
      PrintNode node (indent + 2) ++
      PrintDict_items dict' false indent
  end.

Definition PrintDict (dict : Dict) (indent : nat) : std_string :=
  ["{"%char] ++ PrintDict_items dict true indent ++
  (match dict with [] => [] | _ :: _ => [ch_newline] ++ spaces indent end) ++
  ["}"%char].

End Printer.

Fixpoint PrintNode (node : Node) (indent : nat) {struct node} : std_string :=
  match node with
  | VNull => lit "null"
  | VBool value => if value then lit "true" else lit "false"
  | VInt value => print_int value
  | VDouble value => PrintDouble value
  | VString value => PrintString value
  | VArray value => PrintArray PrintNode value indent
  | VDict value => PrintDict PrintNode value indent
  end.

Definition Print (doc : Document) : std_string := PrintNode (GetRoot doc) 0.

(** ** Notions used in the statements *)

(** The integer a double stands for, when it is finite and integral. *)
Definition Double_to_Z (d : double) : option Z :=
  match d with
  | S754_zero _ => Some 0
  | S754_finite s m e =>
      let sgn (z : Z) := if s then - z else z in
      if 0 <=? e then Some (sgn (Z.pos m * 2 ^ e))
      else if Z.pos m mod 2 ^ (- e) =? 0 then Some (sgn (Z.pos m / 2 ^ (- e)))
      else None
  | _ => None
  end.

(** Two values that hold the same active variant with equal payloads,
    recursively through the elements of arrays and the entries of objects,
    where two [double] payloads count as equal when [R] relates them. *)
Inductive equal_payloads (R : double -> double -> Prop) : Node -> Node -> Prop :=
| de_null : equal_payloads R VNull VNull
| de_array : forall x y,
    Forall2 (equal_payloads R) x y -> equal_payloads R (VArray x) (VArray y)
| de_dict : forall x y,
    Forall2 (fun p q => fst p = fst q /\ equal_payloads R (snd p) (snd q)) x y ->
    equal_payloads R (VDict x) (VDict y)
| de_bool : forall b, equal_payloads R (VBool b) (VBool b)
| de_int : forall i, equal_payloads R (VInt i) (VInt i)
| de_double : forall x y, R x y -> equal_payloads R (VDouble x) (VDouble y)
| de_string : forall s, equal_payloads R (VString s) (VString s).

(** Equality of values as the specification words it: the same active
    variant and structurally equal payloads, so two [double] payloads are
    equal when they are the same double. *)
Definition deep_equal : Node -> Node -> Prop := equal_payloads eq.

(** Two doubles that stand for the same number: both are zeros, of either
    sign, or they are the same double and not a NaN. *)
Definition same_number (x y : double) : Prop :=
  (exists s t, x = S754_zero s /\ y = S754_zero t) \/ (x = y /\ x <> S754_nan).

(** Equality of values with the [double] payloads compared as numbers. *)
Definition numerically_equal : Node -> Node -> Prop := equal_payloads same_number.

(** Values without a [double] anywhere. *)
Fixpoint double_free (n : Node) : bool :=
  match n with
  | VDouble _ => false
  | VArray a => forallb double_free a
  | VDict d => forallb (fun kv => double_free (snd kv)) d
  | _ => true
  end.

(** The keys of a [Dict] in iteration order. *)
Definition keys (d : Dict) : list std_string := List.map fst d.

Definition string_lt (a b : std_string) : Prop := string_ltb a b = true.

(** The invariant of [std::map]: iteration visits strictly increasing keys. *)
Definition sorted_dict (d : Dict) : Prop := StronglySorted string_lt (keys d).

(** A [Dict] built by a sequence of [emplace] calls, as [LoadDict] does. *)
Definition Dict_of_entries (l : list (std_string * Node)) : Dict :=
  fold_left (fun d kv => emplace (fst kv) (snd kv) d) l [].

(** The first value listed for a key. *)
Fixpoint first_binding (key : std_string) (l : list (std_string * Node))
  : option Node :=
  match l with
  | [] => None
  | (k, n) :: l' => if string_eqb k key then Some n else first_binding key l'
  end.

(** [std::map::find]. *)
Definition find (key : std_string) (d : Dict) : option Node := first_binding key d.

(** Values as a C++ program can build them: every [int] in range, every
    [std::map] sorted strictly by key. *)
Fixpoint well_formed (n : Node) : Prop :=
  match n with
  | VInt i => int_range i
  | VArray a =>
      (fix all (l : list Node) : Prop :=
         match l with [] => True | x :: l' => well_formed x /\ all l' end) a
  | VDict d =>
      sorted_dict d /\
      (fix all (l : list (std_string * Node)) : Prop :=
         match l with [] => True | kv :: l' => well_formed (snd kv) /\ all l' end) d
  | _ => True
  end.

(** ** Inputs named in the specification *)

Definition quoted (s : std_string) : std_string := [ch_quote] ++ s ++ [ch_quote].

(** The object with the key a given twice, first with 1 and then with 2. *)
Definition text_dup_key : istream :=
  lit "{" ++ quoted (lit "a") ++ lit ":1," ++ quoted (lit "a") ++ lit ":2}".

(** A string literal that is never closed. *)
Definition text_unterminated : istream := [ch_quote] ++ lit "unterminated".

(** The string literal with an escaped line feed and an escaped quote: the
    seven characters a, backslash, n, b, backslash, quote, c between quotes. *)
Definition escape_body : std_string :=
  lit "a" ++ [ch_backslash] ++ lit "nb" ++ [ch_backslash; ch_quote] ++ lit "c".
Definition text_escape : istream := quoted escape_body.
Definition escape_content : std_string :=
  lit "a" ++ [ch_newline] ++ lit "b" ++ [ch_quote] ++ lit "c".

(** The characters the specification lists as white space. *)
Definition spec_whitespace (c : ascii) : bool :=
  Ascii.eqb c " " || Ascii.eqb c ch_tab || Ascii.eqb c ch_newline || Ascii.eqb c ch_return.

(** The characters on which [LoadNode] dispatches to a scanning routine. *)
Definition starts_value (c : ascii) : bool :=
  Ascii.eqb c "[" || Ascii.eqb c "{" || Ascii.eqb c ch_quote
  || isdigit (char_to_int c) || Ascii.eqb c "-" || isalpha (char_to_int c).

(** The characters [isspace] accepts in the "C" locale. *)
Definition c_locale_whitespace (c : ascii) : bool :=
  Ascii.eqb c " " || Ascii.eqb c ch_tab || Ascii.eqb c ch_newline
  || Ascii.eqb c ch_vtab || Ascii.eqb c ch_formfeed || Ascii.eqb c ch_return.

(** A character that neither ends a string literal nor starts an escape. *)
Definition plain_char (c : ascii) : bool :=
  negb (Ascii.eqb c ch_quote) && negb (Ascii.eqb c ch_backslash).

(** The image of [EOF] under the conversion to [char]. *)
Definition ch_eof : ascii := "255"%char.

(** What follows a value inside printed text: nothing, a comma or a line
    feed. *)
Definition value_end (rest : istream) : Prop :=
  match rest with
  | [] => True
  | c :: _ => c = ","%char \/ c = ch_newline
  end.

(** A double whose printed text, suffix included, starts a number and is
    read back by [LoadNumber] as the same double, entirely. *)
Definition double_reparses (d : double) : Prop :=
  isdigit (char_to_int (hd " "%char (PrintDouble d)))
  || Ascii.eqb (hd " "%char (PrintDouble d)) "-" = true /\
  forall rest, value_end rest ->
    LoadNumber (PrintDouble d ++ rest) = (VDouble d, rest).

(** Values all of whose doubles are read back from their printed text. *)
Fixpoint doubles_reparse (n : Node) : Prop :=
  match n with
  | VDouble d => double_reparses d
  | VArray a =>
      (fix all (l : list Node) : Prop :=
         match l with [] => True | x :: l' => doubles_reparse x /\ all l' end) a
  | VDict d =>
      (fix all (l : list (std_string * Node)) : Prop :=
         match l with [] => True | kv :: l' => doubles_reparse (snd kv) /\ all l' end) d
  | _ => True
  end.

(** The text [PrintArray] and [PrintDict] write after an element: either a
    comma and the next elements, or the line with the closing bracket. *)
Definition closing (bracket : ascii) (indent : nat) (rest : istream) : istream :=
  [ch_newline] ++ spaces indent ++ [bracket] ++ rest.

(** Loading the printed text of a value, followed by [rest], returns the
    value and leaves [rest], for every sufficient amount of fuel. *)
Definition round_trips (n : Node) : Prop :=
  forall indent rest, value_end rest ->
  exists F, forall f, (F <= f)%nat ->
    LoadNode f (PrintNode n indent ++ rest) = Returns (n, rest).

(** A value with every variant in it, doubles included. *)
Definition sample_value : Node :=
  VDict [(lit "a", VArray [VInt (-7); VDouble (Double.of_Z 42); VNull; VBool true]);
         (lit "b", VString escape_content);
         (lit "c", VDict []);
         (lit "d", VDouble (Double.extract (lit "-0.5")))].

(** ** The other accessors and comparison operators of [Node] *)

Definition get_Array (n : Node) : outcome Array :=
  match n with VArray a => Returns a | _ => Throws bad_variant_access end.

Definition get_Dict (n : Node) : outcome Dict :=
  match n with VDict d => Returns d | _ => Throws bad_variant_access end.

Definition get_bool (n : Node) : outcome bool :=
  match n with VBool b => Returns b | _ => Throws bad_variant_access end.

Definition get_string (n : Node) : outcome std_string :=
  match n with VString s => Returns s | _ => Throws bad_variant_access end.

Definition AsArray (n : Node) : outcome Array :=
  if negb (IsArray n) then Throws (logic_error (lit "Not an array"))
  else get_Array n.

Definition AsMap (n : Node) : outcome Dict :=
  if negb (IsMap n) then Throws (logic_error (lit "Not a map"))
  else get_Dict n.

Definition AsBool (n : Node) : outcome bool :=
  if negb (IsBool n) then Throws (logic_error (lit "Not a bool"))
  else get_bool n.

Definition AsString (n : Node) : outcome std_string :=
  if negb (IsString n) then Throws (logic_error (lit "Not a string"))
  else get_string n.

(** [operator==] of [std::vector<Node>] and of [std::map<std::string, Node>]:
    equal sizes and pairwise equal elements. *)
Fixpoint Array_eqb (x y : Array) : bool :=
  match x, y with
  | [], [] => true
  | n :: x', m :: y' => Node_eqb n m && Array_eqb x' y'
  | _, _ => false
  end.

Fixpoint Dict_eqb (x y : Dict) : bool :=
  match x, y with
  | [], [] => true
  | (k, n) :: x', (l, m) :: y' => string_eqb k l && Node_eqb n m && Dict_eqb x' y'
  | _, _ => false
  end.

(** [Node::operator!=]. *)
Definition Node_neqb (a b : Node) : bool := negb (Node_eqb a b).

(** [Node::operator==(const Array&)] and [Node::operator==(const Dict&)]:
    the accessor is called only when the type test has passed. *)
Definition Node_eqb_Array (n : Node) (arr : Array) : outcome bool :=
  if IsArray n then do a <- AsArray n; Returns (Array_eqb a arr)
  else Returns false.

Definition Node_eqb_Dict (n : Node) (dict : Dict) : outcome bool :=
  if IsMap n then do d <- AsMap n; Returns (Dict_eqb d dict)
  else Returns false.

(** Values without a NaN anywhere. *)
Fixpoint nan_free (n : Node) : bool :=
  match n with
  | VDouble S754_nan => false
  | VArray a => forallb nan_free a
  | VDict d => forallb (fun kv => nan_free (snd kv)) d
  | _ => true
  end.

(** The seven type tests that name one alternative each. *)
Definition type_tests (n : Node) : list bool :=
  [IsNull n; IsArray n; IsMap n; IsBool n; IsInt n; IsPureDouble n; IsString n].

(** The maximal run of letters at the head of a stream. *)
Fixpoint alpha_prefix (input : istream) : std_string :=
  match input with
  | c :: rest => if isalpha (to_int_type c) then c :: alpha_prefix rest else []
  | [] => []
  end.

(** [LoadNumber] after its first statement, the optional minus sign: the
    digits, the fraction and the exponent. *)
Definition scan_after_sign (st : std_string * istream) : std_string * bool * istream :=
  let st := read_digits (fst st) (snd st) in
  let '(st, is_double) :=
    if is_char (peek (snd st)) "." then
      let st := read_char st in
      (read_digits (fst st) (snd st), true)
    else (st, false) in
  let '(st, is_double) :=
    if is_char (tolower (peek (snd st))) "e" then
      let st := read_char st in
      let st :=
        if is_char (peek (snd st)) "+" || is_char (peek (snd st)) "-"
        then read_char st else st in
      (read_digits (fst st) (snd st), true)
    else (st, is_double) in
  (fst st, is_double, snd st).


(** [rest] is what is left of [input] after some characters were read. *)
Definition suffix (rest input : istream) : Prop :=
  exists consumed, input = consumed ++ rest.

(** The variant of value that the dispatch of [LoadNode] announces for a
    lookahead character. *)
Definition announced (c : ascii) (n : Node) : bool :=
  if Ascii.eqb c "[" then IsArray n
  else if Ascii.eqb c "{" then IsMap n
  else if Ascii.eqb c ch_quote then IsString n
  else if isdigit (char_to_int c) || Ascii.eqb c "-" then IsDouble n
  else IsBool n || IsNull n.

(** Every line feed of the text is followed by [k] spaces at least. *)
Fixpoint lines_indented (k : nat) (s : std_string) : bool :=
  match s with
  | [] => true
  | c :: s' =>
      (if Ascii.eqb c ch_newline then string_eqb (firstn k s') (spaces k) else true)
      && lines_indented k s'
  end.

(** The characters a printed number is made of. *)
Definition number_char (c : ascii) : bool :=
  isdigit (to_int_type c) || existsb (Ascii.eqb c) (lit ".e+-infa").

(** Texts without a tab or a carriage return, and texts of one line. *)
Definition no_tab_or_return (s : std_string) : bool :=
  forallb (fun c => negb (Ascii.eqb c ch_tab || Ascii.eqb c ch_return)) s.

Definition one_line (s : std_string) : bool :=
  forallb (fun c => negb (Ascii.eqb c ch_newline)) s.

(** The characters that make a numeric lexeme floating: the decimal point
    and the exponent marker in either case. *)
Definition is_marker (c : ascii) : bool :=
  Ascii.eqb c "." || Ascii.eqb c "e" || Ascii.eqb c "E".

(** A state of [LoadNumber] reached from the stream [input]: the lexeme is
    what was taken from the stream, and [m] tells whether it holds a
    marker. *)
Definition scanned (input : istream) (st : std_string * istream) (m : bool) : Prop :=
  input = fst st ++ snd st /\ existsb is_marker (fst st) = m.

(** The text of an object whose entries are written one after the other in
    the order of [l], laid out as [PrintDict] lays out a map.  [l] is any
    sequence of entries: it may repeat a key and need not be sorted. *)
Definition object_text (l : list (std_string * Node)) : std_string :=
  PrintDict PrintNode l 0.

(** Entries whose values are as a program can build them and whose doubles
    are read back from their printed text. *)
Definition printable_entries (l : list (std_string * Node)) : Prop :=
  Forall (fun kv => well_formed (snd kv) /\ doubles_reparse (snd kv)) l.

(** The parts of a numeric lexeme as [LoadNumber] scans it: an optional
    minus sign, the digits of the integer part, an optional fraction (the
    point and its digits) and an optional exponent (the marker, an optional
    sign and its digits).  Every run of digits may be empty. *)
Record number_parts : Type := {
  np_minus : bool;
  np_int : std_string;
  np_frac : option std_string;
  np_exp : option (ascii * std_string * std_string)
}.

Definition all_digits (ds : std_string) : bool :=
  forallb (fun c => isdigit (to_int_type c)) ds.

Definition fraction_text (frac : option std_string) : std_string :=
  match frac with Some ds => "."%char :: ds | None => [] end.

Definition exponent_text (exp : option (ascii * std_string * std_string))
  : std_string :=
  match exp with Some (e, sg, ds) => e :: sg ++ ds | None => [] end.

Definition number_text (p : number_parts) : std_string :=
  (if np_minus p then ["-"%char] else []) ++ np_int p ++
  fraction_text (np_frac p) ++ exponent_text (np_exp p).

Definition exponent_ok (exp : option (ascii * std_string * std_string)) : bool :=
  match exp with
  | Some (e, sg, ds) =>
      (Ascii.eqb e "e" || Ascii.eqb e "E") &&
      match sg with
      | [] => true
      | [c] => Ascii.eqb c "+" || Ascii.eqb c "-"
      | _ => false
      end && all_digits ds
  | None => true
  end.

Definition number_parts_ok (p : number_parts) : bool :=
  all_digits (np_int p) &&
  match np_frac p with Some ds => all_digits ds | None => true end &&
  exponent_ok (np_exp p).

(** The lexeme holds a point or an exponent marker. *)
Definition has_marker (p : number_parts) : bool :=
  match np_frac p, np_exp p with None, None => false | _, _ => true end.

(** The stream [rest] after the lexeme does not continue it, and without a
    minus sign the text does not start with one. *)
Definition number_stops (p : number_parts) (rest : istream) : bool :=
  (np_minus p || negb (is_char (peek (number_text p ++ rest)) "-")) &&
  negb (isdigit (peek rest)) &&
  match np_exp p with
  | Some (_, [], []) => negb (is_char (peek rest) "+" || is_char (peek rest) "-")
  | Some _ => true
  | None =>
      negb (is_char (tolower (peek rest)) "e") &&
      match np_frac p with
      | Some _ => true
      | None => negb (is_char (peek rest) ".")
      end
  end.

(** The third and the fourth statement of [LoadNumber]: the fraction and
    the exponent. *)
Definition scan_fraction (st : std_string * istream)
  : (std_string * istream) * bool :=
  if is_char (peek (snd st)) "." then
    let st := read_char st in
    (read_digits (fst st) (snd st), true)
  else (st, false).

Definition scan_exponent (sd : (std_string * istream) * bool)
  : std_string * bool * istream :=
  let '(st, is_double) := sd in
  let '(st, is_double) :=
    if is_char (tolower (peek (snd st))) "e" then
      let st := read_char st in
      let st :=
        if is_char (peek (snd st)) "+" || is_char (peek (snd st)) "-"
        then read_char st else st in
      (read_digits (fst st) (snd st), true)
    else (st, is_double) in
  (fst st, is_double, snd st).




(** The line feed, the carriage return and the tab. *)
Definition is_control (c : ascii) : bool :=
  Ascii.eqb c ch_newline || Ascii.eqb c ch_return || Ascii.eqb c ch_tab.

(** ** Induction on values *)

Section Node_induction.

Variable P : Node -> Prop.
Hypothesis HNull : P VNull.
Hypothesis HArray : forall a, Forall P a -> P (VArray a).
Hypothesis HDict : forall d, Forall (fun kv => P (snd kv)) d -> P (VDict d).
Hypothesis HBool : forall b, P (VBool b).
Hypothesis HInt : forall i, P (VInt i).
Hypothesis HDouble : forall x, P (VDouble x).
Hypothesis HString : forall s, P (VString s).

Fixpoint Node_ind' (n : Node) : P n :=
  match n with
  | VNull => HNull
  | VArray a =>
      HArray a
        ((fix go (l : list Node) : Forall P l :=
            match l with
            | [] => Forall_nil P
            | x :: l' => Forall_cons x (Node_ind' x) (go l')
            end) a)
  | VDict d =>
      HDict d
        ((fix go (l : list (std_string * Node)) : Forall (fun kv => P (snd kv)) l :=
            match l with
            | [] => Forall_nil _
            | kv :: l' => Forall_cons kv (Node_ind' (snd kv)) (go l')
            end) d)
  | VBool b => HBool b
  | VInt i => HInt i
  | VDouble x => HDouble x
  | VString s => HString s
  end.

End Node_induction.

(** ** The value model: default construction, accessors, equality *)

(** C10: a default-constructed [Node] holds the first alternative of the
    variant, the null pointer: [IsNull()] answers true and the node is equal
    to [Node(nullptr)]. *)
Theorem default_node_is_null :
  index Node_default = 0%nat /\
  IsNull Node_default = true /\
  Node_eqb Node_default Node_of_nullptr = true.
Proof. repeat split; reflexivity. Qed.

Lemma string_eqb_true : forall a b, string_eqb a b = true <-> a = b.
Proof.
  intros a b. unfold string_eqb.
  destruct (list_eq_dec ascii_dec a b); split; congruence.
Qed.

Lemma string_eqb_refl : forall a, string_eqb a a = true.
Proof. intros a. now apply string_eqb_true. Qed.

(** The two inner loops of [Node_eqb], named. *)
Lemma Node_eqb_array_nil_l : forall y, Node_eqb (VArray []) (VArray y) = true <-> y = [].
Proof. intros [|m y]; simpl; split; congruence. Qed.

Lemma Node_eqb_array_cons : forall n x y,
  Node_eqb (VArray (n :: x)) (VArray y) = true <->
  exists m y', y = m :: y' /\ Node_eqb n m = true /\ Node_eqb (VArray x) (VArray y') = true.
Proof.
  intros n x [|m y]; split.
  - simpl; discriminate.
  - intros (m & y' & E & _); discriminate.
  - intros H. exists m, y. split; [reflexivity|].
    change (Node_eqb n m && Node_eqb (VArray x) (VArray y) = true) in H.
    now apply andb_true_iff in H.
  - intros (m' & y' & E & H1 & H2). injection E as -> ->.
    change (Node_eqb n m' && Node_eqb (VArray x) (VArray y') = true).
    now rewrite H1, H2.
Qed.

Lemma Node_eqb_dict_nil_l : forall y, Node_eqb (VDict []) (VDict y) = true <-> y = [].
Proof. intros [|m y]; simpl; split; congruence. Qed.

Lemma Node_eqb_dict_cons : forall k n x y,
  Node_eqb (VDict ((k, n) :: x)) (VDict y) = true <->
  exists l m y', y = (l, m) :: y' /\ k = l /\ Node_eqb n m = true
                 /\ Node_eqb (VDict x) (VDict y') = true.
Proof.
  intros k n x [|[l m] y]; split.
  - simpl; discriminate.
  - intros (l & m & y' & E & _); discriminate.
  - intros H. exists l, m, y. split; [reflexivity|].
    change (string_eqb k l && Node_eqb n m && Node_eqb (VDict x) (VDict y) = true) in H.
    apply andb_true_iff in H as [H H3]. apply andb_true_iff in H as [H1 H2].
    apply string_eqb_true in H1. auto.
  - intros (l' & m' & y' & E & -> & H1 & H2). injection E as -> -> ->.
    change (string_eqb l' l' && Node_eqb n m' && Node_eqb (VDict x) (VDict y') = true).
    now rewrite string_eqb_refl, H1, H2.
Qed.

(** [operator==] on doubles, spelled out: the two zeros are equal, a NaN is
    equal to nothing, and otherwise equal doubles are the same double. *)
Lemma Double_eqb_spec : forall a b,
  Double.eqb a b = true <->
  (exists s t, a = S754_zero s /\ b = S754_zero t) \/ (a = b /\ a <> S754_nan).
Proof.
  intros a b. unfold Double.eqb, SFeqb. split.
  - destruct a as [s| s| |s m e], b as [t| t| |t n f]; simpl;
      try discriminate; try (destruct s; discriminate);
      try (destruct t; discriminate).
    + intros _. left. eauto.
    + destruct s, t; try discriminate; intros _; right; split; congruence.
    + destruct s, t; try discriminate.
      * destruct (Z.compare_spec e f); try discriminate. subst.
        destruct (Pos.compare_cont Eq m n) eqn:C; try discriminate.
        apply Pos.compare_eq in C. subst. intros _. right. split; congruence.
      * destruct (Z.compare_spec e f); try discriminate. subst.
        destruct (Pos.compare_cont Eq m n) eqn:C; try discriminate.
        apply Pos.compare_eq in C. subst. intros _. right. split; congruence.
  - intros [(s & t & -> & ->)|[<- Hn]]; [reflexivity|].
    destruct a as [s| s| |s m e]; simpl; try reflexivity.
    + destruct s; reflexivity.
    + contradiction.
    + rewrite Z.compare_refl, Pos.compare_cont_refl. destruct s; reflexivity.
Qed.

Lemma Node_eqb_numerically_equal : forall a b,
  Node_eqb a b = true <-> numerically_equal a b.
Proof.
  unfold numerically_equal.
  induction a as [|a IH|d IH|x|i|x|s] using Node_ind'; intros b.
  - destruct b; simpl; split; intros H; try discriminate; try constructor; inversion H.
  - destruct b as [|y| | | | |];
      try (split; intros H; [discriminate H | inversion H]).
    revert y. induction IH as [|n a Hn _ IHa]; intros y.
    + rewrite Node_eqb_array_nil_l. split.
      * intros ->. constructor. constructor.
      * intros H. inversion H as [|? ? F| | | | |]. now inversion F.
    + rewrite Node_eqb_array_cons. split.
      * intros (m & y' & -> & H1 & H2). constructor. constructor.
        -- now apply Hn.
        -- apply IHa in H2. now inversion H2.
      * intros H. inversion H as [|? ? F| | | | |]. inversion F as [|? m ? y' F1 F2]. subst.
        exists m, y'. split; [reflexivity|]. split.
        -- now apply Hn.
        -- apply IHa. now constructor.
  - destruct b as [| |y| | | |];
      try (split; intros H; [discriminate H | inversion H]).
    revert y. induction IH as [|[k n] d Hn _ IHd]; intros y.
    + rewrite Node_eqb_dict_nil_l. split.
      * intros ->. constructor. constructor.
      * intros H. inversion H as [| |? ? F| | | |]. now inversion F.
    + rewrite Node_eqb_dict_cons. split.
      * intros (l & m & y' & -> & -> & H1 & H2). constructor. constructor.
        -- split; [reflexivity | now apply Hn].
        -- apply IHd in H2. now inversion H2.
      * intros H. inversion H as [| |? ? F| | | |].
        inversion F as [|? [l m] ? y' [F0 F1] F2]. subst. simpl in *.
        exists l, m, y'. repeat split; trivial.
        -- now apply Hn.
        -- apply IHd. now constructor.
  - destruct b as [| | |y| | |]; simpl; split; intros H; try discriminate; try (now inversion H).
    + apply eqb_prop in H. subst. constructor.
    + inversion H. apply eqb_reflx.
  - destruct b as [| | | |j| |]; simpl; split; intros H; try discriminate; try (now inversion H).
    + apply Z.eqb_eq in H. subst. constructor.
    + inversion H. apply Z.eqb_refl.
  - destruct b as [| | | | |y|]; simpl; split; intros H; try discriminate; try (now inversion H).
    + constructor. now apply Double_eqb_spec.
    + inversion H. now apply Double_eqb_spec.
  - destruct b as [| | | | | |t]; simpl; split; intros H; try discriminate; try (now inversion H).
    + apply string_eqb_true in H. subst. constructor.
    + inversion H. apply string_eqb_refl.
Qed.

Lemma Node_eqb_index : forall a b, index a <> index b -> Node_eqb a b = false.
Proof.
  intros a b H. destruct a, b; try reflexivity; exfalso; apply H; reflexivity.
Qed.

(** On values without doubles the relation on doubles plays no part: the
    payloads are equal exactly when the values are the same tree. *)
Lemma equal_payloads_double_free : forall R a b,
  double_free a = true -> (equal_payloads R a b <-> a = b).
Proof.
  intros R.
  induction a as [|a IH|d IH|x|i|x|s] using Node_ind'; intros b Hf;
    try (split; intros H; [now inversion H | subst; constructor]).
  - split.
    + intros H. inversion H as [|? y F| | | | |]. subst. f_equal.
      simpl in Hf. clear H. revert y F. induction IH as [|n a Hn _ IHa]; intros y F.
      * now inversion F.
      * inversion F as [|? m ? y' F1 F2]. subst. simpl in Hf.
        apply andb_true_iff in Hf as [Hf1 Hf2]. f_equal.
        -- now apply Hn.
        -- now apply IHa.
    + intros <-. constructor. simpl in Hf.
      induction IH as [|n a Hn _ IHa]; constructor.
      * simpl in Hf. apply andb_true_iff in Hf as [Hf1 _]. now apply Hn.
      * simpl in Hf. apply andb_true_iff in Hf as [_ Hf2]. now apply IHa.
  - split.
    + intros H. inversion H as [| |? y F| | | |]. subst. f_equal.
      simpl in Hf. clear H. revert y F. induction IH as [|[k n] d Hn _ IHd]; intros y F.
      * now inversion F.
      * inversion F as [|? [l m] ? y' [F0 F1] F2]. subst. simpl in *.
        apply andb_true_iff in Hf as [Hf1 Hf2]. f_equal.
        -- f_equal; [exact F0 | now apply Hn].
        -- now apply IHd.
    + intros <-. constructor. simpl in Hf.
      induction IH as [|[k n] d Hn _ IHd]; constructor.
      * simpl in *. apply andb_true_iff in Hf as [Hf1 _]. split; [reflexivity | now apply Hn].
      * simpl in Hf. apply andb_true_iff in Hf as [_ Hf2]. now apply IHd.
  - discriminate Hf.
Qed.

(** Structural equality of the payloads is identity of the trees. *)
Lemma deep_equal_eq : forall a b, deep_equal a b <-> a = b.
Proof.
  unfold deep_equal.
  induction a as [|a IH|d IH|x|i|x|s] using Node_ind'; intros b;
    try (split; intros H;
         [inversion H; subst; reflexivity | subst; constructor; reflexivity]).
  - split.
    + intros H. inversion H as [|? y F| | | | |]. subst. f_equal.
      clear H. revert y F. induction IH as [|n a Hn _ IHa]; intros y F.
      * now inversion F.
      * inversion F as [|? m ? y' F1 F2]. subst. f_equal.
        -- now apply Hn.
        -- now apply IHa.
    + intros <-. constructor.
      induction IH as [|n a Hn _ IHa]; constructor; [now apply Hn | exact IHa].
  - split.
    + intros H. inversion H as [| |? y F| | | |]. subst. f_equal.
      clear H. revert y F. induction IH as [|[k n] d Hn _ IHd]; intros y F.
      * now inversion F.
      * inversion F as [|? [l m] ? y' [F0 F1] F2]. subst. simpl in *. f_equal.
        -- f_equal; [exact F0 | now apply Hn].
        -- now apply IHd.
    + intros <-. constructor.
      induction IH as [|[k n] d Hn _ IHd]; constructor;
        [split; [reflexivity | now apply Hn] | exact IHd].
Qed.

(** Structurally equal values compare equal unless they hold a NaN. *)
Lemma numerically_equal_refl : forall a, numerically_equal a a <-> nan_free a = true.
Proof.
  unfold numerically_equal.
  induction a as [|a IH|d IH|x|i|x|s] using Node_ind';
    try (split; [reflexivity | constructor]).
  - split.
    + intros H. inversion H as [|? ? F| | | | |]. subst. clear H. simpl.
      induction IH as [|n a Hn _ IHa]; [reflexivity|].
      inversion F. subst. simpl. apply andb_true_iff. split; [now apply Hn | auto].
    + intros H. constructor. simpl in H.
      induction IH as [|n a Hn _ IHa]; constructor;
        simpl in H; apply andb_true_iff in H as [H1 H2]; [now apply Hn | auto].
  - split.
    + intros H. inversion H as [| |? ? F| | | |]. subst. clear H. simpl.
      induction IH as [|n d Hn _ IHd]; [reflexivity|].
      inversion F as [|? ? ? ? [F1 F2] F3]. subst. simpl.
      apply andb_true_iff. split; [now apply Hn | auto].
    + intros H. constructor. simpl in H.
      induction IH as [|n d Hn _ IHd]; constructor;
        simpl in H; apply andb_true_iff in H as [H1 H2];
        [split; [reflexivity | now apply Hn] | auto].
  - split.
    + intros H. inversion H as [| | | | |? ? E|]. subst.
      destruct x; try reflexivity.
      destruct E as [(s & t & E & _)|[_ E]]; [discriminate E | contradiction].
    + intros H. constructor.
      destruct x; right; split; (reflexivity || discriminate).
Qed.

(** The claim C7 fails on doubles.  A value holding a NaN has the same
    variant and the same payload as itself and is not equal to itself; the
    doubles -0.0 and 0.0 are different payloads and compare equal.  So
    [operator==] is not the structural equality of the payloads. *)
Lemma NaN_is_not_equal_to_itself :
  deep_equal (VDouble S754_nan) (VDouble S754_nan) /\
  Node_eqb (VDouble S754_nan) (VDouble S754_nan) = false /\
  ~ deep_equal (VDouble (S754_zero true)) (VDouble (S754_zero false)) /\
  Node_eqb (VDouble (S754_zero true)) (VDouble (S754_zero false)) = true /\
  ~ (forall a b, Node_eqb a b = true <-> deep_equal a b).
Proof.
  assert (H : deep_equal (VDouble S754_nan) (VDouble S754_nan))
    by (constructor; reflexivity).
  split; [exact H|]. split; [reflexivity|]. split.
  - intros D. apply deep_equal_eq in D. discriminate D.
  - split; [reflexivity|]. intros C. apply C in H. discriminate H.
Qed.

(** C7, amended: [operator==] on two values holds exactly when they hold
    the same variant with equal payloads, recursively through arrays and
    objects, where two doubles are equal when they stand for the same number:
    the two zeros are equal and a NaN is equal to nothing.  Structurally
    equal values are therefore equal when they hold no NaN, and on values
    without doubles [operator==] is the structural equality of the
    specification, which is identity of the trees.  Values of different
    variants are never equal, and the Integer 1 is not equal to the Double
    1.0. *)
Theorem Node_equality_compares_doubles_as_numbers :
  (forall a b, Node_eqb a b = true <-> numerically_equal a b) /\
  (forall x y, Node_eqb (VDouble x) (VDouble y) = true <-> same_number x y) /\
  (forall a b, deep_equal a b <-> a = b) /\
  (forall a b, nan_free a = true -> deep_equal a b -> Node_eqb a b = true) /\
  (forall a b, double_free a = true -> (Node_eqb a b = true <-> deep_equal a b)) /\
  (forall a b, index a <> index b -> Node_eqb a b = false) /\
  Node_eqb (VDouble S754_nan) (VDouble S754_nan) = false /\
  Node_eqb (VDouble (S754_zero true)) (VDouble (S754_zero false)) = true /\
  Node_eqb (VInt 1) (VDouble (Double.of_Z 1)) = false.
Proof.
  split; [exact Node_eqb_numerically_equal|]. split.
  { intros x y. exact (Double_eqb_spec x y). }
  split; [exact deep_equal_eq|]. split.
  { intros a b Hn D. apply deep_equal_eq in D. subst b.
    now apply Node_eqb_numerically_equal, numerically_equal_refl. }
  split; [|split; [exact Node_eqb_index | repeat split]].
  intros a b Hf. rewrite Node_eqb_numerically_equal.
  unfold numerically_equal, deep_equal.
  now rewrite !equal_payloads_double_free.
Qed.

Lemma Node_equality_compares_doubles_as_numbers_witness :
  index (VInt 1) <> index (VString (lit "1")) /\
  Node_eqb (VInt 1) (VString (lit "1")) = false /\
  nan_free (VArray [VDouble (Double.of_Z 1); VNull]) = true /\
  Node_eqb (VArray [VDouble (Double.of_Z 1); VNull])
           (VArray [VDouble (Double.of_Z 1); VNull]) = true /\
  (Node_eqb (VArray [VInt 1; VNull]) (VArray [VInt 1; VNull]) = true <->
   deep_equal (VArray [VInt 1; VNull]) (VArray [VInt 1; VNull])).
Proof.
  pose proof Node_equality_compares_doubles_as_numbers
    as (_ & _ & Hid & Hnan & Hfree & Hidx & _).
  assert (H : index (VInt 1) <> index (VString (lit "1"))) by (simpl; discriminate).
  assert (N : nan_free (VArray [VDouble (Double.of_Z 1); VNull]) = true) by reflexivity.
  split; [exact H|]. split; [exact (Hidx _ _ H)|]. split; [exact N|]. split.
  - exact (Hnan _ _ N (proj2 (Hid _ _) eq_refl)).
  - exact (Hfree (VArray [VInt 1; VNull]) (VArray [VInt 1; VNull]) eq_refl).
Defined.


(** *** The conversion of an [int] to [double] is exact *)

Lemma digits2_pos_iter_xO : forall k p,
  digits2_pos (Pos.iter xO p k) = (digits2_pos p + k)%positive.
Proof.
  induction k as [|k IH] using Pos.peano_ind; intros p.
  - simpl. lia.
  - rewrite Pos.iter_succ. simpl. rewrite IH. lia.
Qed.

Lemma Zpos_iter_xO : forall k p,
  Z.pos (Pos.iter xO p k) = Z.pos p * 2 ^ Z.pos k.
Proof.
  induction k as [|k IH] using Pos.peano_ind; intros p.
  - simpl. lia.
  - rewrite Pos.iter_succ, Pos2Z.inj_xO, IH, Pos2Z.inj_succ, Z.pow_succ_r by lia. ring.
Qed.

Lemma binary_round_aux_canonical : forall s m e,
  Z.pos (digits2_pos m) = 53 -> -1074 <= e <= 971 ->
  binary_round_aux Double.prec Double.emax s (Z.pos m) e loc_Exact = S754_finite s m e.
Proof.
  intros s m e Hd He.
  assert (Hs : shr_fexp Double.prec Double.emax (Z.pos m) e loc_Exact
               = ({| shr_m := Z.pos m; shr_r := false; shr_s := false |}, e)).
  { unfold shr_fexp, fexp, emin, Double.prec, Double.emax. simpl Zdigits2. rewrite Hd.
    replace (Z.max (53 + e - 53) (3 - 1024 - 53) - e) with 0 by lia. reflexivity. }
  unfold binary_round_aux. rewrite Hs. simpl. rewrite Hs. simpl.
  unfold Double.emax, Double.prec. simpl Z.sub.
  destruct (Z.leb_spec e 971); [reflexivity | lia].
Qed.

Lemma binary_round_int_exact : forall s p,
  Z.pos (digits2_pos p) <= 53 ->
  Double_to_Z (binary_round Double.prec Double.emax s p 0)
  = Some (if s then - Z.pos p else Z.pos p).
Proof.
  intros s p Hd. unfold binary_round, shl_align.
  assert (Hf : fexp Double.prec Double.emax (Z.pos (digits2_pos p) + 0)
               = Z.pos (digits2_pos p) - 53).
  { unfold fexp, emin, Double.prec, Double.emax. lia. }
  rewrite Hf, Z.sub_0_r.
  destruct (Z.pos (digits2_pos p) - 53) as [|k|k] eqn:E; [|lia|].
  - rewrite (binary_round_aux_canonical s p 0) by lia.
    unfold Double_to_Z. change (0 <=? 0) with true. cbv iota.
    now rewrite Z.pow_0_r, Z.mul_1_r.
  - rewrite (binary_round_aux_canonical s (Pos.iter xO p k) (Z.neg k)).
    + unfold Double_to_Z.
      change (0 <=? Z.neg k) with false. cbv iota.
      change (- Z.neg k) with (Z.pos k).
      rewrite Zpos_iter_xO.
      assert (H2 : 0 < 2 ^ Z.pos k) by (apply Z.pow_pos_nonneg; lia).
      rewrite Z.mod_mul by lia. rewrite Z.eqb_refl.
      rewrite Z.div_mul by lia. reflexivity.
    + rewrite digits2_pos_iter_xO. lia.
    + lia.
Qed.

Lemma digits2_pos_bound : forall p n, 0 <= n -> Z.pos p < 2 ^ n -> Z.pos (digits2_pos p) <= n.
Proof.
  induction p as [p IH|p IH|]; intros n Hn Hp.
  - simpl digits2_pos. rewrite Pos2Z.inj_succ.
    assert (0 < n). { destruct (Z.eq_dec n 0) as [->|]; [simpl in Hp; lia | lia]. }
    replace n with (Z.succ (n - 1)) in Hp by lia. rewrite Z.pow_succ_r in Hp by lia.
    specialize (IH (n - 1)). lia.
  - simpl digits2_pos. rewrite Pos2Z.inj_succ.
    assert (0 < n). { destruct (Z.eq_dec n 0) as [->|]; [simpl in Hp; lia | lia]. }
    replace n with (Z.succ (n - 1)) in Hp by lia. rewrite Z.pow_succ_r in Hp by lia.
    specialize (IH (n - 1)). lia.
  - simpl. destruct (Z.eq_dec n 0) as [->|]; [simpl in Hp; lia | lia].
Qed.

Lemma of_Z_exact : forall z, Z.abs z < 2 ^ 53 -> Double_to_Z (Double.of_Z z) = Some z.
Proof.
  intros [|p|p] Hz; unfold Double.of_Z, binary_normalize.
  - reflexivity.
  - apply (binary_round_int_exact false). apply digits2_pos_bound; [lia | exact Hz].
  - apply (binary_round_int_exact true). apply digits2_pos_bound; [lia | exact Hz].
Qed.

(** C6: on a value holding an Integer, [AsDouble()] returns the stored
    integer converted to [double], and that conversion is exact for every
    [int]; on a Double it returns the payload; it throws, with the logic
    error of the source and nothing else, exactly when the value holds
    neither an Integer nor a Double. *)
Theorem AsDouble_widens_int :
  (forall i, AsDouble (VInt i) = Returns (Double.of_Z i)) /\
  (forall i, int_range i -> Double_to_Z (Double.of_Z i) = Some i) /\
  (forall d, AsDouble (VDouble d) = Returns d) /\
  (forall n, AsDouble n = Throws (logic_error (lit "Not a double")) <->
             IsInt n = false /\ IsPureDouble n = false) /\
  (forall n e, AsDouble n = Throws e -> e = logic_error (lit "Not a double")) /\
  (forall n, AsDouble n <> OutOfFuel).
Proof.
  split; [reflexivity|]. split; [|split; [reflexivity|split; [|split]]].
  - intros i [Hlo Hhi]. apply of_Z_exact. unfold INT_MIN, INT_MAX in *. lia.
  - intros n; destruct n; simpl; split;
      try (intros He; discriminate He);
      try (intros [H1 H2]; discriminate);
      try (intros _; split; reflexivity);
      intros _; reflexivity.
  - intros n e; destruct n; simpl; intros H; try discriminate H;
      now injection H as <-.
  - intros n; destruct n; discriminate.
Qed.

Lemma AsDouble_widens_int_witness :
  int_range (-7) /\ Double_to_Z (Double.of_Z (-7)) = Some (-7).
Proof.
  assert (H : int_range (-7)) by (unfold int_range, INT_MIN, INT_MAX; lia).
  split; [exact H | exact (proj1 (proj2 AsDouble_widens_int) (-7) H)].
Defined.

(** ** The order on keys and [std::map::emplace] *)

Lemma to_int_type_inj : forall x y, to_int_type x = to_int_type y -> x = y.
Proof.
  intros x y H. unfold to_int_type in H. apply N2Z.inj in H.
  rewrite <- (ascii_N_embedding x), <- (ascii_N_embedding y). now rewrite H.
Qed.

Lemma to_int_type_range : forall c, 0 <= to_int_type c < 256.
Proof.
  intros c. unfold to_int_type. pose proof (N_ascii_bounded c). lia.
Qed.

Lemma to_char_to_int_type : forall c, to_char (to_int_type c) = c.
Proof.
  intros c. unfold to_char. rewrite Z.mod_small by apply to_int_type_range.
  unfold to_int_type. rewrite N2Z.id. apply ascii_N_embedding.
Qed.

Lemma string_ltb_irrefl : forall a, string_ltb a a = false.
Proof.
  induction a as [|x a IH]; simpl; [reflexivity|].
  rewrite Z.ltb_irrefl. exact IH.
Qed.

Lemma string_ltb_trans : forall a b c,
  string_ltb a b = true -> string_ltb b c = true -> string_ltb a c = true.
Proof.
  induction a as [|x a IH]; intros [|y b] [|z c] H1 H2; simpl in *;
    try discriminate; try reflexivity.
  destruct (Z.ltb_spec (to_int_type x) (to_int_type y)),
           (Z.ltb_spec (to_int_type y) (to_int_type x)),
           (Z.ltb_spec (to_int_type y) (to_int_type z)),
           (Z.ltb_spec (to_int_type z) (to_int_type y)),
           (Z.ltb_spec (to_int_type x) (to_int_type z)),
           (Z.ltb_spec (to_int_type z) (to_int_type x));
    try discriminate; try reflexivity; try lia.
  eauto.
Qed.

Lemma string_ltb_asym : forall a b, string_ltb a b = true -> string_ltb b a = false.
Proof.
  intros a b H. destruct (string_ltb b a) eqn:E; [|reflexivity].
  pose proof (string_ltb_trans _ _ _ H E) as T. now rewrite string_ltb_irrefl in T.
Qed.

Lemma string_ltb_total : forall a b,
  string_ltb a b = false -> string_ltb b a = false -> a = b.
Proof.
  induction a as [|x a IH]; intros [|y b] H1 H2; simpl in *;
    try discriminate; try reflexivity.
  destruct (Z.ltb_spec (to_int_type x) (to_int_type y)),
           (Z.ltb_spec (to_int_type y) (to_int_type x));
    try discriminate.
  assert (x = y) by (apply to_int_type_inj; lia). subst. f_equal. now apply IH.
Qed.

Lemma sorted_dict_cons : forall k n d,
  sorted_dict ((k, n) :: d) <-> sorted_dict d /\ Forall (string_lt k) (keys d).
Proof.
  intros k n d. unfold sorted_dict. simpl. split.
  - intros H. inversion H. auto.
  - intros [H1 H2]. now constructor.
Qed.

Lemma keys_emplace : forall key node d k,
  In k (keys (emplace key node d)) <-> k = key \/ In k (keys d).
Proof.
  intros key node d k. induction d as [|[k0 n0] d IH]; simpl.
  - intuition.
  - destruct (string_ltb key k0) eqn:E1; [simpl; intuition|].
    destruct (string_ltb k0 key) eqn:E2; simpl.
    + unfold keys in IH. rewrite IH. intuition.
    + assert (key = k0) by now apply string_ltb_total. subst. intuition.
Qed.

Lemma emplace_sorted : forall key node d,
  sorted_dict d -> sorted_dict (emplace key node d).
Proof.
  intros key node d. induction d as [|[k0 n0] d IH]; intros Hs; simpl.
  - apply sorted_dict_cons. split; constructor.
  - destruct (string_ltb key k0) eqn:E1.
    + apply sorted_dict_cons. split; [exact Hs|].
      apply sorted_dict_cons in Hs as [_ Hall]. simpl. constructor; [exact E1|].
      eapply Forall_impl; [|exact Hall]. intros a Ha. exact (string_ltb_trans _ _ _ E1 Ha).
    + destruct (string_ltb k0 key) eqn:E2; [|exact Hs].
      apply sorted_dict_cons in Hs as [Hd Hall]. apply sorted_dict_cons. split; [auto|].
      apply Forall_forall. intros k Hk. apply keys_emplace in Hk as [->|Hk]; [exact E2|].
      rewrite Forall_forall in Hall. auto.
Qed.

(** An entry whose key is already present leaves the map as it is. *)
Lemma emplace_present : forall key node d,
  sorted_dict d -> In key (keys d) -> emplace key node d = d.
Proof.
  intros key node d. induction d as [|[k0 n0] d IH]; intros Hs Hin; simpl in *.
  - contradiction.
  - apply sorted_dict_cons in Hs as [Hd Hall]. destruct Hin as [->|Hin].
    + now rewrite string_ltb_irrefl.
    + rewrite Forall_forall in Hall. pose proof (Hall _ Hin) as Hlt.
      unfold string_lt in Hlt. rewrite (string_ltb_asym _ _ Hlt), Hlt. f_equal. auto.
Qed.

Lemma find_none_not_in : forall key d, find key d = None <-> ~ In key (keys d).
Proof.
  intros key d. unfold find. induction d as [|[k0 n0] d IH]; simpl.
  - intuition.
  - destruct (string_eqb k0 key) eqn:E.
    + apply string_eqb_true in E. split; [discriminate | intuition].
    + assert (k0 <> key) by (intros ->; now rewrite string_eqb_refl in E).
      rewrite IH. intuition.
Qed.

Lemma find_emplace : forall key node d k,
  sorted_dict d ->
  find k (emplace key node d) =
  if string_eqb key k
  then match find key d with Some n => Some n | None => Some node end
  else find k d.
Proof.
  intros key node d k. unfold find.
  induction d as [|[k0 n0] d IH]; intros Hs; simpl.
  - destruct (string_eqb key k); reflexivity.
  - apply sorted_dict_cons in Hs as [Hd Hall].
    destruct (string_ltb key k0) eqn:E1.
    + simpl. destruct (string_eqb key k) eqn:Ek; [|reflexivity].
      apply string_eqb_true in Ek. subst k.
      destruct (string_eqb k0 key) eqn:E0.
      * apply string_eqb_true in E0. subst. now rewrite string_ltb_irrefl in E1.
      * assert (Hn : find key d = None).
        { apply find_none_not_in. intros Hin. rewrite Forall_forall in Hall.
          pose proof (Hall _ Hin) as Hlt. unfold string_lt in Hlt.
          pose proof (string_ltb_trans _ _ _ E1 Hlt) as T.
          now rewrite string_ltb_irrefl in T. }
        unfold find in Hn. now rewrite Hn.
    + destruct (string_ltb k0 key) eqn:E2.
      * simpl. rewrite (IH Hd).
        destruct (string_eqb k0 key) eqn:E0.
        { apply string_eqb_true in E0. subst. now rewrite string_ltb_irrefl in E2. }
        destruct (string_eqb key k) eqn:Ek; [|reflexivity].
        apply string_eqb_true in Ek. subst k. now rewrite E0.
      * assert (key = k0) by now apply string_ltb_total. subst k0.
        rewrite string_eqb_refl. simpl.
        destruct (string_eqb key k); reflexivity.
Qed.

Lemma Dict_of_entries_snoc : forall l k n,
  Dict_of_entries (l ++ [(k, n)]) = emplace k n (Dict_of_entries l).
Proof. intros l k n. unfold Dict_of_entries. now rewrite fold_left_app. Qed.

Lemma Dict_of_entries_sorted : forall l, sorted_dict (Dict_of_entries l).
Proof.
  induction l as [|[k n] l IH] using rev_ind.
  - constructor.
  - rewrite Dict_of_entries_snoc. now apply emplace_sorted.
Qed.

Lemma first_binding_app : forall key l l',
  first_binding key (l ++ l') =
  match first_binding key l with Some n => Some n | None => first_binding key l' end.
Proof.
  intros key l l'. induction l as [|[k n] l IH]; simpl; [reflexivity|].
  destruct (string_eqb k key); [reflexivity | exact IH].
Qed.

(** The value found under a key is the one of its first occurrence among
    the inserted entries. *)
Lemma find_Dict_of_entries : forall l key,
  find key (Dict_of_entries l) = first_binding key l.
Proof.
  induction l as [|[k n] l IH] using rev_ind; intros key.
  - reflexivity.
  - rewrite Dict_of_entries_snoc, find_emplace by apply Dict_of_entries_sorted.
    rewrite first_binding_app, !IH. simpl.
    destruct (string_eqb k key) eqn:E.
    + apply string_eqb_true in E. subst. reflexivity.
    + destruct (first_binding key l); reflexivity.
Qed.

(** ** Fuel: a finished run is not changed by more fuel *)

Lemma LoadNode_S : forall f input,
  LoadNode (S f) input =
  let input := SkipWhitespace input in
  let c := to_char (peek input) in
  if Ascii.eqb c "[" then LoadArray f input
  else if Ascii.eqb c "{" then LoadDict f input
  else if Ascii.eqb c ch_quote then LoadString f input
  else if isdigit (char_to_int c) || Ascii.eqb c "-" then Returns (LoadNumber input)
  else if isalpha (char_to_int c) then LoadBoolOrNull input
  else Throws (ParsingError (lit "Unexpected character: " ++ [c])).
Proof. reflexivity. Qed.

Lemma LoadArray_S : forall f input,
  LoadArray (S f) input =
  let '(c, input) := get input in
  if negb (is_char c "[") then Throws (ParsingError (lit "Array should start with ["))
  else
    let input := SkipWhitespace input in
    if is_char (peek input) "]" then Returns (VArray [], snd (get input))
    else LoadArray_loop f [] input.
Proof. reflexivity. Qed.

Lemma LoadArray_loop_S : forall f result input,
  LoadArray_loop (S f) result input =
  let input := SkipWhitespace input in
  do (node, input) <- LoadNode f input;
  let result := result ++ [node] in
  let input := SkipWhitespace input in
  let '(i, input) := get input in
  let c := to_char i in
  if Ascii.eqb c "]" then Returns (VArray result, input)
  else if negb (Ascii.eqb c ",") then
    Throws (ParsingError (lit "Expected ',' or ']' in array"))
  else LoadArray_loop f result input.
Proof. reflexivity. Qed.

Lemma LoadDict_S : forall f input,
  LoadDict (S f) input =
  let '(c, input) := get input in
  if negb (is_char c "{") then Throws (ParsingError (lit "Dict should start with {"))
  else
    let input := SkipWhitespace input in
    if is_char (peek input) "}" then Returns (VDict [], snd (get input))
    else LoadDict_loop f [] input.
Proof. reflexivity. Qed.

Lemma LoadDict_loop_S : forall f result input,
  LoadDict_loop (S f) result input =
  let input := SkipWhitespace input in
  let '(q, input) := get input in
  if negb (is_char q ch_quote) then
    Throws (ParsingError (lit "Dict key should start with " ++ [ch_quote]))
  else
    do (key, input) <- LoadStringToken f input;
    let input := SkipWhitespace input in
    let '(colon, input) := get input in
    if negb (is_char colon ":") then
      Throws (ParsingError (lit "Expected ':' after dict key"))
    else
      let input := SkipWhitespace input in
      do (node, input) <- LoadNode f input;
      let result := emplace key node result in
      let input := SkipWhitespace input in
      let '(i, input) := get input in
      let c := to_char i in
      if Ascii.eqb c "}" then Returns (VDict result, input)
      else if negb (Ascii.eqb c ",") then
        Throws (ParsingError (lit "Expected ',' or '}' in dict"))
      else LoadDict_loop f result input.
Proof. reflexivity. Qed.

Lemma LoadStringToken_loop_step : forall f st r,
  LoadStringToken_loop f st = r -> r <> OutOfFuel ->
  LoadStringToken_loop (S f) st = r.
Proof.
  induction f as [|f IH]; intros st r H Hr.
  - simpl in H. congruence.
  - simpl in H. change (LoadStringToken_loop (S (S f)) st)
      with (match LoadStringToken_body st with
            | Continue st' => LoadStringToken_loop (S f) st'
            | Break r => Returns r
            | Throw e => Throws e
            end).
    destruct (LoadStringToken_body st); auto.
Qed.

Lemma LoadStringToken_step : forall f input r,
  LoadStringToken f input = r -> r <> OutOfFuel -> LoadStringToken (S f) input = r.
Proof. intros f input r. apply LoadStringToken_loop_step. Qed.

Lemma LoadString_step : forall f input r,
  LoadString f input = r -> r <> OutOfFuel -> LoadString (S f) input = r.
Proof.
  intros f input r H Hr. unfold LoadString in *.
  destruct (get input) as [c input']. destruct (negb (is_char c ch_quote)); [exact H|].
  destruct (LoadStringToken f input') as [[s i]| |] eqn:E.
  - rewrite (LoadStringToken_step _ _ _ E) by discriminate. exact H.
  - rewrite (LoadStringToken_step _ _ _ E) by discriminate. exact H.
  - simpl in H. congruence.
Qed.

Lemma mono_all : forall f : nat,
  (forall input r, LoadNode f input = r -> r <> OutOfFuel -> LoadNode (S f) input = r) /\
  (forall input r, LoadArray f input = r -> r <> OutOfFuel -> LoadArray (S f) input = r) /\
  (forall result input r, LoadArray_loop f result input = r -> r <> OutOfFuel ->
                          LoadArray_loop (S f) result input = r) /\
  (forall input r, LoadDict f input = r -> r <> OutOfFuel -> LoadDict (S f) input = r) /\
  (forall result input r, LoadDict_loop f result input = r -> r <> OutOfFuel ->
                          LoadDict_loop (S f) result input = r).

Proof.
  induction f as [|f (IHn & IHa & IHal & IHd & IHdl)].
  - repeat split; intros; simpl in *; congruence.
  - repeat split.
    + intros input r H Hr. rewrite LoadNode_S in *. cbv zeta in *.
      destruct (Ascii.eqb _ "["); [now apply IHa|].
      destruct (Ascii.eqb _ "{"); [now apply IHd|].
      destruct (Ascii.eqb _ ch_quote); [now apply LoadString_step|].
      exact H.
    + intros input r H Hr. rewrite LoadArray_S in *.
      destruct (get input) as [c input']. destruct (negb _); [exact H|]. cbv zeta in *.
      destruct (is_char _ "]"); [exact H|]. now apply IHal.
    + intros result input r H Hr. rewrite LoadArray_loop_S in *. cbv zeta in *.
      destruct (LoadNode f (SkipWhitespace input)) as [[n i]| |] eqn:E.
      * rewrite (IHn _ _ E) by discriminate. simpl in *.
        destruct (get (SkipWhitespace i)) as [c i'].
        destruct (Ascii.eqb _ "]"); [exact H|].
        destruct (negb _); [exact H|]. now apply IHal.
      * rewrite (IHn _ _ E) by discriminate. exact H.
      * simpl in H. congruence.
    + intros input r H Hr. rewrite LoadDict_S in *.
      destruct (get input) as [c input']. destruct (negb _); [exact H|]. cbv zeta in *.
      destruct (is_char _ "}"); [exact H|]. now apply IHdl.
    + intros result input r H Hr. rewrite LoadDict_loop_S in *. cbv zeta in *.
      destruct (get (SkipWhitespace input)) as [q i0].
      destruct (negb (is_char q ch_quote)); [exact H|].
      destruct (LoadStringToken f i0) as [[key i1]| |] eqn:Ek.
      * rewrite (LoadStringToken_step _ _ _ Ek) by discriminate. simpl in *.
        destruct (get (SkipWhitespace i1)) as [colon i2].
        destruct (negb (is_char colon ":")); [exact H|].
        destruct (LoadNode f (SkipWhitespace i2)) as [[n i3]| |] eqn:E.
        -- rewrite (IHn _ _ E) by discriminate. simpl in *.
           destruct (get (SkipWhitespace i3)) as [c i4].
           destruct (Ascii.eqb _ "}"); [exact H|].
           destruct (negb _); [exact H|]. now apply IHdl.
        -- rewrite (IHn _ _ E) by discriminate. exact H.
        -- simpl in H. congruence.
      * rewrite (LoadStringToken_step _ _ _ Ek) by discriminate. exact H.
      * simpl in H. congruence.
Qed.

Lemma LoadNode_mono : forall f f' input r,
  LoadNode f input = r -> r <> OutOfFuel -> (f <= f')%nat -> LoadNode f' input = r.
Proof.
  intros f f' input r H Hr Hle. induction Hle as [|f' _ IH]; [exact H|].
  now apply (proj1 (mono_all f')).
Qed.


Lemma Load_mono : forall f f' input r,
  Load f input = r -> r <> OutOfFuel -> (f <= f')%nat -> Load f' input = r.
Proof.
  intros f f' input r H Hr Hle. unfold Load in *.
  destruct (LoadNode f input) as [[n i]| |] eqn:E.
  - now rewrite (LoadNode_mono _ _ _ _ E) by (discriminate || exact Hle).
  - now rewrite (LoadNode_mono _ _ _ _ E) by (discriminate || exact Hle).
  - simpl in H. congruence.
Qed.

(** A run of [Load] is settled by one finished evaluation: with any fuel
    the parser either has not finished or gives that same outcome. *)
Lemma Load_settled : forall f input r,
  Load f input = r -> r <> OutOfFuel ->
  forall f', Load f' input = OutOfFuel \/ Load f' input = r.
Proof.
  intros f input r H Hr f'.
  destruct (Load f' input) eqn:E; [right|right|now left].
  - destruct (Nat.le_ge_cases f f') as [L|L].
    + rewrite <- E. now apply (Load_mono f).
    + rewrite <- H. symmetry. apply (Load_mono f'); [exact E | discriminate | exact L].
  - destruct (Nat.le_ge_cases f f') as [L|L].
    + rewrite <- E. now apply (Load_mono f).
    + rewrite <- H. symmetry. apply (Load_mono f'); [exact E | discriminate | exact L].
Qed.

(** ** Objects: duplicate keys and iteration order *)

(** Every object the parser returns was built from the empty map by a
    sequence of [emplace] calls. *)
Lemma LoadDict_loop_emplaces : forall f result input n rest,
  LoadDict_loop f result input = Returns (n, rest) ->
  exists l, n = VDict (fold_left (fun d kv => emplace (fst kv) (snd kv) d) l result).
Proof.
  induction f as [|f IH]; intros result input n rest H; [discriminate H|].
  rewrite LoadDict_loop_S in H. cbv zeta in H.
  destruct (get (SkipWhitespace input)) as [q i0].
  destruct (negb (is_char q ch_quote)); [discriminate H|].
  destruct (LoadStringToken f i0) as [[key i1]| |]; simpl in H; try discriminate H.
  destruct (get (SkipWhitespace i1)) as [colon i2].
  destruct (negb (is_char colon ":")); [discriminate H|].
  destruct (LoadNode f (SkipWhitespace i2)) as [[node i3]| |]; simpl in H; try discriminate H.
  destruct (get (SkipWhitespace i3)) as [c i4].
  destruct (Ascii.eqb _ "}").
  - injection H as <- <-. exists [(key, node)]. reflexivity.
  - destruct (negb _); [discriminate H|].
    apply IH in H as [l ->]. exists ((key, node) :: l). reflexivity.
Qed.

Lemma LoadDict_emplaces : forall f input n rest,
  LoadDict f input = Returns (n, rest) -> exists l, n = VDict (Dict_of_entries l).
Proof.
  intros [|f] input n rest H; [discriminate H|].
  rewrite LoadDict_S in H. destruct (get input) as [c i0].
  destruct (negb _); [discriminate H|]. cbv zeta in H.
  destruct (is_char _ "}").
  - injection H as <- <-. exists []. reflexivity.
  - apply LoadDict_loop_emplaces in H as [l ->]. exists l. reflexivity.
Qed.

(** *** Parsed values are well formed *)

Lemma well_formed_array : forall a, well_formed (VArray a) <-> Forall well_formed a.
Proof.
  induction a as [|x a IH]; simpl.
  - split; constructor.
  - simpl in IH. rewrite IH. split.
    + intros [H1 H2]. now constructor.
    + intros H. now inversion H.
Qed.

Lemma well_formed_dict : forall d,
  well_formed (VDict d) <-> sorted_dict d /\ Forall (fun kv => well_formed (snd kv)) d.
Proof.
  intros d. simpl. apply and_iff_compat_l.
  induction d as [|x d IH]; simpl.
  - split; constructor.
  - rewrite IH. split.
    + intros [H1 H2]. now constructor.
    + intros H. now inversion H.
Qed.

Lemma emplace_Forall : forall (P : std_string * Node -> Prop) key node d,
  P (key, node) -> Forall P d -> Forall P (emplace key node d).
Proof.
  intros P key node d Hp. induction d as [|[k n] d IH]; intros Hd; simpl.
  - now constructor.
  - destruct (string_ltb key k); [now constructor|].
    destruct (string_ltb k key); [|exact Hd].
    inversion Hd. constructor; auto.
Qed.

Lemma extract_int_range : forall s, int_range (extract_int s).
Proof.
  intros s. unfold extract_int. destruct (take_sign s) as [neg s1].
  destruct (take_digits s1) as [[|c ds] r]; unfold int_range, clamp, INT_MIN, INT_MAX; lia.
Qed.

Lemma LoadNumber_well_formed : forall input, well_formed (fst (LoadNumber input)).
Proof.
  intros input. unfold LoadNumber. destruct (scan_number input) as [[s b] i].
  destruct b; simpl; [exact I | apply extract_int_range].
Qed.

Lemma LoadBoolOrNull_well_formed : forall input n rest,
  LoadBoolOrNull input = Returns (n, rest) -> well_formed n.
Proof.
  intros input n rest H. unfold LoadBoolOrNull in H.
  destruct (read_alpha [] input) as [token i].
  repeat match type of H with
         | (if ?c then _ else _) = _ => destruct c
         end; try discriminate H; injection H as <- <-; exact I.
Qed.

Lemma LoadString_well_formed : forall f input n rest,
  LoadString f input = Returns (n, rest) -> well_formed n.
Proof.
  intros f input n rest H. unfold LoadString in H.
  destruct (get input) as [c i]. destruct (negb _); [discriminate H|].
  destruct (LoadStringToken f i) as [[s i']| |]; simpl in H; try discriminate H.
  injection H as <- <-. exact I.
Qed.

Lemma Load_well_formed_all : forall f : nat,
  (forall input n rest, LoadNode f input = Returns (n, rest) -> well_formed n) /\
  (forall input n rest, LoadArray f input = Returns (n, rest) -> well_formed n) /\
  (forall result input n rest,
     LoadArray_loop f result input = Returns (n, rest) ->
     Forall well_formed result -> well_formed n) /\
  (forall input n rest, LoadDict f input = Returns (n, rest) -> well_formed n) /\
  (forall result input n rest,
     LoadDict_loop f result input = Returns (n, rest) ->
     sorted_dict result -> Forall (fun kv => well_formed (snd kv)) result ->
     well_formed n).
Proof.
  induction f as [|f (IHn & IHa & IHal & IHd & IHdl)].
  - repeat split; intros; discriminate.
  - repeat split.
    + intros input n rest H. rewrite LoadNode_S in H. cbv zeta in H.
      destruct (Ascii.eqb _ "["); [now apply IHa in H|].
      destruct (Ascii.eqb _ "{"); [now apply IHd in H|].
      destruct (Ascii.eqb _ ch_quote); [now apply LoadString_well_formed in H|].
      destruct (_ || _).
      * injection H as H. change n with (fst (n, rest)). rewrite <- H.
        apply LoadNumber_well_formed.
      * destruct (isalpha _); [now apply LoadBoolOrNull_well_formed in H | discriminate H].
    + intros input n rest H. rewrite LoadArray_S in H.
      destruct (get input) as [c i]. destruct (negb _); [discriminate H|]. cbv zeta in H.
      destruct (is_char _ "]").
      * injection H as <- <-. exact I.
      * apply IHal in H; [exact H | constructor].
    + intros result input n rest H Hres. rewrite LoadArray_loop_S in H. cbv zeta in H.
      destruct (LoadNode f (SkipWhitespace input)) as [[node i]| |] eqn:E;
        simpl in H; try discriminate H.
      assert (Hres' : Forall well_formed (result ++ [node])).
      { apply Forall_app. split; [exact Hres|]. constructor; [|constructor]. eauto. }
      destruct (get (SkipWhitespace i)) as [c i'].
      destruct (Ascii.eqb _ "]").
      * injection H as <- <-. now apply well_formed_array.
      * destruct (negb _); [discriminate H|]. eauto.
    + intros input n rest H. rewrite LoadDict_S in H.
      destruct (get input) as [c i]. destruct (negb _); [discriminate H|]. cbv zeta in H.
      destruct (is_char _ "}").
      * injection H as <- <-. apply well_formed_dict. split; constructor.
      * apply IHdl in H; [exact H | constructor | constructor].
    + intros result input n rest H Hs Hres. rewrite LoadDict_loop_S in H. cbv zeta in H.
      destruct (get (SkipWhitespace input)) as [q i0].
      destruct (negb (is_char q ch_quote)); [discriminate H|].
      destruct (LoadStringToken f i0) as [[key i1]| |]; simpl in H; try discriminate H.
      destruct (get (SkipWhitespace i1)) as [colon i2].
      destruct (negb (is_char colon ":")); [discriminate H|].
      destruct (LoadNode f (SkipWhitespace i2)) as [[node i3]| |] eqn:E;
        simpl in H; try discriminate H.
      assert (Hs' : sorted_dict (emplace key node result)) by now apply emplace_sorted.
      assert (Hres' : Forall (fun kv => well_formed (snd kv)) (emplace key node result)).
      { apply emplace_Forall; [simpl; eauto | exact Hres]. }
      destruct (get (SkipWhitespace i3)) as [c i4].
      destruct (Ascii.eqb _ "}").
      * injection H as <- <-. now apply well_formed_dict.
      * destruct (negb _); [discriminate H|]. eauto.
Qed.

Lemma LoadNode_well_formed : forall f input n rest,
  LoadNode f input = Returns (n, rest) -> well_formed n.
Proof. intros f. exact (proj1 (Load_well_formed_all f)). Qed.

(** *** Iteration order does not depend on insertion order *)

Lemma find_head_absent : forall k d,
  Forall (string_lt k) (keys d) -> find k d = None.
Proof.
  intros k d H. apply find_none_not_in. intros Hin.
  rewrite Forall_forall in H. apply H in Hin. unfold string_lt in Hin.
  now rewrite string_ltb_irrefl in Hin.
Qed.

Lemma find_below_head : forall k k0 n0 d,
  string_lt k k0 -> Forall (string_lt k0) (keys d) -> find k ((k0, n0) :: d) = None.
Proof.
  intros k k0 n0 d Hlt Hall. apply find_head_absent. simpl. constructor; [exact Hlt|].
  eapply Forall_impl; [|exact Hall]. intros a Ha. exact (string_ltb_trans _ _ _ Hlt Ha).
Qed.

(** Two sorted maps with the same bindings are the same sequence. *)
Lemma sorted_dict_ext : forall d1 d2,
  sorted_dict d1 -> sorted_dict d2 ->
  (forall k, find k d1 = find k d2) -> d1 = d2.
Proof.
  induction d1 as [|[k1 n1] d1 IH]; intros [|[k2 n2] d2] H1 H2 Hf.
  - reflexivity.
  - specialize (Hf k2). unfold find in Hf. simpl in Hf.
    rewrite string_eqb_refl in Hf. discriminate Hf.
  - specialize (Hf k1). unfold find in Hf. simpl in Hf.
    rewrite string_eqb_refl in Hf. discriminate Hf.
  - apply sorted_dict_cons in H1 as [S1 A1]. apply sorted_dict_cons in H2 as [S2 A2].
    assert (Hk : k1 = k2).
    { apply string_ltb_total.
      - destruct (string_ltb k1 k2) eqn:E; [|reflexivity].
        pose proof (Hf k1) as F. rewrite (find_below_head k1 k2 n2 d2 E A2) in F.
        unfold find in F. simpl in F. rewrite string_eqb_refl in F. discriminate F.
      - destruct (string_ltb k2 k1) eqn:E; [|reflexivity].
        pose proof (Hf k2) as F. rewrite (find_below_head k2 k1 n1 d1 E A1) in F.
        unfold find in F. simpl in F. rewrite string_eqb_refl in F. discriminate F. }
    subst k2.
    assert (Hn : n1 = n2).
    { pose proof (Hf k1) as F. unfold find in F. simpl in F.
      rewrite string_eqb_refl in F. congruence. }
    subst n2. f_equal. apply IH; trivial.
    intros k. destruct (string_eqb k1 k) eqn:E.
    + apply string_eqb_true in E. subst k.
      now rewrite !find_head_absent.
    + pose proof (Hf k) as F. unfold find in F. simpl in F. now rewrite E in F.
Qed.

Lemma first_binding_none : forall k l, ~ In k (List.map fst l) -> first_binding k l = None.
Proof. intros k l. exact (proj2 (find_none_not_in k l)). Qed.

Lemma first_binding_perm : forall l l',
  Permutation l l' -> NoDup (List.map fst l) ->
  forall k, first_binding k l = first_binding k l'.
Proof.
  induction 1 as [|[k0 n0] l l' HP IH|[k1 n1] [k2 n2] l|l l' l'' HP1 IH1 HP2 IH2];
    intros Hnd k.
  - reflexivity.
  - simpl. inversion Hnd. destruct (string_eqb k0 k); [reflexivity | auto].
  - simpl. simpl in Hnd. inversion Hnd as [|? ? Hnot _]. subst.
    destruct (string_eqb k2 k) eqn:E2, (string_eqb k1 k) eqn:E1; try reflexivity.
    apply string_eqb_true in E1, E2. subst. exfalso. apply Hnot. now left.
  - rewrite IH1 by exact Hnd. apply IH2.
    eapply Permutation_NoDup; [|exact Hnd]. now apply Permutation_map.
Qed.

Lemma Dict_of_entries_perm : forall l l',
  NoDup (keys l) -> Permutation l l' -> Dict_of_entries l = Dict_of_entries l'.
Proof.
  intros l l' Hnd HP. apply sorted_dict_ext; try apply Dict_of_entries_sorted.
  intros k. rewrite !find_Dict_of_entries. now apply first_binding_perm.
Qed.

(** *** The printer walks the map in iteration order *)

Lemma PrintDict_items_cons : forall P k n d first indent,
  PrintDict_items P ((k, n) :: d) first indent =
  (if first then [] else [","%char]) ++
  [ch_newline] ++ spaces (indent + 2) ++ PrintString k ++ lit ": " ++
  P n (indent + 2)%nat ++ PrintDict_items P d false indent.
Proof. reflexivity. Qed.

Lemma PrintDict_items_app : forall P d1 d2 first indent,
  PrintDict_items P (d1 ++ d2) first indent =
  PrintDict_items P d1 first indent ++
  PrintDict_items P d2 (match d1 with [] => first | _ :: _ => false end) indent.
Proof.
  intros P d1. induction d1 as [|[k n] d1 IH]; intros d2 first indent.
  - reflexivity.
  - cbn [app]. rewrite !PrintDict_items_cons, IH.
    repeat rewrite <- app_assoc. destruct d1; reflexivity.
Qed.

Lemma sorted_dict_split : forall d1 k n d2,
  sorted_dict (d1 ++ (k, n) :: d2) ->
  Forall (fun k' => string_lt k' k) (keys d1) /\ Forall (string_lt k) (keys d2).
Proof.
  induction d1 as [|[k1 n1] d1 IH]; intros k n d2 H.
  - split; [constructor|]. now apply sorted_dict_cons in H.
  - simpl in H. apply sorted_dict_cons in H as [Hs Hall].
    destruct (IH _ _ _ Hs) as [I1 I2]. split; [|exact I2].
    simpl. constructor; [|exact I1].
    rewrite Forall_forall in Hall. apply Hall. unfold keys. rewrite map_app.
    apply in_or_app. right. now left.
Qed.

(** [string_lt] is the lexicographic order: the strings differ first at a
    position where the left one has the smaller character, or the left one
    is a proper prefix of the right one. *)
Lemma string_lt_lexicographic : forall a b,
  string_lt a b <->
  (exists p x a' y b', a = p ++ x :: a' /\ b = p ++ y :: b'
                       /\ to_int_type x < to_int_type y)
  \/ (exists y b', b = a ++ y :: b').
Proof.
  unfold string_lt. induction a as [|x a IH]; intros [|y b]; simpl.
  - split; [discriminate|]. intros [(p & x & a' & y & b' & E & _)|(y & b' & E)].
    + destruct p; discriminate.
    + discriminate.
  - split; [|reflexivity]. intros _. right. now exists y, b.
  - split; [discriminate|]. intros [(p & x' & a' & y & b' & _ & E & _)|(y & b' & E)].
    + destruct p; discriminate.
    + discriminate.
  - destruct (Z.ltb_spec (to_int_type x) (to_int_type y)) as [L|L].
    + split; [|reflexivity]. intros _. left. now exists [], x, a, y, b.
    + destruct (Z.ltb_spec (to_int_type y) (to_int_type x)) as [L'|L'].
      * split; [discriminate|].
        intros [(p & x' & a' & y' & b' & E1 & E2 & Hlt)|(y' & b' & E)].
        -- destruct p as [|c p]; simpl in *.
           ++ injection E1 as -> ->. injection E2 as -> ->. lia.
           ++ injection E1 as -> ->. injection E2 as -> ->. lia.
        -- injection E as -> _. lia.
      * assert (x = y) by (apply to_int_type_inj; lia). subst y.
        rewrite IH. split.
        -- intros [(p & x' & a' & y' & b' & -> & -> & Hlt)|(y' & b' & ->)].
           ++ left. now exists (x :: p), x', a', y', b'.
           ++ right. now exists y', b'.
        -- intros [(p & x' & a' & y' & b' & E1 & E2 & Hlt)|(y' & b' & E)].
           ++ destruct p as [|c p]; simpl in *.
              ** injection E1 as -> ->. injection E2 as -> ->. lia.
              ** injection E1 as -> ->. injection E2 as ->.
                 left. now exists p, x', a', y', b'.
           ++ injection E as ->. right. now exists y', b'.
Qed.

(** ** String literals *)

Lemma LoadStringToken_loop_S : forall f st,
  LoadStringToken_loop (S f) st =
  match LoadStringToken_body st with
  | Continue st' => LoadStringToken_loop f st'
  | Break r => Returns r
  | Throw e => Throws e
  end.
Proof. reflexivity. Qed.

Lemma body_eof : forall line,
  LoadStringToken_body {| ss_input := []; ss_line := line; ss_escape := false |}
  = Continue {| ss_input := []; ss_line := line ++ [ch_eof]; ss_escape := false |}.
Proof. reflexivity. Qed.

Lemma body_plain : forall c input line,
  plain_char c = true ->
  LoadStringToken_body {| ss_input := c :: input; ss_line := line; ss_escape := false |}
  = Continue {| ss_input := input; ss_line := line ++ [c]; ss_escape := false |}.
Proof.
  intros c input line H. unfold plain_char in H.
  apply andb_true_iff in H as [H1 H2]. apply negb_true_iff in H1, H2.
  unfold LoadStringToken_body. cbn [ss_input ss_line ss_escape get].
  rewrite to_char_to_int_type, H1, H2. reflexivity.
Qed.

Lemma body_backslash : forall input line,
  LoadStringToken_body
    {| ss_input := ch_backslash :: input; ss_line := line; ss_escape := false |}
  = Continue {| ss_input := input; ss_line := line; ss_escape := true |}.
Proof. reflexivity. Qed.

Lemma body_quote : forall input line,
  LoadStringToken_body
    {| ss_input := ch_quote :: input; ss_line := line; ss_escape := false |}
  = Break (line, input).
Proof. reflexivity. Qed.

Lemma body_escaped : forall e input line,
  LoadStringToken_body {| ss_input := e :: input; ss_line := line; ss_escape := true |}
  = match unescape e with
    | Some c => Continue {| ss_input := input; ss_line := line ++ [c]; ss_escape := false |}
    | None => Throw (ParsingError (lit "Invalid escape sequence"))
    end.
Proof.
  intros e input line. unfold LoadStringToken_body.
  cbn [ss_input ss_line ss_escape get]. rewrite to_char_to_int_type.
  cbn [negb]. now rewrite !andb_false_r.
Qed.

Lemma body_escaped_eof : forall line,
  LoadStringToken_body {| ss_input := []; ss_line := line; ss_escape := true |}
  = Throw (ParsingError (lit "Invalid escape sequence")).
Proof. reflexivity. Qed.

(** At the end of the stream, outside an escape, the loop never leaves. *)
Lemma LoadStringToken_loop_eof : forall f line,
  LoadStringToken_loop f {| ss_input := []; ss_line := line; ss_escape := false |}
  = OutOfFuel.
Proof.
  induction f as [|f IH]; intros line; [reflexivity|].
  rewrite LoadStringToken_loop_S, body_eof. apply IH.
Qed.

Lemma LoadStringToken_loop_plain : forall s f line,
  forallb plain_char s = true ->
  LoadStringToken_loop f {| ss_input := s; ss_line := line; ss_escape := false |}
  = OutOfFuel.
Proof.
  induction s as [|c s IH]; intros f line H.
  - apply LoadStringToken_loop_eof.
  - simpl in H. apply andb_true_iff in H as [Hc Hs].
    destruct f as [|f]; [reflexivity|].
    rewrite LoadStringToken_loop_S, body_plain by exact Hc. now apply IH.
Qed.

Lemma Load_unterminated : forall s fuel,
  forallb plain_char s = true -> Load fuel (ch_quote :: s) = OutOfFuel.
Proof.
  intros s fuel H. unfold Load. destruct fuel as [|f]; [reflexivity|].
  rewrite LoadNode_S. cbv zeta.
  change (SkipWhitespace (ch_quote :: s)) with (ch_quote :: s).
  change (to_char (peek (ch_quote :: s))) with ch_quote.
  cbv iota beta delta [Ascii.eqb ch_quote Bool.eqb].
  fold ch_quote. unfold LoadString. cbn [get].
  change (negb (is_char (to_int_type ch_quote) ch_quote)) with false. cbv iota.
  unfold LoadStringToken. now rewrite LoadStringToken_loop_plain.
Qed.

(** C3: evaluation at the failing input.  On the string literal that is
    never closed, the scanner reads the end of the stream as the character
    0xFF, appends it and goes round again; with any amount of fuel [Load]
    has neither returned nor thrown. *)
Theorem unterminated_string_never_finishes :
  (forall line,
     LoadStringToken_body {| ss_input := []; ss_line := line; ss_escape := false |}
     = Continue {| ss_input := []; ss_line := line ++ [ch_eof]; ss_escape := false |}) /\
  (forall fuel, Load fuel text_unterminated = OutOfFuel).
Proof.
  split; [exact body_eof|].
  intros fuel. apply Load_unterminated. reflexivity.
Qed.

(** *** Escapes: decoding and encoding are inverse *)

Lemma unescape_Some : forall e c,
  unescape e = Some c <->
  (e = "n"%char /\ c = ch_newline) \/ (e = "r"%char /\ c = ch_return)
  \/ (e = "t"%char /\ c = ch_tab) \/ (e = ch_quote /\ c = ch_quote)
  \/ (e = ch_backslash /\ c = ch_backslash).
Proof.
  intros e c. unfold unescape.
  destruct (Ascii.eqb_spec e "n") as [->|N1].
  { split; [intros H; injection H as <-; tauto|].
    intros [[_ ->]|[[E _]|[[E _]|[[E _]|[E _]]]]]; try reflexivity; discriminate E. }
  destruct (Ascii.eqb_spec e "r") as [->|N2].
  { split; [intros H; injection H as <-; tauto|].
    intros [[E _]|[[_ ->]|[[E _]|[[E _]|[E _]]]]]; try reflexivity; discriminate E. }
  destruct (Ascii.eqb_spec e "t") as [->|N3].
  { split; [intros H; injection H as <-; tauto|].
    intros [[E _]|[[E _]|[[_ ->]|[[E _]|[E _]]]]]; try reflexivity; discriminate E. }
  destruct (Ascii.eqb_spec e ch_quote) as [->|N4].
  { split; [intros H; injection H as <-; tauto|].
    intros [[E _]|[[E _]|[[E _]|[[_ ->]|[E _]]]]]; try reflexivity; discriminate E. }
  destruct (Ascii.eqb_spec e ch_backslash) as [->|N5].
  { split; [intros H; injection H as <-; tauto|].
    intros [[E _]|[[E _]|[[E _]|[[E _]|[_ ->]]]]]; try reflexivity; discriminate E. }
  split; [discriminate|]. intros [[E _]|[[E _]|[[E _]|[[E _]|[E _]]]]]; contradiction.
Qed.

Lemma PrintString_char_cases : forall c,
  (c = ch_newline /\ PrintString_char c = [ch_backslash; "n"%char])
  \/ (c = ch_return /\ PrintString_char c = [ch_backslash; "r"%char])
  \/ (c = ch_tab /\ PrintString_char c = [ch_backslash; "t"%char])
  \/ (c = ch_quote /\ PrintString_char c = [ch_backslash; ch_quote])
  \/ (c = ch_backslash /\ PrintString_char c = [ch_backslash; ch_backslash])
  \/ (c <> ch_newline /\ c <> ch_return /\ c <> ch_tab /\ plain_char c = true
      /\ PrintString_char c = [c]).
Proof.
  intros c. unfold PrintString_char, plain_char.
  destruct (Ascii.eqb_spec c ch_newline) as [->|N1]; [tauto|].
  destruct (Ascii.eqb_spec c ch_return) as [->|N2]; [tauto|].
  destruct (Ascii.eqb_spec c ch_tab) as [->|N3]; [tauto|].
  destruct (Ascii.eqb_spec c ch_quote) as [->|N4]; [tauto|].
  destruct (Ascii.eqb_spec c ch_backslash) as [->|N5]; [tauto|].
  repeat right. repeat split; assumption.
Qed.

(** The printer writes a backslash and [e] for [c] exactly when the parser
    decodes the escaped [e] to [c]. *)
Lemma PrintString_char_unescape : forall c e,
  PrintString_char c = [ch_backslash; e] <-> unescape e = Some c.
Proof.
  intros c e. rewrite unescape_Some.
  destruct (PrintString_char_cases c)
    as [[-> H]|[[-> H]|[[-> H]|[[-> H]|[[-> H]|(N1 & N2 & N3 & Hp & H)]]]]];
    rewrite H; (split; [intros E | intros E]).
  1,3,5,7,9: injection E as <-; tauto.
  1-5: destruct E as [[-> E]|[[-> E]|[[-> E]|[[-> E]|[-> E]]]]];
       try reflexivity; discriminate E.
  - discriminate E.
  - unfold plain_char in Hp. apply andb_true_iff in Hp as [Hq Hb].
    apply negb_true_iff in Hq, Hb.
    destruct E as [[_ ->]|[[_ ->]|[[_ ->]|[[_ ->]|[_ ->]]]]];
      try contradiction; discriminate.
Qed.

(** Scanning the printed form of a string, up to and with the closing
    quote, gives the string back. *)
Lemma LoadStringToken_loop_printed : forall s line rest f,
  (length (flat_map PrintString_char s) < f)%nat ->
  LoadStringToken_loop f
    {| ss_input := flat_map PrintString_char s ++ ch_quote :: rest;
       ss_line := line; ss_escape := false |}
  = Returns (line ++ s, rest).
Proof.
  induction s as [|c s IH]; intros line rest f Hf.
  - destruct f as [|f]; [simpl in Hf; lia|].
    rewrite LoadStringToken_loop_S. cbn [flat_map app]. rewrite body_quote.
    now rewrite app_nil_r.
  - cbn [flat_map] in *. rewrite length_app in Hf. rewrite <- app_assoc.
    assert (Hesc : forall e, PrintString_char c = [ch_backslash; e] ->
              LoadStringToken_loop f
                {| ss_input := [ch_backslash; e]
                               ++ flat_map PrintString_char s ++ ch_quote :: rest;
                   ss_line := line; ss_escape := false |}
              = Returns (line ++ c :: s, rest)).
    { intros e He. rewrite He in Hf. cbn [length] in Hf.
      destruct f as [|[|f]]; try lia. cbn [app].
      rewrite LoadStringToken_loop_S, body_backslash.
      rewrite LoadStringToken_loop_S, body_escaped.
      apply PrintString_char_unescape in He. rewrite He.
      rewrite IH by lia. now rewrite <- app_assoc. }
    destruct (PrintString_char_cases c)
      as [[E H]|[[E H]|[[E H]|[[E H]|[[E H]|(N1 & N2 & N3 & Hp & H)]]]]];
      try (rewrite H at 1; apply Hesc; exact H).
    rewrite H in *. cbn [length] in Hf. destruct f as [|f]; [lia|]. cbn [app].
    rewrite LoadStringToken_loop_S, body_plain by exact Hp.
    rewrite IH by lia. now rewrite <- app_assoc.
Qed.

Lemma LoadStringToken_printed : forall s rest f,
  (length (flat_map PrintString_char s) < f)%nat ->
  LoadStringToken f (flat_map PrintString_char s ++ ch_quote :: rest) = Returns (s, rest).
Proof.
  intros s rest f Hf. unfold LoadStringToken.
  now rewrite LoadStringToken_loop_printed.
Qed.

(** Scanning the printed form of a string, with anything after it, brings
    the loop to the state that holds the string, outside an escape. *)
Lemma LoadStringToken_loop_prefix : forall s line tail f,
  LoadStringToken_loop (length (flat_map PrintString_char s) + f)
    {| ss_input := flat_map PrintString_char s ++ tail;
       ss_line := line; ss_escape := false |}
  = LoadStringToken_loop f
      {| ss_input := tail; ss_line := line ++ s; ss_escape := false |}.
Proof.
  induction s as [|c s IH]; intros line tail f.
  - cbn [flat_map app length Nat.add]. now rewrite app_nil_r.
  - cbn [flat_map]. rewrite length_app, <- app_assoc.
    assert (Hesc : forall e, PrintString_char c = [ch_backslash; e] ->
              LoadStringToken_loop
                (length [ch_backslash; e] + length (flat_map PrintString_char s) + f)
                {| ss_input := [ch_backslash; e] ++ flat_map PrintString_char s ++ tail;
                   ss_line := line; ss_escape := false |}
              = LoadStringToken_loop f
                  {| ss_input := tail; ss_line := line ++ c :: s; ss_escape := false |}).
    { intros e He. cbn [length app Nat.add].
      rewrite LoadStringToken_loop_S, body_backslash.
      rewrite LoadStringToken_loop_S, body_escaped.
      apply PrintString_char_unescape in He. rewrite He.
      rewrite IH. now rewrite <- app_assoc. }
    destruct (PrintString_char_cases c)
      as [[E H]|[[E H]|[[E H]|[[E H]|[[E H]|(N1 & N2 & N3 & Hp & H)]]]]];
      try (rewrite H; apply Hesc; exact H).
    rewrite H. cbn [length app Nat.add].
    rewrite LoadStringToken_loop_S, body_plain by exact Hp.
    rewrite IH. now rewrite <- app_assoc.
Qed.

Lemma LoadStringToken_bad_escape : forall s c rest k,
  unescape c = None ->
  LoadStringToken (S (S (length (flat_map PrintString_char s))) + k)
    (flat_map PrintString_char s ++ ch_backslash :: c :: rest)
  = Throws (ParsingError (lit "Invalid escape sequence")).
Proof.
  intros s c rest k H. unfold LoadStringToken.
  replace (S (S (length (flat_map PrintString_char s))) + k)%nat
    with (length (flat_map PrintString_char s) + S (S k))%nat by lia.
  rewrite LoadStringToken_loop_prefix.
  rewrite LoadStringToken_loop_S, body_backslash.
  rewrite LoadStringToken_loop_S, body_escaped. now rewrite H.
Qed.

Lemma LoadStringToken_cut_escape : forall s k,
  LoadStringToken (S (S (length (flat_map PrintString_char s))) + k)
    (flat_map PrintString_char s ++ [ch_backslash])
  = Throws (ParsingError (lit "Invalid escape sequence")).
Proof.
  intros s k. unfold LoadStringToken.
  replace (S (S (length (flat_map PrintString_char s))) + k)%nat
    with (length (flat_map PrintString_char s) + S (S k))%nat by lia.
  rewrite LoadStringToken_loop_prefix.
  rewrite LoadStringToken_loop_S, body_backslash.
  now rewrite LoadStringToken_loop_S, body_escaped_eof.
Qed.

(** [Load] on a text that opens with a quote is the scan of what follows. *)
Lemma Load_string_literal : forall f body,
  Load (S f) (ch_quote :: body) =
  do (s, rest) <- LoadStringToken f body;
  Returns (Document_of_Node (VString s), rest).
Proof.
  intros f body. unfold Load. rewrite LoadNode_S. cbv zeta.
  change (SkipWhitespace (ch_quote :: body)) with (ch_quote :: body).
  change (to_char (peek (ch_quote :: body))) with ch_quote.
  cbv iota beta delta [Ascii.eqb ch_quote Bool.eqb].
  fold ch_quote. unfold LoadString. cbn [get].
  change (negb (is_char (to_int_type ch_quote) ch_quote)) with false. cbv iota.
  destruct (LoadStringToken f body) as [[s rest]| |]; reflexivity.
Qed.

(** C5: the text of the string literal with an escaped line feed and an
    escaped quote parses to the five characters a, line feed, b, quote, c,
    and printing that string gives the text back.  The printer writes a
    two-character escape for a character exactly when the parser decodes
    that escape to it, which happens for n, r, t, the quote and the
    backslash only; every other character is printed as it is.  An escaped
    character outside these five makes the scanner throw [ParsingError],
    wherever in the literal it stands, and so does a backslash that the end
    of the stream cuts off; the error leaves [Load] as it is.  Scanning the
    printed form of any string gives the string back. *)
Theorem escape_fidelity :
  (forall k, Load (9 + k) text_escape
             = Returns (Document_of_Node (VString escape_content), [])) /\
  length escape_body = 7%nat /\ length escape_content = 5%nat /\
  Print (Document_of_Node (VString escape_content)) = text_escape /\
  (forall e c, unescape e = Some c <->
     (e = "n"%char /\ c = ch_newline) \/ (e = "r"%char /\ c = ch_return)
     \/ (e = "t"%char /\ c = ch_tab) \/ (e = ch_quote /\ c = ch_quote)
     \/ (e = ch_backslash /\ c = ch_backslash)) /\
  (forall c e, PrintString_char c = [ch_backslash; e] <-> unescape e = Some c) /\
  (forall c, (forall e, unescape e <> Some c) -> PrintString_char c = [c]) /\
  (forall s c rest k, unescape c = None ->
     LoadStringToken (S (S (length (flat_map PrintString_char s))) + k)
       (flat_map PrintString_char s ++ ch_backslash :: c :: rest)
     = Throws (ParsingError (lit "Invalid escape sequence"))) /\
  (forall s k,
     LoadStringToken (S (S (length (flat_map PrintString_char s))) + k)
       (flat_map PrintString_char s ++ [ch_backslash])
     = Throws (ParsingError (lit "Invalid escape sequence"))) /\
  (forall s c rest k, unescape c = None ->
     Load (S (S (S (length (flat_map PrintString_char s)))) + k)
       (ch_quote :: flat_map PrintString_char s ++ ch_backslash :: c :: rest)
     = Throws (ParsingError (lit "Invalid escape sequence"))) /\
  (forall s k,
     Load (S (S (S (length (flat_map PrintString_char s)))) + k)
       (ch_quote :: flat_map PrintString_char s ++ [ch_backslash])
     = Throws (ParsingError (lit "Invalid escape sequence"))) /\
  (forall s rest k,
     LoadStringToken (S (length (flat_map PrintString_char s)) + k)
       (flat_map PrintString_char s ++ ch_quote :: rest) = Returns (s, rest)).
Proof.
  split.
  { intros k. apply (Load_mono 9); [vm_compute; reflexivity | discriminate | lia]. }
  split; [reflexivity|]. split; [reflexivity|]. split; [reflexivity|].
  split; [exact unescape_Some|]. split; [exact PrintString_char_unescape|]. split.
  { intros c H.
    destruct (PrintString_char_cases c)
      as [[E P]|[[E P]|[[E P]|[[E P]|[[E P]|(_ & _ & _ & _ & P)]]]]]; [..|exact P];
      apply PrintString_char_unescape in P; now apply H in P. }
  split; [exact LoadStringToken_bad_escape|].
  split; [exact LoadStringToken_cut_escape|]. split.
  { intros s c rest k H.
    change (S (S (S (length (flat_map PrintString_char s)))) + k)%nat
      with (S (S (S (length (flat_map PrintString_char s))) + k)).
    rewrite Load_string_literal.
    now rewrite (LoadStringToken_bad_escape s c rest k H). }
  split.
  { intros s k.
    change (S (S (S (length (flat_map PrintString_char s)))) + k)%nat
      with (S (S (S (length (flat_map PrintString_char s))) + k)).
    rewrite Load_string_literal.
    now rewrite (LoadStringToken_cut_escape s k). }
  intros s rest k. apply LoadStringToken_printed. lia.
Qed.

Lemma escape_fidelity_witness :
  unescape "u"%char = None /\
  LoadStringToken (S (S (length (flat_map PrintString_char escape_content))) + 0)
    (flat_map PrintString_char escape_content
     ++ ch_backslash :: "u"%char :: lit "0041")
  = Throws (ParsingError (lit "Invalid escape sequence")).
Proof.
  assert (H : unescape "u"%char = None) by reflexivity.
  split; [exact H|].
  exact (proj1 (proj2 (proj2 (proj2 (proj2 (proj2 (proj2 (proj2 escape_fidelity)))))))
           escape_content "u"%char (lit "0041") 0%nat H).
Defined.

(** ** Dispatch: white space, numbers, unexpected characters *)

Lemma isspace_c_locale : forall c, isspace (to_int_type c) = c_locale_whitespace c.
Proof. intros [[] [] [] [] [] [] [] []]; reflexivity. Qed.

Lemma SkipWhitespace_spec : forall input,
  exists ws, input = ws ++ SkipWhitespace input
             /\ forallb c_locale_whitespace ws = true
             /\ isspace (peek (SkipWhitespace input)) = false.
Proof.
  induction input as [|c input (ws & E & Hws & Hp)].
  - exists []. repeat split.
  - simpl. destruct (isspace (to_int_type c)) eqn:Hc.
    + exists (c :: ws). split; [simpl; now f_equal|]. split; [|exact Hp].
      simpl. now rewrite <- isspace_c_locale, Hc.
    + exists []. repeat split. exact Hc.
Qed.

Lemma number_start_dispatch : forall c,
  isdigit (char_to_int c) || Ascii.eqb c "-" = true ->
  Ascii.eqb c "[" = false /\ Ascii.eqb c "{" = false /\ Ascii.eqb c ch_quote = false.
Proof.
  intros [[] [] [] [] [] [] [] []]; vm_compute; intros H;
    try discriminate H; repeat split.
Qed.

Lemma LoadNode_number : forall fuel input,
  (let c := to_char (peek (SkipWhitespace input)) in
   isdigit (char_to_int c) || Ascii.eqb c "-" = true) ->
  LoadNode (S fuel) input = Returns (LoadNumber (SkipWhitespace input)).
Proof.
  intros fuel input H. cbv zeta in H. rewrite LoadNode_S. cbv zeta.
  destruct (number_start_dispatch _ H) as (H1 & H2 & H3).
  now rewrite H1, H2, H3, H.
Qed.

Lemma LoadNumber_is_number : forall input,
  IsInt (fst (LoadNumber input)) || IsPureDouble (fst (LoadNumber input)) = true.
Proof.
  intros input. unfold LoadNumber. destruct (scan_number input) as [[s b] i].
  destruct b; reflexivity.
Qed.

(** The claim C4 fails on its own examples: a lone minus sign parses to the
    Integer 0 and the text 01- to the Integer 1 with the minus left unread;
    no amount of fuel makes either parse throw. *)
Lemma malformed_numbers_are_accepted :
  Load 1 (lit "-") = Returns (Document_of_Node (VInt 0), []) /\
  Load 1 (lit "01-") = Returns (Document_of_Node (VInt 1), lit "-") /\
  ~ (exists fuel e, Load fuel (lit "-") = Throws e) /\
  ~ (exists fuel e, Load fuel (lit "01-") = Throws e).
Proof.
  assert (H1 : Load 1 (lit "-") = Returns (Document_of_Node (VInt 0), []))
    by reflexivity.
  assert (H2 : Load 1 (lit "01-") = Returns (Document_of_Node (VInt 1), lit "-"))
    by reflexivity.
  split; [exact H1|]. split; [exact H2|]. split.
  - intros (fuel & e & H).
    destruct (Load_settled _ _ _ H1 ltac:(discriminate) fuel) as [E|E];
      rewrite E in H; discriminate H.
  - intros (fuel & e & H).
    destruct (Load_settled _ _ _ H2 ltac:(discriminate) fuel) as [E|E];
      rewrite E in H; discriminate H.
Qed.

(** C4, amended: [LoadNumber] has no failure path.  Whenever the lookahead
    is a digit or a minus sign, [LoadNode] returns what [LoadNumber] built,
    an Integer or a Double; a lexeme the conversion cannot read yields 0 (a
    lone minus sign parses to the Integer 0), one out of range yields the
    nearest bound, and the text 01- parses to the Integer 1 with the minus
    sign left in the stream. *)
Theorem LoadNumber_never_throws :
  (forall fuel input,
     (let c := to_char (peek (SkipWhitespace input)) in
      isdigit (char_to_int c) || Ascii.eqb c "-" = true) ->
     LoadNode (S fuel) input = Returns (LoadNumber (SkipWhitespace input))) /\
  (forall input,
     IsInt (fst (LoadNumber input)) || IsPureDouble (fst (LoadNumber input)) = true) /\
  extract_int (lit "-") = 0 /\
  extract_int (lit "99999999999") = INT_MAX /\
  Double.extract (lit "-.") = Double.zero /\
  (forall k, Load (1 + k) (lit "-") = Returns (Document_of_Node (VInt 0), [])) /\
  (forall k, Load (1 + k) (lit "01-") = Returns (Document_of_Node (VInt 1), lit "-")).
Proof.
  split; [exact LoadNode_number|]. split; [exact LoadNumber_is_number|].
  split; [reflexivity|]. split; [reflexivity|]. split; [reflexivity|]. split.
  - intros k. apply (Load_mono 1); [reflexivity | discriminate | lia].
  - intros k. apply (Load_mono 1); [reflexivity | discriminate | lia].
Qed.

Lemma LoadNumber_never_throws_witness :
  LoadNode 1 (lit " -x") = Returns (VInt 0, lit "x").
Proof.
  assert (H : let c := to_char (peek (SkipWhitespace (lit " -x"))) in
              isdigit (char_to_int c) || Ascii.eqb c "-" = true) by reflexivity.
  exact (proj1 LoadNumber_never_throws 0%nat (lit " -x") H).
Defined.

Lemma LoadNode_unexpected : forall fuel input,
  starts_value (to_char (peek (SkipWhitespace input))) = false ->
  LoadNode (S fuel) input
  = Throws (ParsingError (lit "Unexpected character: "
                          ++ [to_char (peek (SkipWhitespace input))])).
Proof.
  intros fuel input H. rewrite LoadNode_S. cbv zeta. unfold starts_value in H.
  repeat (apply orb_false_iff in H as [H ?]).
  repeat match goal with E : _ = false |- _ => rewrite E; clear E end.
  reflexivity.
Qed.

(** The claim C9 fails for the form feed (and likewise the vertical tab):
    it is not one of the four characters listed and starts no value, yet in
    a dispatch position it is skipped and the parse goes on. *)
Lemma form_feed_is_skipped :
  spec_whitespace ch_formfeed = false /\
  starts_value ch_formfeed = false /\
  SkipWhitespace (ch_formfeed :: lit "1") = lit "1" /\
  LoadNode 1 (ch_formfeed :: lit "1") = Returns (VInt 1, []) /\
  ~ (forall c rest fuel,
       spec_whitespace c = false -> starts_value c = false ->
       exists what, LoadNode (S fuel) (c :: rest) = Throws (ParsingError what)).
Proof.
  repeat split; try reflexivity.
  intros H. destruct (H ch_formfeed (lit "1") 0%nat eq_refl eq_refl) as [what E].
  discriminate E.
Qed.

(** C9, amended: before dispatching, the parser skips the characters that
    [isspace] accepts, which in the C locale are six: space, horizontal tab,
    line feed, vertical tab, form feed and carriage return.  It skips all of
    them and stops at the first other character; when that character (or the
    end of the stream, read as 0xFF) is not a bracket, a brace, a quote, a
    digit, a minus sign or a letter, [LoadNode] throws [ParsingError] with
    the message naming the unexpected character. *)
Theorem whitespace_is_isspace :
  (forall c, isspace (to_int_type c) = c_locale_whitespace c) /\
  (forall c, spec_whitespace c = true -> c_locale_whitespace c = true) /\
  (forall input,
     exists ws, input = ws ++ SkipWhitespace input
                /\ forallb c_locale_whitespace ws = true
                /\ isspace (peek (SkipWhitespace input)) = false) /\
  (forall fuel input,
     starts_value (to_char (peek (SkipWhitespace input))) = false ->
     LoadNode (S fuel) input
     = Throws (ParsingError (lit "Unexpected character: "
                             ++ [to_char (peek (SkipWhitespace input))]))).
Proof.
  split; [exact isspace_c_locale|]. split.
  { intros [[] [] [] [] [] [] [] []]; vm_compute; intros H;
      try discriminate H; reflexivity. }
  split; [exact SkipWhitespace_spec | exact LoadNode_unexpected].
Qed.

Lemma whitespace_is_isspace_witness :
  starts_value (to_char (peek (SkipWhitespace (lit "  /* note */ 1")))) = false /\
  LoadNode 1 (lit "  /* note */ 1")
  = Throws (ParsingError (lit "Unexpected character: /")).
Proof.
  assert (H : starts_value (to_char (peek (SkipWhitespace (lit "  /* note */ 1"))))
              = false) by reflexivity.
  split; [exact H|].
  exact (proj2 (proj2 (proj2 whitespace_is_isspace)) 0%nat (lit "  /* note */ 1") H).
Defined.

(** ** Printing and loading again *)

(** C2: evaluation at the failing input.  The array holding the double
    1000000.0 is well formed, and the default formatting of that double,
    1e+06, converts back to it without loss.  [PrintNode] appends the suffix
    .0 after the exponent, so the array is printed with the element
    1e+06.0; [LoadNumber] stops before the second point, and the array loop,
    finding a point where it wants a comma or the closing bracket, throws
    [ParsingError]. *)
Theorem suffix_after_exponent_breaks_round_trip :
  well_formed (VArray [VDouble (Double.of_Z 1000000)]) /\
  Double_to_Z (Double.of_Z 1000000) = Some 1000000 /\
  Double.g_format (Double.of_Z 1000000) = lit "1e+06" /\
  Double.extract (lit "1e+06") = Double.of_Z 1000000 /\
  Print (Document_of_Array [VDouble (Double.of_Z 1000000)])
  = lit "[" ++ [ch_newline] ++ lit "  1e+06.0" ++ [ch_newline] ++ lit "]" /\
  (forall k, Load (4 + k) (Print (Document_of_Array [VDouble (Double.of_Z 1000000)]))
             = Throws (ParsingError (lit "Expected ',' or ']' in array"))) /\
  (forall k, Load (1 + k) (Print (Document_of_Node (VDouble (Double.of_Z 1000000))))
             = Returns (Document_of_Node (VDouble (Double.of_Z 1000000)), lit ".0")).
Proof.
  split; [simpl; auto|]. split; [reflexivity|]. split; [reflexivity|].
  split; [reflexivity|]. split; [reflexivity|]. split.
  - intros k. apply (Load_mono 4); [vm_compute; reflexivity | discriminate | lia].
  - intros k. apply (Load_mono 1); [vm_compute; reflexivity | discriminate | lia].
Qed.

(** *** Integers *)

Lemma to_int_type_to_char : forall z, 0 <= z < 256 -> to_int_type (to_char z) = z.
Proof.
  intros z Hz. unfold to_int_type, to_char. rewrite Z.mod_small by exact Hz.
  rewrite N_ascii_embedding by lia. lia.
Qed.

Lemma digit_val_digit_char : forall d, 0 <= d < 10 -> digit_val (digit_char d) = d.
Proof.
  intros d Hd. unfold digit_val, digit_char. rewrite to_int_type_to_char; lia.
Qed.

Lemma isdigit_digit_char : forall d,
  0 <= d < 10 -> isdigit (to_int_type (digit_char d)) = true.
Proof.
  intros d Hd. unfold digit_char, isdigit. rewrite to_int_type_to_char by lia.
  apply andb_true_iff. split; apply Z.leb_le; lia.
Qed.

Lemma dec_digits_spec : forall fuel n acc,
  0 <= n < 10 ^ Z.of_nat (S fuel) ->
  exists ds, dec_digits (S fuel) n acc = ds ++ acc /\ ds <> []
             /\ forallb (fun c => isdigit (to_int_type c)) ds = true
             /\ forall a, fold_left (fun acc c => 10 * acc + digit_val c) ds a
                          = a * 10 ^ Z.of_nat (length ds) + n.
Proof.
  assert (Hsmall : forall fuel n acc, 0 <= n < 10 ->
    exists ds, dec_digits (S fuel) n acc = ds ++ acc /\ ds <> []
               /\ forallb (fun c => isdigit (to_int_type c)) ds = true
               /\ forall a, fold_left (fun acc c => 10 * acc + digit_val c) ds a
                            = a * 10 ^ Z.of_nat (length ds) + n).
  { intros fuel n acc Hn. cbn [dec_digits].
    destruct (Z.ltb_spec n 10) as [_|L]; [|lia].
    exists [digit_char (n mod 10)]. rewrite Z.mod_small by lia.
    split; [reflexivity|]. split; [discriminate|].
    split; [cbn [forallb]; now rewrite isdigit_digit_char|].
    intros a. cbn [fold_left length]. rewrite digit_val_digit_char by exact Hn.
    change (Z.of_nat 1) with 1. lia. }
  induction fuel as [|fuel IH]; intros n acc Hn.
  - apply Hsmall. change (10 ^ Z.of_nat 1) with 10 in Hn. exact Hn.
  - destruct (Z.ltb_spec n 10) as [L|L]; [apply Hsmall; lia|].
    assert (Hd : 0 <= n mod 10 < 10) by (apply Z.mod_pos_bound; lia).
    assert (Hq : 0 <= n / 10 < 10 ^ Z.of_nat (S fuel)).
    { split; [apply Z.div_pos; lia|]. apply Z.div_lt_upper_bound; [lia|].
      rewrite (Nat2Z.inj_succ (S fuel)), Z.pow_succ_r in Hn by lia. lia. }
    destruct (IH (n / 10) (digit_char (n mod 10) :: acc) Hq)
      as (ds & E & Hne & Hall & Hval).
    exists (ds ++ [digit_char (n mod 10)]). split.
    { change (dec_digits (S (S fuel)) n acc)
        with (if n <? 10 then digit_char (n mod 10) :: acc
              else dec_digits (S fuel) (n / 10) (digit_char (n mod 10) :: acc)).
      destruct (Z.ltb_spec n 10); [lia|]. rewrite E, <- app_assoc. reflexivity. }
    split; [destruct ds; discriminate|]. split.
    + rewrite forallb_app, Hall. cbn [forallb]. now rewrite isdigit_digit_char.
    + intros a. rewrite fold_left_app, Hval. cbn [fold_left].
      rewrite digit_val_digit_char by exact Hd.
      rewrite length_app, Nat2Z.inj_add. cbn [length].
      change (Z.of_nat 1) with 1. rewrite Z.pow_add_r, Z.pow_1_r by lia.
      pose proof (Z.div_mod n 10 ltac:(lia)). lia.
Qed.

Lemma Z_to_dec_spec : forall n,
  0 <= n ->
  Z_to_dec n <> [] /\ forallb (fun c => isdigit (to_int_type c)) (Z_to_dec n) = true
  /\ dec_value (Z_to_dec n) = n.
Proof.
  intros n Hn. unfold Z_to_dec.
  assert (Hb : 0 <= n < 10 ^ Z.of_nat (S (Z.to_nat (Z.log2 n)))).
  { split; [exact Hn|]. rewrite Nat2Z.inj_succ, Z2Nat.id by apply Z.log2_nonneg.
    destruct (Z.eq_dec n 0) as [->|Hz]; [reflexivity|].
    pose proof (Z.log2_spec n ltac:(lia)) as [_ Hlt].
    eapply Z.lt_le_trans; [exact Hlt|].
    apply Z.pow_le_mono_l. lia. }
  destruct (dec_digits_spec _ n [] Hb) as (ds & E & Hne & Hall & Hval).
  rewrite E, app_nil_r. repeat split; trivial.
  unfold dec_value. rewrite Hval. lia.
Qed.

Lemma value_end_not_digit : forall rest,
  value_end rest ->
  isdigit (peek rest) = false /\ is_char (peek rest) "." = false
  /\ is_char (tolower (peek rest)) "e" = false /\ isalpha (peek rest) = false
  /\ isdigit (to_int_type (hd " "%char rest)) = false.
Proof.
  intros [|c rest] H; [repeat split|].
  destruct H as [->| ->]; repeat split.
Qed.

Lemma read_digits_app : forall ds acc rest,
  forallb (fun c => isdigit (to_int_type c)) ds = true ->
  isdigit (peek rest) = false ->
  read_digits acc (ds ++ rest) = (acc ++ ds, rest).
Proof.
  induction ds as [|c ds IH]; intros acc rest Hds Hr.
  - rewrite app_nil_r. destruct rest as [|c rest]; [reflexivity|].
    simpl in *. now rewrite Hr.
  - simpl in Hds. apply andb_true_iff in Hds as [Hc Hds].
    cbn [app read_digits]. rewrite Hc, IH by assumption.
    now rewrite <- app_assoc.
Qed.

Lemma take_digits_all : forall ds,
  forallb (fun c => isdigit (to_int_type c)) ds = true -> take_digits ds = (ds, []).
Proof.
  induction ds as [|c ds IH]; intros Hds; [reflexivity|].
  simpl in Hds. apply andb_true_iff in Hds as [Hc Hds].
  cbn [take_digits]. now rewrite Hc, IH.
Qed.

Lemma digit_not_sign : forall c,
  isdigit (to_int_type c) = true ->
  is_char (to_int_type c) "-" = false /\ is_char (to_int_type c) "+" = false
  /\ isdigit (char_to_int c) = true.
Proof.
  intros [[] [] [] [] [] [] [] []]; vm_compute; intros H;
    try discriminate H; repeat split.
Qed.

Lemma scan_number_digits : forall ds rest,
  ds <> [] -> forallb (fun c => isdigit (to_int_type c)) ds = true ->
  value_end rest ->
  scan_number (ds ++ rest) = (ds, false, rest)
  /\ scan_number ("-"%char :: ds ++ rest) = ("-"%char :: ds, false, rest).
Proof.
  intros ds rest Hne Hds Hend.
  destruct (value_end_not_digit rest Hend) as (R1 & R2 & R3 & _).
  destruct ds as [|c ds]; [contradiction|].
  pose proof Hds as Hds'. simpl in Hds'. apply andb_true_iff in Hds' as [Hc _].
  destruct (digit_not_sign c Hc) as (S1 & _). split.
  - cbv beta iota zeta delta [scan_number fst snd].
    change (peek ((c :: ds) ++ rest)) with (to_int_type c). rewrite S1.
    rewrite read_digits_app by assumption.
    cbv beta iota zeta delta [fst snd]. rewrite R2.
    cbv beta iota zeta delta [fst snd]. rewrite R3. reflexivity.
  - cbv beta iota zeta delta [scan_number fst snd].
    change (peek ("-"%char :: (c :: ds) ++ rest)) with (to_int_type "-").
    change (is_char (to_int_type "-") "-") with true.
    cbv beta iota zeta delta [read_char get fst snd].
    change (to_char (to_int_type "-")) with "-"%char.
    rewrite read_digits_app by assumption.
    cbv beta iota zeta delta [fst snd]. rewrite R2.
    cbv beta iota zeta delta [fst snd]. rewrite R3. reflexivity.
Qed.

Lemma extract_int_digits : forall ds,
  ds <> [] -> forallb (fun c => isdigit (to_int_type c)) ds = true ->
  extract_int ds = clamp INT_MIN INT_MAX (dec_value ds)
  /\ extract_int ("-"%char :: ds) = clamp INT_MIN INT_MAX (- dec_value ds).
Proof.
  intros ds Hne Hds. destruct ds as [|c ds]; [contradiction|].
  pose proof Hds as Hds'. simpl in Hds'. apply andb_true_iff in Hds' as [Hc _].
  destruct (digit_not_sign c Hc) as (S1 & S2 & _). split.
  - unfold extract_int. cbn [take_sign]. rewrite S1, S2.
    now rewrite take_digits_all by exact Hds.
  - unfold extract_int. cbn [take_sign].
    change (is_char (to_int_type "-") "-") with true. cbv iota.
    now rewrite take_digits_all by exact Hds.
Qed.

(** The text of an [int] starts a number and is read back as that [int]. *)
Lemma LoadNumber_print_int : forall i rest,
  int_range i -> value_end rest ->
  LoadNumber (print_int i ++ rest) = (VInt i, rest)
  /\ isdigit (char_to_int (hd " "%char (print_int i)))
     || Ascii.eqb (hd " "%char (print_int i)) "-" = true.
Proof.
  intros i rest Hi Hend. unfold print_int, LoadNumber.
  destruct (Z.ltb_spec i 0) as [L|L].
  - destruct (Z_to_dec_spec (- i) ltac:(lia)) as (Hne & Hds & Hv).
    destruct (scan_number_digits _ rest Hne Hds Hend) as [_ Es].
    destruct (extract_int_digits _ Hne Hds) as [_ Ee].
    cbn [app]. rewrite Es, Ee, Hv. split; [|reflexivity].
    f_equal. f_equal. unfold int_range, clamp, INT_MIN, INT_MAX in *. lia.
  - destruct (Z_to_dec_spec i L) as (Hne & Hds & Hv).
    destruct (scan_number_digits _ rest Hne Hds Hend) as [Es _].
    destruct (extract_int_digits _ Hne Hds) as [Ee _].
    rewrite Es, Ee, Hv. split.
    + f_equal. f_equal. unfold int_range, clamp, INT_MIN, INT_MAX in *. lia.
    + destruct (Z_to_dec i) as [|c ds]; [contradiction|].
      simpl in Hds. apply andb_true_iff in Hds as [Hc _].
      destruct (digit_not_sign c Hc) as (_ & _ & D). cbn [hd]. now rewrite D.
Qed.

(** *** White space in printed text *)

Lemma SkipWhitespace_idem : forall s, SkipWhitespace (SkipWhitespace s) = SkipWhitespace s.
Proof.
  induction s as [|c s IH]; [reflexivity|].
  simpl. destruct (isspace (to_int_type c)) eqn:E; [exact IH|].
  simpl. now rewrite E.
Qed.

Lemma SkipWhitespace_spaces : forall n s, SkipWhitespace (spaces n ++ s) = SkipWhitespace s.
Proof. induction n as [|n IH]; intros s; [reflexivity | exact (IH s)]. Qed.

Lemma SkipWhitespace_line : forall n s,
  SkipWhitespace (ch_newline :: spaces n ++ s) = SkipWhitespace s.
Proof. intros n s. exact (SkipWhitespace_spaces n s). Qed.

Lemma SkipWhitespace_nonspace : forall c s,
  isspace (to_int_type c) = false -> SkipWhitespace (c :: s) = c :: s.
Proof. intros c s H. simpl. now rewrite H. Qed.

Lemma SkipWhitespace_closing : forall b indent rest,
  isspace (to_int_type b) = false ->
  SkipWhitespace (closing b indent rest) = b :: rest.
Proof.
  intros b indent rest H. unfold closing. cbn [app].
  rewrite SkipWhitespace_line. now apply SkipWhitespace_nonspace.
Qed.

Lemma LoadNode_skip : forall f s, LoadNode f (SkipWhitespace s) = LoadNode f s.
Proof.
  intros [|f] s; [reflexivity|]. rewrite !LoadNode_S. cbv zeta.
  now rewrite SkipWhitespace_idem.
Qed.

Lemma LoadArray_loop_skip : forall f result s,
  LoadArray_loop f result (SkipWhitespace s) = LoadArray_loop f result s.
Proof.
  intros [|f] result s; [reflexivity|]. rewrite !LoadArray_loop_S. cbv zeta.
  now rewrite SkipWhitespace_idem.
Qed.

Lemma LoadDict_loop_skip : forall f result s,
  LoadDict_loop f result (SkipWhitespace s) = LoadDict_loop f result s.
Proof.
  intros [|f] result s; [reflexivity|]. rewrite !LoadDict_loop_S. cbv zeta.
  now rewrite SkipWhitespace_idem.
Qed.

(** *** Scalars *)

Lemma number_start_class : forall c,
  isdigit (char_to_int c) || Ascii.eqb c "-" = true ->
  isspace (to_int_type c) = false /\ is_char (to_int_type c) "]" = false.
Proof.
  intros [[] [] [] [] [] [] [] []]; vm_compute; intros H;
    try discriminate H; repeat split.
Qed.

Lemma round_trips_number : forall text n,
  isdigit (char_to_int (hd " "%char text)) || Ascii.eqb (hd " "%char text) "-" = true ->
  (forall rest, value_end rest -> LoadNumber (text ++ rest) = (n, rest)) ->
  forall rest, value_end rest ->
  forall f, (1 <= f)%nat -> LoadNode f (text ++ rest) = Returns (n, rest).
Proof.
  intros text n Hhd Hload rest Hend f Hf.
  destruct f as [|f]; [lia|]. destruct text as [|c text]; [discriminate Hhd|].
  cbn [hd] in Hhd. destruct (number_start_class c Hhd) as [Hsp _].
  rewrite LoadNode_number.
  - cbn [app]. rewrite SkipWhitespace_nonspace by exact Hsp.
    now rewrite <- (Hload rest Hend).
  - cbv zeta. cbn [app]. rewrite SkipWhitespace_nonspace by exact Hsp.
    cbn [peek]. now rewrite to_char_to_int_type.
Qed.

Lemma read_alpha_stop : forall token rest,
  isalpha (peek rest) = false -> read_alpha token rest = (token, rest).
Proof.
  intros token [|c rest] H; [reflexivity|]. simpl in *. now rewrite H.
Qed.

Lemma round_trips_literal : forall rest,
  value_end rest ->
  forall f, (1 <= f)%nat ->
    LoadNode f (lit "null" ++ rest) = Returns (VNull, rest)
    /\ LoadNode f (lit "true" ++ rest) = Returns (VBool true, rest)
    /\ LoadNode f (lit "false" ++ rest) = Returns (VBool false, rest).
Proof.
  intros rest Hend f Hf. destruct f as [|f]; [lia|].
  destruct (value_end_not_digit rest Hend) as (_ & _ & _ & Ha & _).
  repeat split; rewrite LoadNode_S; cbv zeta;
    cbn [lit list_ascii_of_string app];
    (rewrite SkipWhitespace_nonspace by reflexivity);
    cbn [peek]; rewrite to_char_to_int_type;
    cbv beta iota delta [Ascii.eqb Bool.eqb ch_quote];
    unfold LoadBoolOrNull; cbn [read_alpha];
    cbv beta iota; rewrite read_alpha_stop by exact Ha; reflexivity.
Qed.

Lemma round_trips_string : forall s rest f,
  (S (S (length (flat_map PrintString_char s))) <= f)%nat ->
  LoadNode f (PrintString s ++ rest) = Returns (VString s, rest).
Proof.
  intros s rest f Hf. destruct f as [|f]; [lia|].
  rewrite LoadNode_S. cbv zeta. unfold PrintString.
  cbn [app]. rewrite SkipWhitespace_nonspace by reflexivity.
  cbn [peek]. rewrite to_char_to_int_type.
  change (Ascii.eqb ch_quote "[") with false.
  change (Ascii.eqb ch_quote "{") with false.
  change (Ascii.eqb ch_quote ch_quote) with true. cbv iota.
  unfold LoadString. cbn [get].
  change (negb (is_char (to_int_type ch_quote) ch_quote)) with false. cbv iota.
  rewrite <- app_assoc. cbn [app].
  rewrite LoadStringToken_printed by lia. reflexivity.
Qed.

(** *** Arrays *)

Lemma PrintArray_items_cons : forall P x xs first indent,
  PrintArray_items P (x :: xs) first indent =
  (if first then [] else [","%char]) ++
  [ch_newline] ++ spaces (indent + 2) ++ P x (indent + 2)%nat ++
  PrintArray_items P xs false indent.
Proof. reflexivity. Qed.

Lemma value_end_tail : forall (items : std_string) b indent rest,
  (items = [] \/ exists s, items = ","%char :: s) ->
  value_end (items ++ closing b indent rest).
Proof.
  intros items b indent rest [->|[s ->]]; simpl; auto.
Qed.

Lemma PrintArray_items_tail : forall P xs indent,
  PrintArray_items P xs false indent = []
  \/ exists s, PrintArray_items P xs false indent = ","%char :: s.
Proof.
  intros P [|x xs] indent; [now left|]. right.
  rewrite PrintArray_items_cons. cbn [app]. eauto.
Qed.

Lemma PrintDict_items_tail : forall P d indent,
  PrintDict_items P d false indent = []
  \/ exists s, PrintDict_items P d false indent = ","%char :: s.
Proof.
  intros P [|[k n] d] indent; [now left|]. right.
  rewrite PrintDict_items_cons. cbn [app]. eauto.
Qed.

(** One turn of the loop of [LoadArray] once the element has been read. *)
Lemma LoadArray_loop_turn : forall f result input node tail,
  LoadNode f input = Returns (node, tail) ->
  LoadArray_loop (S f) result input =
  let '(i, input') := get (SkipWhitespace tail) in
  let c := to_char i in
  if Ascii.eqb c "]" then Returns (VArray (result ++ [node]), input')
  else if negb (Ascii.eqb c ",") then
    Throws (ParsingError (lit "Expected ',' or ']' in array"))
  else LoadArray_loop f (result ++ [node]) input'.
Proof.
  intros f result input node tail H.
  rewrite LoadArray_loop_S. cbv zeta. rewrite LoadNode_skip, H. reflexivity.
Qed.

Lemma LoadArray_loop_printed : forall xs,
  Forall round_trips xs ->
  forall x result indent rest,
    round_trips x ->
    exists F, forall f, (F <= f)%nat ->
      LoadArray_loop f result
        (PrintNode x (indent + 2) ++
         PrintArray_items PrintNode xs false indent ++ closing "]" indent rest)
      = Returns (VArray (result ++ x :: xs), rest).
Proof.
  induction 1 as [|y ys Hy Hys IH]; intros x result indent rest Hx.
  - destruct (Hx (indent + 2)%nat (closing "]" indent rest)) as [Fx HFx];
      [apply (value_end_tail [] "]"); now left|].
    exists (S Fx). intros f Hf. destruct f as [|f]; [lia|].
    cbn [PrintArray_items app].
    rewrite (LoadArray_loop_turn _ _ _ _ _ (HFx f ltac:(lia))).
    rewrite SkipWhitespace_closing by reflexivity. reflexivity.
  - destruct (Hx (indent + 2)%nat
                (PrintArray_items PrintNode (y :: ys) false indent
                 ++ closing "]" indent rest)) as [Fx HFx];
      [apply value_end_tail, PrintArray_items_tail|].
    destruct (IH y (result ++ [x]) indent rest Hy) as [Fl HFl].
    exists (S (Nat.max Fx Fl)). intros f Hf. destruct f as [|f]; [lia|].
    rewrite (LoadArray_loop_turn _ _ _ _ _ (HFx f ltac:(lia))).
    rewrite PrintArray_items_cons. repeat rewrite <- app_assoc. cbn [app].
    rewrite SkipWhitespace_nonspace by reflexivity. cbn [get].
    rewrite to_char_to_int_type.
    change (Ascii.eqb "," "]") with false. change (Ascii.eqb "," ",") with true.
    cbv iota beta. cbn [negb].
    rewrite <- LoadArray_loop_skip, SkipWhitespace_line, LoadArray_loop_skip.
    rewrite HFl by lia. now rewrite <- app_assoc.
Qed.

(** *** Objects *)

Lemma emplace_last : forall key node d,
  Forall (fun k => string_lt k key) (keys d) -> emplace key node d = d ++ [(key, node)].
Proof.
  intros key node d. induction d as [|[k n] d IH]; intros H; [reflexivity|].
  simpl in H. inversion H as [|? ? Hk Hd]. subst. unfold string_lt in Hk.
  cbn [emplace app]. rewrite (string_ltb_asym _ _ Hk), Hk. f_equal. auto.
Qed.

(** One turn of the loop of [LoadDict] once key and value have been read. *)
Lemma LoadDict_loop_turn : forall f result key text node tail,
  (length (flat_map PrintString_char key) < f)%nat ->
  LoadNode f text = Returns (node, tail) ->
  LoadDict_loop (S f) result (PrintString key ++ lit ": " ++ text) =
  let '(i, input') := get (SkipWhitespace tail) in
  let c := to_char i in
  if Ascii.eqb c "}" then Returns (VDict (emplace key node result), input')
  else if negb (Ascii.eqb c ",") then
    Throws (ParsingError (lit "Expected ',' or '}' in dict"))
  else LoadDict_loop f (emplace key node result) input'.
Proof.
  intros f result key text node tail Hf H.
  rewrite LoadDict_loop_S. cbv zeta. unfold PrintString.
  cbn [app]. rewrite SkipWhitespace_nonspace by reflexivity. cbn [get].
  change (negb (is_char (to_int_type ch_quote) ch_quote)) with false. cbv iota.
  rewrite <- app_assoc. cbn [app].
  rewrite LoadStringToken_printed by exact Hf. cbn [bind].
  cbn [lit list_ascii_of_string app].
  rewrite SkipWhitespace_nonspace by reflexivity. cbn [get].
  change (negb (is_char (to_int_type ":") ":")) with false. cbv iota.
  change (SkipWhitespace (" "%char :: text)) with (SkipWhitespace text).
  rewrite LoadNode_skip, H. reflexivity.
Qed.

Lemma LoadDict_loop_printed : forall d2,
  Forall (fun kv => round_trips (snd kv)) d2 ->
  forall k v result indent rest,
    round_trips v ->
    sorted_dict (result ++ (k, v) :: d2) ->
    exists F, forall f, (F <= f)%nat ->
      LoadDict_loop f result
        (PrintString k ++ lit ": " ++ PrintNode v (indent + 2) ++
         PrintDict_items PrintNode d2 false indent ++ closing "}" indent rest)
      = Returns (VDict (result ++ (k, v) :: d2), rest).
Proof.
  induction 1 as [|[k' v'] d2 Hy Hys IH]; intros k v result indent rest Hv Hs.
  - destruct (Hv (indent + 2)%nat (closing "}" indent rest)) as [Fv HFv];
      [apply (value_end_tail [] "}"); now left|].
    exists (S (Nat.max Fv (S (length (flat_map PrintString_char k))))).
    intros f Hf. destruct f as [|f]; [lia|].
    cbn [PrintDict_items app].
    rewrite (LoadDict_loop_turn f result k _ v _ ltac:(lia) (HFv f ltac:(lia))).
    rewrite SkipWhitespace_closing by reflexivity. cbn [get].
    rewrite to_char_to_int_type. change (Ascii.eqb "}" "}") with true. cbv iota.
    rewrite emplace_last; [reflexivity|]. now apply sorted_dict_split in Hs.
  - destruct (Hv (indent + 2)%nat
                (PrintDict_items PrintNode ((k', v') :: d2) false indent
                 ++ closing "}" indent rest)) as [Fv HFv];
      [apply value_end_tail, PrintDict_items_tail|].
    assert (Hs' : sorted_dict ((result ++ [(k, v)]) ++ (k', v') :: d2))
      by now rewrite <- app_assoc.
    destruct (IH k' v' (result ++ [(k, v)]) indent rest Hy Hs') as [Fl HFl].
    exists (S (Nat.max (Nat.max Fv Fl) (S (length (flat_map PrintString_char k))))).
    intros f Hf. destruct f as [|f]; [lia|].
    rewrite (LoadDict_loop_turn f result k _ v _ ltac:(lia) (HFv f ltac:(lia))).
    rewrite PrintDict_items_cons. repeat rewrite <- app_assoc. cbn [app].
    rewrite SkipWhitespace_nonspace by reflexivity. cbn [get].
    rewrite to_char_to_int_type.
    change (Ascii.eqb "," "}") with false. change (Ascii.eqb "," ",") with true.
    cbv iota beta. cbn [negb].
    rewrite emplace_last by now apply sorted_dict_split in Hs.
    rewrite <- LoadDict_loop_skip, SkipWhitespace_line, LoadDict_loop_skip.
    rewrite HFl by lia. now rewrite <- app_assoc.
Qed.

(** *** The round trip *)

Lemma doubles_reparse_array : forall a,
  doubles_reparse (VArray a) <-> Forall doubles_reparse a.
Proof.
  induction a as [|x a IH]; simpl.
  - split; constructor.
  - simpl in IH. rewrite IH. split.
    + intros [H1 H2]. now constructor.
    + intros H. now inversion H.
Qed.

Lemma doubles_reparse_dict : forall d,
  doubles_reparse (VDict d) <-> Forall (fun kv => doubles_reparse (snd kv)) d.
Proof.
  induction d as [|x d IH]; simpl.
  - split; constructor.
  - simpl in IH. rewrite IH. split.
    + intros [H1 H2]. now constructor.
    + intros H. now inversion H.
Qed.

(** Printed text starts with a character that is not white space and does
    not close an array. *)
Lemma PrintNode_head : forall n indent,
  well_formed n -> doubles_reparse n ->
  exists c s, PrintNode n indent = c :: s
              /\ isspace (to_int_type c) = false
              /\ is_char (to_int_type c) "]" = false.
Proof.
  intros n indent Hwf Hdr. destruct n as [|a|d|b|i|x|s]; cbn [PrintNode].
  - eexists _, _. repeat split.
  - unfold PrintArray. eexists _, _. repeat split.
  - unfold PrintDict. eexists _, _. repeat split.
  - destruct b; eexists _, _; repeat split.
  - destruct (LoadNumber_print_int i [] Hwf I) as [_ H].
    destruct (print_int i) as [|c s]; [discriminate H|]. cbn [hd] in H.
    exists c, s. split; [reflexivity|]. now apply number_start_class.
  - destruct Hdr as [H _].
    destruct (PrintDouble x) as [|c s]; [discriminate H|]. cbn [hd] in H.
    exists c, s. split; [reflexivity|]. now apply number_start_class.
  - unfold PrintString. eexists _, _. repeat split.
Qed.

Lemma round_trips_all : forall n,
  well_formed n -> doubles_reparse n -> round_trips n.
Proof.
  induction n as [|a IH|d IH|b|i|x|s] using Node_ind'; intros Hwf Hdr indent rest Hend.
  - exists 1%nat. intros f Hf. now apply round_trips_literal.
  - apply well_formed_array in Hwf. apply doubles_reparse_array in Hdr.
    assert (Hrt : Forall round_trips a).
    { rewrite Forall_forall in *. auto. }
    destruct a as [|x xs].
    + exists 2%nat. intros f Hf. destruct f as [|[|f]]; try lia. reflexivity.
    + inversion Hrt as [|? ? Hx Hxs]. subst.
      destruct (LoadArray_loop_printed xs Hxs x [] indent rest Hx) as [Fl HFl].
      exists (S (S Fl)). intros f Hf. destruct f as [|[|f]]; try lia.
      inversion Hwf as [|? ? Wx _]. inversion Hdr as [|? ? Dx _]. subst.
      destruct (PrintNode_head x (indent + 2) Wx Dx) as (c & s & Ehd & Hsp & Hbr).
      change (PrintNode (VArray (x :: xs)) indent)
        with (PrintArray PrintNode (x :: xs) indent).
      unfold PrintArray. rewrite PrintArray_items_cons.
      repeat rewrite <- app_assoc. cbn [app].
      rewrite LoadNode_S. cbv zeta.
      rewrite SkipWhitespace_nonspace by reflexivity. cbn [peek].
      rewrite to_char_to_int_type. change (Ascii.eqb "[" "[") with true. cbv iota.
      rewrite LoadArray_S. cbn [get].
      change (negb (is_char (to_int_type "[") "[")) with false. cbv iota zeta.
      rewrite SkipWhitespace_line.
      assert (Epk : is_char (peek (SkipWhitespace
                      (PrintNode x (indent + 2) ++
                       PrintArray_items PrintNode xs false indent ++
                       [ch_newline] ++ spaces indent ++ ["]"%char] ++ rest))) "]"
                    = false).
      { rewrite Ehd. cbn [app]. rewrite SkipWhitespace_nonspace by exact Hsp.
        exact Hbr. }
      cbn [app] in Epk. rewrite Epk. rewrite LoadArray_loop_skip.
      exact (HFl f ltac:(lia)).
  - apply well_formed_dict in Hwf as [Hs Hwf]. apply doubles_reparse_dict in Hdr.
    assert (Hrt : Forall (fun kv => round_trips (snd kv)) d).
    { rewrite Forall_forall in *. auto. }
    destruct d as [|[k v] d2].
    + exists 2%nat. intros f Hf. destruct f as [|[|f]]; try lia. reflexivity.
    + inversion Hrt as [|? ? Hv Hd2]. subst. cbn [snd] in Hv.
      destruct (LoadDict_loop_printed d2 Hd2 k v [] indent rest Hv Hs) as [Fl HFl].
      exists (S (S Fl)). intros f Hf. destruct f as [|[|f]]; try lia.
      change (PrintNode (VDict ((k, v) :: d2)) indent)
        with (PrintDict PrintNode ((k, v) :: d2) indent).
      unfold PrintDict. rewrite PrintDict_items_cons.
      repeat rewrite <- app_assoc. cbn [app].
      rewrite LoadNode_S. cbv zeta.
      rewrite SkipWhitespace_nonspace by reflexivity. cbn [peek].
      rewrite to_char_to_int_type.
      change (Ascii.eqb "{" "[") with false. change (Ascii.eqb "{" "{") with true.
      cbv iota.
      rewrite LoadDict_S. cbn [get].
      change (negb (is_char (to_int_type "{") "{")) with false. cbv iota zeta.
      rewrite SkipWhitespace_line.
      assert (Epk : is_char (peek (SkipWhitespace
                      (PrintString k ++ lit ": " ++ PrintNode v (indent + 2) ++
                       PrintDict_items PrintNode d2 false indent ++
                       [ch_newline] ++ spaces indent ++ ["}"%char] ++ rest))) "}"
                    = false) by reflexivity.
      cbn [app] in Epk. rewrite Epk. rewrite LoadDict_loop_skip.
      exact (HFl f ltac:(lia)).
  - exists 1%nat. intros f Hf. destruct b; now apply round_trips_literal.
  - exists 1%nat. intros f Hf. cbn [PrintNode].
    destruct (LoadNumber_print_int i [] Hwf I) as [_ Hhd].
    apply (round_trips_number (print_int i) (VInt i) Hhd); trivial.
    intros r Hr. now apply LoadNumber_print_int.
  - exists 1%nat. intros f Hf. cbn [PrintNode]. destruct Hdr as [Hhd Hload].
    now apply (round_trips_number (PrintDouble x) (VDouble x) Hhd).
  - exists (S (S (length (flat_map PrintString_char s)))). intros f Hf.
    now apply round_trips_string.
Qed.

Lemma double_free_reparse : forall n, double_free n = true -> doubles_reparse n.
Proof.
  induction n as [|a IH|d IH|b|i|x|s] using Node_ind'; intros H; try exact I.
  - apply doubles_reparse_array. simpl in H. rewrite forallb_forall in H.
    rewrite Forall_forall in *. auto.
  - apply doubles_reparse_dict. simpl in H. rewrite forallb_forall in H.
    rewrite Forall_forall in *. auto.
  - discriminate H.
Qed.

(** X15: round trip, for the values the claim C2 is about: if every [int] of a
    value is in range, every object is sorted by key, and every double is
    read back from its own printed text, then loading the printed document
    returns a document with the same value and consumes the whole text.  In
    particular this holds for every value without doubles. *)
Theorem Load_Print_round_trip : forall n,
  well_formed n -> doubles_reparse n ->
  exists F, forall f, (F <= f)%nat ->
    Load f (Print (Document_of_Node n)) = Returns (Document_of_Node n, []).
Proof.
  intros n Hwf Hdr. destruct (round_trips_all n Hwf Hdr 0%nat [] I) as [F HF].
  exists F. intros f Hf. unfold Load, Print. cbn [GetRoot Document_of_Node].
  rewrite <- (app_nil_r (PrintNode n 0)). now rewrite (HF f Hf).
Qed.

Lemma double_reparses_42 : double_reparses (Double.of_Z 42).
Proof.
  split; [reflexivity|]. intros [|c rest] H; [reflexivity|].
  destruct H as [->| ->]; vm_compute; reflexivity.
Qed.

Lemma double_reparses_minus_half : double_reparses (Double.extract (lit "-0.5")).
Proof.
  split; [reflexivity|]. intros [|c rest] H; [reflexivity|].
  destruct H as [->| ->]; vm_compute; reflexivity.
Qed.

Lemma Load_Print_round_trip_witness :
  well_formed sample_value /\ doubles_reparse sample_value /\
  exists F, forall f, (F <= f)%nat ->
    Load f (Print (Document_of_Node sample_value))
    = Returns (Document_of_Node sample_value, []).
Proof.
  assert (Hwf : well_formed sample_value).
  { unfold sample_value. apply well_formed_dict. split.
    - unfold sorted_dict. simpl. repeat constructor.
    - repeat constructor; simpl; unfold int_range, INT_MIN, INT_MAX; auto; lia. }
  assert (Hdr : doubles_reparse sample_value).
  { simpl. repeat split.
    - exact (proj2 double_reparses_42).
    - exact (proj2 double_reparses_minus_half). }
  split; [exact Hwf|]. split; [exact Hdr|].
  exact (Load_Print_round_trip sample_value Hwf Hdr).
Defined.


(** ** Objects written in any order *)

Lemma keys_Dict_of_entries : forall l k,
  In k (keys (Dict_of_entries l)) <-> In k (List.map fst l).
Proof.
  induction l as [|[k0 n0] l IH] using rev_ind; intros k.
  - simpl. tauto.
  - rewrite Dict_of_entries_snoc, keys_emplace, map_app, in_app_iff, IH.
    simpl. intuition.
Qed.

(** An entry whose key was listed before changes nothing. *)
Lemma Dict_of_entries_duplicate : forall l1 key node l2,
  In key (List.map fst l1) ->
  Dict_of_entries (l1 ++ (key, node) :: l2) = Dict_of_entries (l1 ++ l2).
Proof.
  intros l1 key node l2 Hin. apply sorted_dict_ext; try apply Dict_of_entries_sorted.
  intros k. rewrite !find_Dict_of_entries, !first_binding_app.
  destruct (first_binding k l1) eqn:E; [reflexivity|]. simpl.
  destruct (string_eqb key k) eqn:Ek; [|reflexivity].
  apply string_eqb_true in Ek. subst k.
  apply (find_none_not_in key l1) in E. contradiction.
Qed.

(** The loop of [LoadDict] on entries written in any order: every entry is
    read and handed to [emplace], in the order of the text. *)
Lemma LoadDict_loop_entries : forall l,
  Forall (fun kv => round_trips (snd kv)) l ->
  forall k v result indent rest,
    round_trips v ->
    exists F, forall f, (F <= f)%nat ->
      LoadDict_loop f result
        (PrintString k ++ lit ": " ++ PrintNode v (indent + 2) ++
         PrintDict_items PrintNode l false indent ++ closing "}" indent rest)
      = Returns (VDict (fold_left (fun d kv => emplace (fst kv) (snd kv) d)
                          ((k, v) :: l) result), rest).
Proof.
  induction 1 as [|[k' v'] l Hy Hys IH]; intros k v result indent rest Hv.
  - destruct (Hv (indent + 2)%nat (closing "}" indent rest)) as [Fv HFv];
      [apply (value_end_tail [] "}"); now left|].
    exists (S (Nat.max Fv (S (length (flat_map PrintString_char k))))).
    intros f Hf. destruct f as [|f]; [lia|].
    cbn [PrintDict_items app].
    rewrite (LoadDict_loop_turn f result k _ v _ ltac:(lia) (HFv f ltac:(lia))).
    rewrite SkipWhitespace_closing by reflexivity. cbn [get].
    rewrite to_char_to_int_type. change (Ascii.eqb "}" "}") with true. cbv iota.
    reflexivity.
  - destruct (Hv (indent + 2)%nat
                (PrintDict_items PrintNode ((k', v') :: l) false indent
                 ++ closing "}" indent rest)) as [Fv HFv];
      [apply value_end_tail, PrintDict_items_tail|].
    cbn [snd] in Hy.
    destruct (IH k' v' (emplace k v result) indent rest Hy) as [Fl HFl].
    exists (S (Nat.max (Nat.max Fv Fl) (S (length (flat_map PrintString_char k))))).
    intros f Hf. destruct f as [|f]; [lia|].
    rewrite (LoadDict_loop_turn f result k _ v _ ltac:(lia) (HFv f ltac:(lia))).
    rewrite PrintDict_items_cons. repeat rewrite <- app_assoc. cbn [app].
    rewrite SkipWhitespace_nonspace by reflexivity. cbn [get].
    rewrite to_char_to_int_type.
    change (Ascii.eqb "," "}") with false. change (Ascii.eqb "," ",") with true.
    cbv iota beta. cbn [negb].
    rewrite <- LoadDict_loop_skip, SkipWhitespace_line, LoadDict_loop_skip.
    rewrite HFl by lia. reflexivity.
Qed.

Lemma LoadNode_entries_text : forall l indent rest,
  Forall (fun kv => round_trips (snd kv)) l ->
  exists F, forall f, (F <= f)%nat ->
    LoadNode f (PrintDict PrintNode l indent ++ rest)
    = Returns (VDict (Dict_of_entries l), rest).
Proof.
  intros [|[k v] l2] indent rest Hrt.
  - exists 2%nat. intros f Hf. destruct f as [|[|f]]; try lia. reflexivity.
  - inversion Hrt as [|? ? Hv Hl2]. subst. cbn [snd] in Hv.
    destruct (LoadDict_loop_entries l2 Hl2 k v [] indent rest Hv) as [Fl HFl].
    exists (S (S Fl)). intros f Hf. destruct f as [|[|f]]; try lia.
    unfold PrintDict. rewrite PrintDict_items_cons.
    repeat rewrite <- app_assoc. cbn [app].
    rewrite LoadNode_S. cbv zeta.
    rewrite SkipWhitespace_nonspace by reflexivity. cbn [peek].
    rewrite to_char_to_int_type.
    change (Ascii.eqb "{" "[") with false. change (Ascii.eqb "{" "{") with true.
    cbv iota.
    rewrite LoadDict_S. cbn [get].
    change (negb (is_char (to_int_type "{") "{")) with false. cbv iota zeta.
    rewrite SkipWhitespace_line.
    assert (Epk : is_char (peek (SkipWhitespace
                    (PrintString k ++ lit ": " ++ PrintNode v (indent + 2) ++
                     PrintDict_items PrintNode l2 false indent ++
                     [ch_newline] ++ spaces indent ++ ["}"%char] ++ rest))) "}"
                  = false) by reflexivity.
    cbn [app] in Epk. rewrite Epk. rewrite LoadDict_loop_skip.
    exact (HFl f ltac:(lia)).
Qed.

(** Loading the text of an object with the entries [l] gives the map made
    by inserting the entries of [l] one after the other. *)
Lemma Load_object_text : forall l,
  printable_entries l ->
  exists F, forall f, (F <= f)%nat ->
    Load f (object_text l) = Returns (Document_of_Dict (Dict_of_entries l), []).
Proof.
  intros l H.
  assert (Hrt : Forall (fun kv => round_trips (snd kv)) l).
  { eapply Forall_impl; [|exact H]. intros kv [W D]. now apply round_trips_all. }
  destruct (LoadNode_entries_text l 0%nat [] Hrt) as [F HF].
  exists F. intros f Hf. unfold Load, object_text.
  rewrite <- (app_nil_r (PrintDict PrintNode l 0)). now rewrite (HF f Hf).
Qed.

(** The claim C1 fails on its own example: the object parsed from the text
    with the key a given twice holds 1 under a, and no amount of fuel makes
    the parser return the object holding 2. *)
Lemma duplicate_key_later_value_is_dropped :
  Load 6 text_dup_key = Returns (Document_of_Dict [(lit "a", VInt 1)], []) /\
  ~ (exists fuel rest,
       Load fuel text_dup_key = Returns (Document_of_Dict [(lit "a", VInt 2)], rest)).
Proof.
  assert (H : Load 6 text_dup_key = Returns (Document_of_Dict [(lit "a", VInt 1)], []))
    by (vm_compute; reflexivity).
  split; [exact H|]. intros (fuel & rest & Hf).
  destruct (Load_settled _ _ _ H ltac:(discriminate) fuel) as [E|E];
    rewrite E in Hf; discriminate Hf.
Qed.

(** C1, amended: [LoadDict] inserts each parsed entry with [emplace], which
    leaves the map unchanged when the key is already present.  So for the
    text of an object with any entries, a key repeated or not, the parser
    returns the map in which every key holds the value of its first
    occurrence in the text; an entry whose key stood earlier in the text is
    parsed and changes nothing; and the text with the key a given twice
    parses to the single entry a holding 1. *)
Theorem duplicate_key_keeps_first :
  (forall key node d, sorted_dict d -> In key (keys d) -> emplace key node d = d) /\
  (forall l, printable_entries l ->
     exists F, forall f, (F <= f)%nat ->
       exists d, Load f (object_text l) = Returns (Document_of_Dict d, []) /\
                 d = Dict_of_entries l /\
                 (forall key, find key d = first_binding key l) /\
                 (forall key, In key (keys d) <-> In key (List.map fst l))) /\
  (forall l1 key node l2, In key (List.map fst l1) ->
     Dict_of_entries (l1 ++ (key, node) :: l2) = Dict_of_entries (l1 ++ l2)) /\
  (forall k, Load (6 + k) text_dup_key
             = Returns (Document_of_Dict [(lit "a", VInt 1)], [])).
Proof.
  split; [exact emplace_present|]. split.
  { intros l H. destruct (Load_object_text l H) as [F HF]. exists F.
    intros f Hf. exists (Dict_of_entries l). split; [exact (HF f Hf)|].
    split; [reflexivity|]. split.
    - intros key. apply find_Dict_of_entries.
    - intros key. apply keys_Dict_of_entries. }
  split; [exact Dict_of_entries_duplicate|].
  intros k. apply (Load_mono 6); [vm_compute; reflexivity | discriminate | lia].
Qed.

Lemma duplicate_key_keeps_first_witness :
  printable_entries [(lit "a", VInt 1); (lit "b", VNull); (lit "a", VInt 2)] /\
  exists F, forall f, (F <= f)%nat ->
    exists d,
      Load f (object_text [(lit "a", VInt 1); (lit "b", VNull); (lit "a", VInt 2)])
      = Returns (Document_of_Dict d, []) /\
      d = Dict_of_entries [(lit "a", VInt 1); (lit "b", VNull); (lit "a", VInt 2)] /\
      (forall key, find key d
                   = first_binding key
                       [(lit "a", VInt 1); (lit "b", VNull); (lit "a", VInt 2)]) /\
      (forall key, In key (keys d) <->
                   In key (List.map fst
                             [(lit "a", VInt 1); (lit "b", VNull); (lit "a", VInt 2)])).
Proof.
  assert (H : printable_entries
                [(lit "a", VInt 1); (lit "b", VNull); (lit "a", VInt 2)]).
  { unfold printable_entries.
    repeat constructor; simpl; unfold int_range, INT_MIN, INT_MAX; lia. }
  split; [exact H|].
  exact (proj1 (proj2 duplicate_key_keeps_first) _ H).
Defined.

(** C8: an object is printed in the order of its keys, whatever the order
    in which the keys were inserted or parsed.  The order on keys is the
    lexicographic one, strict and total; a map built by any sequence of
    insertions holds every inserted key and is sorted by that order, as is
    every object the parser returns, and the same entries inserted in
    another order give the same map.  The text of an object with its entries
    written in any order loads to a document whose printed text has the
    entries in key order; and the printer emits every entry after all
    entries with smaller keys and before all entries with larger keys. *)
Theorem PrintDict_sorted_key_order :
  (forall a b, string_lt a b <->
     (exists p x a' y b', a = p ++ x :: a' /\ b = p ++ y :: b'
                          /\ to_int_type x < to_int_type y)
     \/ (exists y b', b = a ++ y :: b')) /\
  (forall a b, string_lt a b \/ a = b \/ string_lt b a) /\
  (forall l, sorted_dict (Dict_of_entries l)) /\
  (forall l k, In k (keys (Dict_of_entries l)) <-> In k (List.map fst l)) /\
  (forall l key, find key (Dict_of_entries l) = first_binding key l) /\
  (forall l l', NoDup (keys l) -> Permutation l l' ->
     Dict_of_entries l = Dict_of_entries l') /\
  (forall f input d rest, LoadNode f input = Returns (VDict d, rest) -> sorted_dict d) /\
  (forall l, printable_entries l ->
     exists F, forall f, (F <= f)%nat ->
       exists doc, Load f (object_text l) = Returns (doc, []) /\
                   Print doc = object_text (Dict_of_entries l) /\
                   sorted_dict (Dict_of_entries l) /\
                   (forall k, In k (keys (Dict_of_entries l)) <-> In k (List.map fst l))) /\
  (forall l l', printable_entries l -> NoDup (keys l) -> Permutation l l' ->
     exists F, forall f, (F <= f)%nat ->
       exists doc doc', Load f (object_text l) = Returns (doc, []) /\
                        Load f (object_text l') = Returns (doc', []) /\
                        Print doc = Print doc') /\
  (forall d1 k n d2 indent,
     sorted_dict (d1 ++ (k, n) :: d2) ->
     PrintNode (VDict (d1 ++ (k, n) :: d2)) indent =
       ["{"%char] ++ PrintDict_items PrintNode d1 true indent ++
       (match d1 with [] => [] | _ :: _ => [","%char] end) ++
       [ch_newline] ++ spaces (indent + 2) ++ PrintString k ++ lit ": " ++
       PrintNode n (indent + 2) ++
       PrintDict_items PrintNode d2 false indent ++
       [ch_newline] ++ spaces indent ++ ["}"%char]
     /\ Forall (fun k' => string_lt k' k) (keys d1)
     /\ Forall (string_lt k) (keys d2)).
Proof.
  split; [exact string_lt_lexicographic|]. split.
  { intros a b. unfold string_lt.
    destruct (string_ltb a b) eqn:E1; [now left|].
    destruct (string_ltb b a) eqn:E2; [now right; right|].
    right; left. now apply string_ltb_total. }
  split; [exact Dict_of_entries_sorted|]. split; [exact keys_Dict_of_entries|].
  split; [exact find_Dict_of_entries|].
  split; [exact Dict_of_entries_perm|]. split.
  { intros f input d rest H. apply LoadNode_well_formed in H.
    now apply well_formed_dict in H. }
  split.
  { intros l H. destruct (Load_object_text l H) as [F HF]. exists F.
    intros f Hf. exists (Document_of_Dict (Dict_of_entries l)).
    split; [exact (HF f Hf)|]. split; [reflexivity|].
    split; [apply Dict_of_entries_sorted | apply keys_Dict_of_entries]. }
  split.
  { intros l l' H Hnd HP.
    assert (H' : printable_entries l').
    { unfold printable_entries in *. rewrite Forall_forall in *.
      intros kv Hin. apply H. eapply Permutation_in; [|exact Hin].
      now apply Permutation_sym. }
    destruct (Load_object_text l H) as [F HF].
    destruct (Load_object_text l' H') as [F' HF'].
    exists (Nat.max F F'). intros f Hf.
    exists (Document_of_Dict (Dict_of_entries l)),
           (Document_of_Dict (Dict_of_entries l')).
    split; [apply HF; lia|]. split; [apply HF'; lia|].
    now rewrite (Dict_of_entries_perm l l' Hnd HP). }
  intros d1 k n d2 indent Hs. split; [|now apply sorted_dict_split in Hs].
  change (PrintNode (VDict (d1 ++ (k, n) :: d2)) indent)
    with (PrintDict PrintNode (d1 ++ (k, n) :: d2) indent).
  unfold PrintDict. rewrite PrintDict_items_app, PrintDict_items_cons.
  repeat rewrite <- app_assoc.
  destruct d1 as [|e d1]; reflexivity.
Qed.

Lemma PrintDict_sorted_key_order_witness :
  printable_entries [(lit "b", VInt 2); (lit "a", VInt 1)] /\
  (exists F, forall f, (F <= f)%nat ->
     exists doc,
       Load f (object_text [(lit "b", VInt 2); (lit "a", VInt 1)]) = Returns (doc, []) /\
       Print doc = object_text (Dict_of_entries [(lit "b", VInt 2); (lit "a", VInt 1)]) /\
       sorted_dict (Dict_of_entries [(lit "b", VInt 2); (lit "a", VInt 1)]) /\
       (forall k, In k (keys (Dict_of_entries [(lit "b", VInt 2); (lit "a", VInt 1)]))
                  <-> In k (List.map fst [(lit "b", VInt 2); (lit "a", VInt 1)]))) /\
  Dict_of_entries [(lit "b", VInt 2); (lit "a", VInt 1)]
  = Dict_of_entries [(lit "a", VInt 1); (lit "b", VInt 2)]
  /\ Forall (fun k' => string_lt k' (lit "b")) (keys [(lit "a", VInt 1)]).
Proof.
  assert (Hp : printable_entries [(lit "b", VInt 2); (lit "a", VInt 1)]).
  { unfold printable_entries.
    repeat constructor; simpl; unfold int_range, INT_MIN, INT_MAX; lia. }
  assert (Hnd : NoDup (keys [(lit "b", VInt 2); (lit "a", VInt 1)])).
  { simpl. constructor; [simpl; intros [H|[]]; discriminate H|].
    constructor; [simpl; tauto | constructor]. }
  assert (Hs : sorted_dict ([(lit "a", VInt 1)] ++ (lit "b", VInt 2) :: [])).
  { unfold sorted_dict. simpl. repeat constructor. }
  pose proof PrintDict_sorted_key_order
    as (_ & _ & _ & _ & _ & Hperm & _ & Hload & _ & Hprint).
  split; [exact Hp|]. split; [exact (Hload _ Hp)|]. split.
  - exact (Hperm _ _ Hnd (perm_swap _ _ _)).
  - exact (proj1 (proj2 (Hprint [(lit "a", VInt 1)] (lit "b") (VInt 2) [] 0%nat Hs))).
Defined.


(** * Further properties of the code *)

(** ** Type tests and accessors *)

(** X1: exactly one of the seven type tests holds for a value; [IsDouble]
    is the union of [IsInt] and [IsPureDouble]; each of [AsArray], [AsMap],
    [AsBool], [AsInt] and [AsString] returns the payload exactly when its
    type test holds and throws its logic error otherwise, so a guarded call
    always succeeds and no accessor ever reads another alternative. *)
Theorem accessors_follow_type_tests : forall n,
  length (filter (fun b : bool => b) (type_tests n)) = 1%nat /\
  IsDouble n = IsInt n || IsPureDouble n /\
  (forall a, AsArray n = Returns a <-> n = VArray a) /\
  (forall d, AsMap n = Returns d <-> n = VDict d) /\
  (forall b, AsBool n = Returns b <-> n = VBool b) /\
  (forall i, AsInt n = Returns i <-> n = VInt i) /\
  (forall s, AsString n = Returns s <-> n = VString s) /\
  (IsArray n = false <-> AsArray n = Throws (logic_error (lit "Not an array"))) /\
  (IsMap n = false <-> AsMap n = Throws (logic_error (lit "Not a map"))) /\
  (IsBool n = false <-> AsBool n = Throws (logic_error (lit "Not a bool"))) /\
  (IsInt n = false <-> AsInt n = Throws (logic_error (lit "Not an int"))) /\
  (IsString n = false <-> AsString n = Throws (logic_error (lit "Not a string"))) /\
  AsArray n <> Throws bad_variant_access /\ AsMap n <> Throws bad_variant_access /\
  AsBool n <> Throws bad_variant_access /\ AsInt n <> Throws bad_variant_access /\
  AsString n <> Throws bad_variant_access /\ AsDouble n <> Throws bad_variant_access.
Proof.
  intros n. destruct n; cbn;
    repeat (split; try reflexivity; try discriminate; try congruence);
    intros; try congruence; try discriminate.
  all: try (destruct value; reflexivity).
  all: match goal with H : _ = _ |- _ => injection H as ->; reflexivity end.
Qed.

(** ** Equality is an equivalence, up to NaN *)

Lemma same_number_sym : forall a b, same_number a b -> same_number b a.
Proof.
  intros a b [(s & t & -> & ->)|[<- Hn]]; [left; eauto | right; auto].
Qed.

Lemma same_number_trans : forall a b c,
  same_number a b -> same_number b c -> same_number a c.
Proof.
  intros a b c [(s & t & -> & ->)|[<- Hn]] [(s' & t' & E & ->)|[<- Hn']];
    try (left; eauto; fail); try (right; auto; fail).
Qed.

Lemma Forall2_sym_under : forall (A : Type) (R : A -> A -> Prop) l,
  Forall (fun x => forall y, R x y -> R y x) l ->
  forall l', Forall2 R l l' -> Forall2 R l' l.
Proof.
  induction 1 as [|x l Hx _ IH]; intros l' F; inversion F; subst; constructor; auto.
Qed.

Lemma Forall2_trans_under : forall (A : Type) (R : A -> A -> Prop) l,
  Forall (fun x => forall y z, R x y -> R y z -> R x z) l ->
  forall l' l'', Forall2 R l l' -> Forall2 R l' l'' -> Forall2 R l l''.
Proof.
  induction 1 as [|x l Hx _ IH]; intros l' l'' F G;
    inversion F; subst; inversion G; subst; constructor; eauto.
Qed.

Lemma numerically_equal_sym : forall a b,
  numerically_equal a b -> numerically_equal b a.
Proof.
  unfold numerically_equal.
  induction a as [|a IH|d IH|x|i|x|s] using Node_ind'; intros b H;
    inversion H; subst; try constructor.
  - eapply Forall2_sym_under; [exact IH | eassumption].
  - eapply Forall2_sym_under; [|eassumption].
    eapply Forall_impl; [|exact IH]. intros [k n] Hn [l m] [E1 E2]. simpl in *.
    split; [congruence | auto].
  - now apply same_number_sym.
Qed.

Lemma numerically_equal_trans : forall a b c,
  numerically_equal a b -> numerically_equal b c -> numerically_equal a c.
Proof.
  unfold numerically_equal.
  induction a as [|a IH|d IH|x|i|x|s] using Node_ind'; intros b c H1 H2;
    inversion H1; subst; inversion H2; subst; try constructor.
  - eapply Forall2_trans_under; [exact IH | eassumption | eassumption].
  - eapply Forall2_trans_under; [|eassumption|eassumption].
    eapply Forall_impl; [|exact IH].
    intros [k n] Hn [l m] [l' m'] [E1 E2] [E3 E4]. simpl in *.
    split; [congruence | eauto].
  - eapply same_number_trans; eassumption.
Qed.

(** X2: [operator==] on values is symmetric and transitive, and a value is
    equal to itself exactly when it holds no NaN; [operator!=] is its
    negation; comparing a value with an array or with a map never throws
    and gives what comparing it with the value built from that array or map
    gives. *)
Theorem Node_equality_is_equivalence :
  (forall a b, Node_eqb a b = Node_eqb b a) /\
  (forall a b c, Node_eqb a b = true -> Node_eqb b c = true -> Node_eqb a c = true) /\
  (forall a, Node_eqb a a = true <-> nan_free a = true) /\
  (forall a b, Node_neqb a b = true <-> Node_eqb a b = false) /\
  (forall n arr, Node_eqb_Array n arr = Returns (Node_eqb n (VArray arr))) /\
  (forall n dict, Node_eqb_Dict n dict = Returns (Node_eqb n (VDict dict))).
Proof.
  split; [|split; [|split; [|split; [|split]]]];
    [| | | |intros n arr; destruct n; reflexivity
     |intros n dict; destruct n; reflexivity].
  - intros a b. destruct (Node_eqb a b) eqn:E1, (Node_eqb b a) eqn:E2; trivial.
    + apply Node_eqb_numerically_equal, numerically_equal_sym,
        Node_eqb_numerically_equal in E1. congruence.
    + apply Node_eqb_numerically_equal, numerically_equal_sym,
        Node_eqb_numerically_equal in E2. congruence.
  - intros a b c H1 H2. apply Node_eqb_numerically_equal in H1, H2.
    apply Node_eqb_numerically_equal. eapply numerically_equal_trans; eassumption.
  - intros a. rewrite Node_eqb_numerically_equal. apply numerically_equal_refl.
  - intros a b. unfold Node_neqb. apply negb_true_iff.
Qed.

Lemma Node_equality_is_equivalence_witness :
  Node_eqb (VArray [VDouble (S754_zero true)]) (VArray [VDouble Double.zero]) = true /\
  Node_eqb (VArray [VDouble Double.zero]) (VArray [VDouble (Double.of_Z 0)]) = true /\
  Node_eqb (VArray [VDouble (S754_zero true)]) (VArray [VDouble (Double.of_Z 0)]) = true.
Proof.
  assert (H1 : Node_eqb (VArray [VDouble (S754_zero true)])
                 (VArray [VDouble Double.zero]) = true) by reflexivity.
  assert (H2 : Node_eqb (VArray [VDouble Double.zero])
                 (VArray [VDouble (Double.of_Z 0)]) = true) by reflexivity.
  split; [exact H1|]. split; [exact H2|].
  exact (proj1 (proj2 Node_equality_is_equivalence) _ _ _ H1 H2).
Defined.

(** ** What the parser guarantees for every input *)







(** *** The stream after a value *)

Lemma suffix_refl : forall s, suffix s s.
Proof. intros s. now exists []. Qed.

Lemma suffix_trans : forall a b c, suffix a b -> suffix b c -> suffix a c.
Proof.
  intros a b c [p ->] [q ->]. exists (q ++ p). now rewrite app_assoc.
Qed.

Lemma suffix_cons : forall c s, suffix s (c :: s).
Proof. intros c s. now exists [c]. Qed.


Lemma SkipWhitespace_suffix : forall s, suffix (SkipWhitespace s) s.
Proof.
  induction s as [|c s IH]; [apply suffix_refl|]. simpl.
  destruct (isspace _); [|apply suffix_refl].
  eapply suffix_trans; [exact IH | apply suffix_cons].
Qed.

Lemma get_suffix : forall s, suffix (snd (get s)) s.
Proof. intros [|c s]; [apply suffix_refl | apply suffix_cons]. Qed.

(** A character was read: the stream is shorter by one. *)
Lemma get_char : forall s i s' c,
  get s = (i, s') -> is_char i c = true -> s = c :: s'.
Proof.
  intros [|c0 s] i s' c H Hc; simpl in H; injection H as <- <-.
  - unfold is_char, EOF in Hc. pose proof (to_int_type_range c).
    apply Z.eqb_eq in Hc. lia.
  - unfold is_char in Hc. apply Z.eqb_eq, to_int_type_inj in Hc. now subst.
Qed.

Lemma get_to_char : forall s i s' c,
  get s = (i, s') -> Ascii.eqb (to_char i) c = true -> c <> ch_eof -> s = c :: s'.
Proof.
  intros [|c0 s] i s' c H Hc Hne; simpl in H; injection H as <- <-.
  - apply Ascii.eqb_eq in Hc. now subst.
  - rewrite to_char_to_int_type in Hc. apply Ascii.eqb_eq in Hc. now subst.
Qed.

Lemma read_char_suffix : forall st, suffix (snd (read_char st)) (snd st).
Proof.
  intros [num_str input]. unfold read_char.
  destruct (get input) as [c i] eqn:E. simpl.
  change i with (snd (c, i)). rewrite <- E. apply get_suffix.
Qed.

Lemma read_digits_suffix : forall s acc, suffix (snd (read_digits acc s)) s.
Proof.
  induction s as [|c s IH]; intros acc; [apply suffix_refl|]. simpl.
  destruct (isdigit _); [|apply suffix_refl].
  eapply suffix_trans; [apply IH | apply suffix_cons].
Qed.

Lemma scan_number_after_sign : forall s,
  scan_number s =
  scan_after_sign (if is_char (peek s) "-" then read_char ([], s) else ([], s)).
Proof. reflexivity. Qed.

Lemma scan_after_sign_suffix : forall st,
  suffix (snd (scan_after_sign st)) (snd (read_digits (fst st) (snd st))).
Proof.
  intros st. cbv beta iota zeta delta [scan_after_sign].
  set (st2 := read_digits (fst st) (snd st)).
  destruct (is_char (peek (snd st2)) ".").
  - set (st3 := read_digits (fst (read_char st2)) (snd (read_char st2))).
    assert (H3 : suffix (snd st3) (snd st2)).
    { eapply suffix_trans; [apply read_digits_suffix | apply read_char_suffix]. }
    destruct (is_char (tolower (peek (snd st3))) "e"); [|exact H3].
    cbn [snd]. eapply suffix_trans; [apply read_digits_suffix|].
    destruct (_ || _).
    + eapply suffix_trans; [apply read_char_suffix|].
      eapply suffix_trans; [apply read_char_suffix | exact H3].
    + eapply suffix_trans; [apply read_char_suffix | exact H3].
  - destruct (is_char (tolower (peek (snd st2))) "e"); [|apply suffix_refl].
    cbn [snd]. eapply suffix_trans; [apply read_digits_suffix|].
    destruct (_ || _).
    + eapply suffix_trans; [apply read_char_suffix|]. apply read_char_suffix.
    + apply read_char_suffix.
Qed.

Lemma digit_classes_agree : forall c,
  isdigit (char_to_int c) = isdigit (to_int_type c)
  /\ Ascii.eqb c "-" = is_char (to_int_type c) "-"
  /\ isalpha (char_to_int c) = isalpha (to_int_type c).
Proof. intros [[] [] [] [] [] [] [] []]; repeat split. Qed.

(** On a stream that starts with a digit or a minus sign, [LoadNumber]
    reads that character at least. *)
Lemma scan_number_progress : forall c s,
  isdigit (char_to_int c) || Ascii.eqb c "-" = true ->
  suffix (snd (scan_number (c :: s))) s.
Proof.
  intros c s H. rewrite scan_number_after_sign. cbn [peek].
  destruct (digit_classes_agree c) as (D & M & _). rewrite D, M in H.
  destruct (is_char (to_int_type c) "-") eqn:E.
  - eapply suffix_trans; [apply scan_after_sign_suffix|].
    cbn [read_char get fst snd]. apply read_digits_suffix.
  - rewrite orb_false_r in H.
    eapply suffix_trans; [apply scan_after_sign_suffix|].
    cbn [fst snd read_digits]. rewrite H. apply read_digits_suffix.
Qed.

Lemma read_alpha_spec : forall s acc,
  exists pre, fst (read_alpha acc s) = acc ++ pre /\ s = pre ++ snd (read_alpha acc s).
Proof.
  induction s as [|c s IH]; intros acc.
  - exists []. simpl. now rewrite app_nil_r.
  - simpl. destruct (isalpha _).
    + destruct (IH (acc ++ [c])) as (pre & E1 & E2). exists (c :: pre).
      rewrite E1, <- app_assoc. split; [reflexivity|]. simpl. now f_equal.
    + exists []. simpl. now rewrite app_nil_r.
Qed.

Lemma LoadStringToken_body_input : forall st,
  match LoadStringToken_body st with
  | Continue st' => ss_input st' = snd (get (ss_input st))
  | Break (_, rest) => rest = snd (get (ss_input st))
  | Throw _ => True
  end.
Proof.
  intros st. unfold LoadStringToken_body.
  destruct (get (ss_input st)) as [i input]. cbn [snd].
  destruct (_ && _); [reflexivity|].
  destruct (_ && _); [reflexivity|].
  destruct (ss_escape st); [|reflexivity].
  destruct (unescape (to_char i)); [reflexivity | exact I].
Qed.

Lemma LoadStringToken_loop_suffix : forall f st line rest,
  LoadStringToken_loop f st = Returns (line, rest) -> suffix rest (ss_input st).
Proof.
  induction f as [|f IH]; intros st line rest H; [discriminate H|].
  rewrite LoadStringToken_loop_S in H.
  pose proof (LoadStringToken_body_input st) as B.
  destruct (LoadStringToken_body st) as [st'|[l r]|e]; try discriminate H.
  - apply IH in H. rewrite B in H.
    eapply suffix_trans; [exact H | apply get_suffix].
  - injection H as <- <-. subst r. apply get_suffix.
Qed.

Lemma suffix_get_skip : forall a c b, get (SkipWhitespace a) = (c, b) -> suffix b a.
Proof.
  intros a c b H. change b with (snd (c, b)). rewrite <- H.
  eapply suffix_trans; [apply get_suffix | apply SkipWhitespace_suffix].
Qed.

Lemma suffix_skip_cons : forall a c s, SkipWhitespace a = c :: s -> suffix s a.
Proof.
  intros a c s H. eapply suffix_trans; [apply (suffix_cons c)|].
  rewrite <- H. apply SkipWhitespace_suffix.
Qed.

Lemma LoadString_progress : forall f input n rest,
  LoadString f input = Returns (n, rest) ->
  exists s', input = ch_quote :: s' /\ suffix rest s'.
Proof.
  intros f input n rest H. unfold LoadString in H.
  destruct (get input) as [c i] eqn:G.
  destruct (is_char c ch_quote) eqn:Q; [|discriminate H]. cbn [negb] in H.
  apply (get_char _ _ _ _ G) in Q.
  destruct (LoadStringToken f i) as [[s i']| |] eqn:E; simpl in H; try discriminate H.
  injection H as <- <-. exists i. split; [exact Q|].
  exact (LoadStringToken_loop_suffix _ _ _ _ E).
Qed.

Lemma LoadBoolOrNull_progress : forall input n rest,
  LoadBoolOrNull input = Returns (n, rest) ->
  exists c s', input = c :: s' /\ suffix rest s'.
Proof.
  intros input n rest H. unfold LoadBoolOrNull in H.
  destruct (read_alpha_spec input []) as (pre & E1 & E2).
  destruct (read_alpha [] input) as [token i]. cbn [fst snd app] in *. subst token.
  assert (Hne : pre <> [] /\ i = rest).
  { destruct (string_eqb pre (lit "true")) eqn:T.
    { apply string_eqb_true in T. injection H as <- <-. now subst pre. }
    destruct (string_eqb pre (lit "false")) eqn:F.
    { apply string_eqb_true in F. injection H as <- <-. now subst pre. }
    destruct (string_eqb pre (lit "null")) eqn:N; [|discriminate H].
    apply string_eqb_true in N. injection H as <- <-. now subst pre. }
  destruct Hne as [Hne ->]. destruct pre as [|c pre]; [contradiction|].
  exists c, (pre ++ rest). split; [exact E2 | now exists pre].
Qed.

Lemma LoadNumber_progress : forall input c n rest,
  to_char (peek input) = c ->
  isdigit (char_to_int c) || Ascii.eqb c "-" = true ->
  LoadNumber input = (n, rest) ->
  exists s', input = c :: s' /\ suffix rest s'.
Proof.
  intros input c n rest Hc Hd H. destruct input as [|c' s'].
  - simpl in Hc. subst c. discriminate Hd.
  - cbn [peek] in Hc. rewrite to_char_to_int_type in Hc. subst c'.
    exists s'. split; [reflexivity|].
    pose proof (scan_number_progress c s' Hd) as P. unfold LoadNumber in H.
    destruct (scan_number (c :: s')) as [[num_str b] i]. cbn [snd] in P.
    destruct b; injection H as <- <-; exact P.
Qed.

Lemma Load_progress_all : forall f : nat,
  (forall input n rest, LoadNode f input = Returns (n, rest) ->
     exists c s', SkipWhitespace input = c :: s' /\ suffix rest s') /\
  (forall input n rest, LoadArray f input = Returns (n, rest) ->
     exists s', input = "["%char :: s' /\ suffix rest s') /\
  (forall result input n rest, LoadArray_loop f result input = Returns (n, rest) ->
     exists c s', SkipWhitespace input = c :: s' /\ suffix rest s') /\
  (forall input n rest, LoadDict f input = Returns (n, rest) ->
     exists s', input = "{"%char :: s' /\ suffix rest s') /\
  (forall result input n rest, LoadDict_loop f result input = Returns (n, rest) ->
     exists c s', SkipWhitespace input = c :: s' /\ suffix rest s').
Proof.
  induction f as [|f (IHn & IHa & IHal & IHd & IHdl)].
  - repeat split; intros; discriminate.
  - repeat split.
    + intros input n rest H. rewrite LoadNode_S in H. cbv zeta in H.
      destruct (Ascii.eqb _ "[").
      { apply IHa in H as (s' & E & S). eauto. }
      destruct (Ascii.eqb _ "{").
      { apply IHd in H as (s' & E & S). eauto. }
      destruct (Ascii.eqb _ ch_quote).
      { apply LoadString_progress in H as (s' & E & S). eauto. }
      destruct (_ || _) eqn:D.
      { injection H as H.
        destruct (LoadNumber_progress _ _ _ _ eq_refl D H) as (s' & E & S). eauto. }
      destruct (isalpha _); [|discriminate H].
      now apply LoadBoolOrNull_progress in H.
    + intros input n rest H. rewrite LoadArray_S in H.
      destruct (get input) as [c i0] eqn:G.
      destruct (is_char c "[") eqn:Q; [|discriminate H]. cbn [negb] in H. cbv zeta in H.
      apply (get_char _ _ _ _ G) in Q. exists i0. split; [exact Q|].
      destruct (is_char _ "]").
      * injection H as <- <-.
        eapply suffix_trans; [apply get_suffix | apply SkipWhitespace_suffix].
      * apply IHal in H as (c' & s' & E & S). rewrite SkipWhitespace_idem in E.
        eapply suffix_trans; [exact S | exact (suffix_skip_cons _ _ _ E)].
    + intros result input n rest H. rewrite LoadArray_loop_S in H. cbv zeta in H.
      destruct (LoadNode f (SkipWhitespace input)) as [[node i1]| |] eqn:E;
        simpl in H; try discriminate H.
      apply IHn in E as (c & s' & E & S1). rewrite SkipWhitespace_idem in E.
      exists c, s'. split; [exact E|].
      destruct (get (SkipWhitespace i1)) as [ch i2] eqn:G.
      apply suffix_get_skip in G.
      destruct (Ascii.eqb _ "]").
      * injection H as <- <-. eapply suffix_trans; eassumption.
      * destruct (negb _); [discriminate H|].
        apply IHal in H as (c2 & s2 & E2 & S2).
        eapply suffix_trans; [exact S2|].
        eapply suffix_trans; [exact (suffix_skip_cons _ _ _ E2)|].
        eapply suffix_trans; eassumption.
    + intros input n rest H. rewrite LoadDict_S in H.
      destruct (get input) as [c i0] eqn:G.
      destruct (is_char c "{") eqn:Q; [|discriminate H]. cbn [negb] in H. cbv zeta in H.
      apply (get_char _ _ _ _ G) in Q. exists i0. split; [exact Q|].
      destruct (is_char _ "}").
      * injection H as <- <-.
        eapply suffix_trans; [apply get_suffix | apply SkipWhitespace_suffix].
      * apply IHdl in H as (c' & s' & E & S). rewrite SkipWhitespace_idem in E.
        eapply suffix_trans; [exact S | exact (suffix_skip_cons _ _ _ E)].
    + intros result input n rest H. rewrite LoadDict_loop_S in H. cbv zeta in H.
      destruct (get (SkipWhitespace input)) as [q i1] eqn:G.
      destruct (is_char q ch_quote) eqn:Q; [|discriminate H]. cbn [negb] in H.
      apply (get_char _ _ _ _ G) in Q. exists ch_quote, i1. split; [exact Q|].
      destruct (LoadStringToken f i1) as [[key i2]| |] eqn:K;
        simpl in H; try discriminate H.
      apply LoadStringToken_loop_suffix in K. cbn [ss_input] in K.
      destruct (get (SkipWhitespace i2)) as [colon i3] eqn:G3.
      apply suffix_get_skip in G3.
      destruct (negb (is_char colon ":")); [discriminate H|].
      destruct (LoadNode f (SkipWhitespace i3)) as [[node i4]| |] eqn:E;
        simpl in H; try discriminate H.
      apply IHn in E as (c & s' & E & S4). rewrite SkipWhitespace_idem in E.
      apply suffix_skip_cons in E.
      assert (S : suffix i4 i1).
      { eapply suffix_trans; [exact S4|]. eapply suffix_trans; [exact E|].
        eapply suffix_trans; eassumption. }
      destruct (get (SkipWhitespace i4)) as [ch i5] eqn:G5.
      apply suffix_get_skip in G5.
      destruct (Ascii.eqb _ "}").
      * injection H as <- <-. eapply suffix_trans; eassumption.
      * destruct (negb _); [discriminate H|].
        apply IHdl in H as (c2 & s2 & E2 & S2).
        eapply suffix_trans; [exact S2|].
        eapply suffix_trans; [exact (suffix_skip_cons _ _ _ E2)|].
        eapply suffix_trans; eassumption.
Qed.

(** X4: when [Load] returns, it has read at least one character, and the
    stream it leaves is the unread tail of the input: the input is what was
    read followed by what is left. *)
Theorem Load_reads_a_prefix : forall f input doc rest,
  Load f input = Returns (doc, rest) ->
  exists consumed, consumed <> [] /\ input = consumed ++ rest.
Proof.
  intros f input doc rest H. unfold Load in H.
  destruct (LoadNode f input) as [[n i]| |] eqn:E; simpl in H; try discriminate H.
  injection H as _ <-.
  apply (proj1 (Load_progress_all f)) in E as (c & s' & E & [p ->]).
  destruct (SkipWhitespace_suffix input) as [ws Hws]. rewrite E in Hws.
  exists (ws ++ c :: p). split; [destruct ws; discriminate|].
  rewrite Hws, <- app_assoc. reflexivity.
Qed.

Lemma Load_reads_a_prefix_witness :
  Load 1 (lit " 12 34") = Returns (Document_of_Node (VInt 12), lit " 34") /\
  exists consumed, consumed <> [] /\ lit " 12 34" = consumed ++ lit " 34".
Proof.
  assert (H : Load 1 (lit " 12 34") = Returns (Document_of_Node (VInt 12), lit " 34"))
    by reflexivity.
  split; [exact H | exact (Load_reads_a_prefix _ _ _ _ H)].
Defined.

(** *** Every run ends, unless a string literal is never closed *)
















(** X5: every value [Load] returns is well formed, all the way down: each
    Integer lies in the range of [int], and each Object has its keys in
    strictly increasing order, hence without duplicates. *)
Theorem Load_returns_well_formed : forall f input doc rest,
  Load f input = Returns (doc, rest) -> well_formed (GetRoot doc).
Proof.
  intros f input doc rest H. unfold Load in H.
  destruct (LoadNode f input) as [[n i]| |] eqn:E; simpl in H; try discriminate H.
  injection H as <- _. simpl. exact (LoadNode_well_formed _ _ _ _ E).
Qed.

Lemma Load_returns_well_formed_witness :
  Load 6 text_dup_key = Returns (Document_of_Dict [(lit "a", VInt 1)], []) /\
  well_formed (VDict [(lit "a", VInt 1)]).
Proof.
  assert (H : Load 6 text_dup_key = Returns (Document_of_Dict [(lit "a", VInt 1)], []))
    by (vm_compute; reflexivity).
  split; [exact H | exact (Load_returns_well_formed _ _ _ _ H)].
Defined.

(** *** The lookahead character decides the variant *)

Lemma LoadArray_loop_returns_array : forall f result input n rest,
  LoadArray_loop f result input = Returns (n, rest) -> IsArray n = true.
Proof.
  induction f as [|f IH]; intros result input n rest H; [discriminate H|].
  rewrite LoadArray_loop_S in H. cbv zeta in H.
  destruct (LoadNode f (SkipWhitespace input)) as [[node i]| |];
    simpl in H; try discriminate H.
  destruct (get (SkipWhitespace i)) as [c i'].
  destruct (Ascii.eqb _ "]"); [now injection H as <- _|].
  destruct (negb _); [discriminate H | eauto].
Qed.

Lemma LoadArray_returns_array : forall f input n rest,
  LoadArray f input = Returns (n, rest) -> IsArray n = true.
Proof.
  intros [|f] input n rest H; [discriminate H|]. rewrite LoadArray_S in H.
  destruct (get input) as [c i]. destruct (negb _); [discriminate H|]. cbv zeta in H.
  destruct (is_char _ "]"); [now injection H as <- _|].
  now apply LoadArray_loop_returns_array in H.
Qed.

Lemma LoadBoolOrNull_returns_literal : forall input n rest,
  LoadBoolOrNull input = Returns (n, rest) -> IsBool n || IsNull n = true.
Proof.
  intros input n rest H. unfold LoadBoolOrNull in H.
  destruct (read_alpha [] input) as [token i].
  repeat match type of H with
         | (if ?c then _ else _) = _ => destruct c
         end; try discriminate H; now injection H as <- _.
Qed.

(** X6: the first character after the white space decides which variant a
    returned value holds: a bracket gives an Array, a brace an Object, a
    quote a String, a digit or a minus sign a number (Integer or Double),
    and a letter a Boolean or Null. *)
Theorem LoadNode_variant_follows_lookahead : forall f input n rest,
  LoadNode f input = Returns (n, rest) ->
  announced (to_char (peek (SkipWhitespace input))) n = true.
Proof.
  intros [|f] input n rest H; [discriminate H|].
  rewrite LoadNode_S in H. cbv zeta in H. unfold announced.
  destruct (Ascii.eqb _ "["); [now apply LoadArray_returns_array in H|].
  destruct (Ascii.eqb _ "{").
  { apply LoadDict_emplaces in H as [l ->]. reflexivity. }
  destruct (Ascii.eqb _ ch_quote).
  { unfold LoadString in H. destruct (get _) as [c i].
    destruct (negb _); [discriminate H|].
    destruct (LoadStringToken f i) as [[s i']| |]; simpl in H; try discriminate H.
    now injection H as <- _. }
  destruct (_ || _).
  { injection H as H. pose proof (LoadNumber_is_number (SkipWhitespace input)) as P.
    rewrite H in P. cbn [fst] in P. unfold IsDouble, IsPureDouble in *.
    now rewrite orb_comm. }
  destruct (isalpha _); [|discriminate H].
  now apply LoadBoolOrNull_returns_literal in H.
Qed.

Lemma LoadNode_variant_follows_lookahead_witness :
  LoadNode 1 (lit "  -3.5e2,") = Returns (VDouble (Double.of_Z (-350)), lit ",") /\
  announced "-" (VDouble (Double.of_Z (-350))) = true.
Proof.
  assert (H : LoadNode 1 (lit "  -3.5e2,")
              = Returns (VDouble (Double.of_Z (-350)), lit ","))
    by (vm_compute; reflexivity).
  split; [exact H | exact (LoadNode_variant_follows_lookahead _ _ _ _ H)].
Defined.

(** ** Integer literals *)

Lemma dec_value_nonneg : forall ds,
  forallb (fun c => isdigit (to_int_type c)) ds = true -> 0 <= dec_value ds.
Proof.
  intros ds. unfold dec_value.
  assert (G : forall acc, 0 <= acc ->
            forallb (fun c => isdigit (to_int_type c)) ds = true ->
            0 <= fold_left (fun acc c => 10 * acc + digit_val c) ds acc).
  { induction ds as [|c ds IH]; intros acc Ha H; [exact Ha|].
    simpl in H. apply andb_true_iff in H as [Hc Hds]. cbn [fold_left].
    apply IH; [|exact Hds]. unfold isdigit in Hc. unfold digit_val.
    apply andb_true_iff in Hc as [H1 H2]. apply Z.leb_le in H1, H2. lia. }
  apply G. lia.
Qed.

Lemma scan_number_digits_then : forall ds rest,
  ds <> [] -> forallb (fun c => isdigit (to_int_type c)) ds = true ->
  isdigit (peek rest) = false -> is_char (peek rest) "." = false ->
  is_char (tolower (peek rest)) "e" = false ->
  scan_number (ds ++ rest) = (ds, false, rest)
  /\ scan_number ("-"%char :: ds ++ rest) = ("-"%char :: ds, false, rest).
Proof.
  intros ds rest Hne Hds R1 R2 R3.
  destruct ds as [|c ds]; [contradiction|].
  pose proof Hds as Hds'. simpl in Hds'. apply andb_true_iff in Hds' as [Hc _].
  destruct (digit_not_sign c Hc) as (S1 & _). split.
  - cbv beta iota zeta delta [scan_number fst snd].
    change (peek ((c :: ds) ++ rest)) with (to_int_type c). rewrite S1.
    rewrite read_digits_app by assumption.
    cbv beta iota zeta delta [fst snd]. rewrite R2.
    cbv beta iota zeta delta [fst snd]. rewrite R3. reflexivity.
  - cbv beta iota zeta delta [scan_number fst snd].
    change (peek ("-"%char :: (c :: ds) ++ rest)) with (to_int_type "-").
    change (is_char (to_int_type "-") "-") with true.
    cbv beta iota zeta delta [read_char get fst snd].
    change (to_char (to_int_type "-")) with "-"%char.
    rewrite read_digits_app by assumption.
    cbv beta iota zeta delta [fst snd]. rewrite R2.
    cbv beta iota zeta delta [fst snd]. rewrite R3. reflexivity.
Qed.

(** X7: a run of decimal digits, with or without a minus sign before it and
    followed by anything but a digit, a point or an exponent marker, parses
    to the Integer with that value when the value fits an [int]; a value
    beyond the range is not rejected and does not wrap around: it parses to
    the nearest bound.  Leading zeros are accepted.  The characters after
    the digits stay in the stream. *)
Theorem integer_literals_saturate : forall ds rest f,
  ds <> [] -> forallb (fun c => isdigit (to_int_type c)) ds = true ->
  isdigit (peek rest) = false -> is_char (peek rest) "." = false ->
  is_char (tolower (peek rest)) "e" = false ->
  LoadNode (S f) (ds ++ rest) = Returns (VInt (Z.min (dec_value ds) INT_MAX), rest)
  /\ LoadNode (S f) ("-"%char :: ds ++ rest)
     = Returns (VInt (Z.max (- dec_value ds) INT_MIN), rest).
Proof.
  intros ds rest f Hne Hds R1 R2 R3.
  destruct (scan_number_digits_then ds rest Hne Hds R1 R2 R3) as [E1 E2].
  destruct (extract_int_digits ds Hne Hds) as [X1 X2].
  pose proof (dec_value_nonneg ds Hds) as Hv.
  destruct ds as [|c ds']; [contradiction|].
  pose proof Hds as Hc. simpl in Hc. apply andb_true_iff in Hc as [Hc _].
  destruct (digit_not_sign c Hc) as (_ & _ & D).
  assert (Hsp : isspace (to_int_type c) = false).
  { apply number_start_class. now rewrite D. }
  split.
  - rewrite LoadNode_number.
    + cbn [app]. rewrite SkipWhitespace_nonspace by exact Hsp.
      unfold LoadNumber. cbn [app] in E1. rewrite E1, X1. repeat f_equal.
      unfold clamp, INT_MIN, INT_MAX in *. lia.
    + cbv zeta. cbn [app]. rewrite SkipWhitespace_nonspace by exact Hsp.
      cbn [peek]. now rewrite to_char_to_int_type, D.
  - rewrite LoadNode_number.
    + rewrite SkipWhitespace_nonspace by reflexivity.
      unfold LoadNumber. rewrite E2, X2. repeat f_equal.
      unfold clamp, INT_MIN, INT_MAX in *. lia.
    + reflexivity.
Qed.

Lemma integer_literals_saturate_witness :
  LoadNode 1 (lit "0099999999999" ++ lit "]x") = Returns (VInt INT_MAX, lit "]x") /\
  LoadNode 1 ("-"%char :: lit "0099999999999" ++ lit "]x")
  = Returns (VInt INT_MIN, lit "]x").
Proof.
  exact (integer_literals_saturate (lit "0099999999999") (lit "]x") 0%nat
           ltac:(discriminate) eq_refl eq_refl eq_refl eq_refl).
Defined.

(** ** Literals *)

Lemma read_alpha_alpha_prefix : forall s acc,
  read_alpha acc s = (acc ++ alpha_prefix s, skipn (length (alpha_prefix s)) s).
Proof.
  induction s as [|c s IH]; intros acc; simpl.
  - now rewrite app_nil_r.
  - destruct (isalpha _); simpl.
    + rewrite IH, <- app_assoc. reflexivity.
    + now rewrite app_nil_r.
Qed.

Lemma letter_dispatch : forall c,
  isalpha (to_int_type c) = true ->
  Ascii.eqb c "[" = false /\ Ascii.eqb c "{" = false /\ Ascii.eqb c ch_quote = false
  /\ isdigit (char_to_int c) || Ascii.eqb c "-" = false
  /\ isalpha (char_to_int c) = true.
Proof.
  intros [[] [] [] [] [] [] [] []]; vm_compute; intros H;
    try discriminate H; repeat split.
Qed.

(** X8: when the first character after the white space is a letter, the
    parser takes the whole run of letters as one word: it returns true,
    false or null when the word is exactly that keyword, in lower case, and
    leaves the stream right after the word; for any other word, a keyword
    followed by more letters included, it throws [ParsingError] with the
    message naming the whole word. *)
Theorem literals_are_whole_words : forall f input,
  alpha_prefix (SkipWhitespace input) <> [] ->
  LoadNode (S f) input =
  let word := alpha_prefix (SkipWhitespace input) in
  let rest := skipn (length word) (SkipWhitespace input) in
  if string_eqb word (lit "true") then Returns (VBool true, rest)
  else if string_eqb word (lit "false") then Returns (VBool false, rest)
  else if string_eqb word (lit "null") then Returns (VNull, rest)
  else Throws (ParsingError (lit "Unknown token: " ++ word)).
Proof.
  intros f input H. rewrite LoadNode_S. cbv zeta.
  destruct (SkipWhitespace input) as [|c s] eqn:E; [contradiction H; reflexivity|].
  cbn [alpha_prefix] in H. destruct (isalpha (to_int_type c)) eqn:A;
    [|contradiction H; reflexivity].
  cbn [peek]. rewrite to_char_to_int_type.
  destruct (letter_dispatch c A) as (H1 & H2 & H3 & H4 & H5).
  rewrite H1, H2, H3, H4, H5.
  unfold LoadBoolOrNull. rewrite read_alpha_alpha_prefix. reflexivity.
Qed.

Lemma literals_are_whole_words_witness :
  LoadNode 1 (lit " nullable") = Throws (ParsingError (lit "Unknown token: nullable")) /\
  LoadNode 1 (lit "True") = Throws (ParsingError (lit "Unknown token: True")) /\
  LoadNode 1 (lit "null,1") = Returns (VNull, lit ",1").
Proof.
  split; [|split].
  - exact (literals_are_whole_words 0%nat (lit " nullable") ltac:(discriminate)).
  - exact (literals_are_whole_words 0%nat (lit "True") ltac:(discriminate)).
  - exact (literals_are_whole_words 0%nat (lit "null,1") ltac:(discriminate)).
Defined.

(** ** Consequences of the round trip *)

(** X9: what the parser returned survives printing and loading again.  If
    [Load] returned a document and each double in it is read back from its
    own printed text (as when it holds none), then loading the printed
    document returns the same document and reads the whole text. *)
Theorem parsed_documents_reload : forall f input doc rest,
  Load f input = Returns (doc, rest) ->
  doubles_reparse (GetRoot doc) ->
  exists F, forall f', (F <= f')%nat -> Load f' (Print doc) = Returns (doc, []).
Proof.
  intros f input [n] rest H Hdr. cbn [GetRoot] in Hdr.
  assert (Hwf : well_formed n).
  { unfold Load in H.
    destruct (LoadNode f input) as [[n' i]| |] eqn:E; simpl in H; try discriminate H.
    injection H as <- _. exact (LoadNode_well_formed _ _ _ _ E). }
  destruct (round_trips_all n Hwf Hdr 0%nat [] I) as [F HF].
  exists F. intros f' Hf. unfold Load, Print. cbn [GetRoot].
  rewrite <- (app_nil_r (PrintNode n 0)). now rewrite (HF f' Hf).
Qed.

Lemma parsed_documents_reload_witness :
  Load 6 text_dup_key = Returns (Document_of_Dict [(lit "a", VInt 1)], []) /\
  exists F, forall f', (F <= f')%nat ->
    Load f' (Print (Document_of_Dict [(lit "a", VInt 1)]))
    = Returns (Document_of_Dict [(lit "a", VInt 1)], []).
Proof.
  assert (H : Load 6 text_dup_key = Returns (Document_of_Dict [(lit "a", VInt 1)], []))
    by (vm_compute; reflexivity).
  split; [exact H|].
  refine (parsed_documents_reload _ _ _ _ H _). simpl. auto.
Defined.

(** X10: printing loses nothing: two well-formed values whose doubles are
    read back from their printed text and which print to the same text are
    the same value. *)
Theorem Print_is_injective : forall n m,
  well_formed n -> doubles_reparse n -> well_formed m -> doubles_reparse m ->
  Print (Document_of_Node n) = Print (Document_of_Node m) -> n = m.
Proof.
  intros n m Wn Dn Wm Dm E. unfold Print in E. cbn [GetRoot Document_of_Node] in E.
  destruct (round_trips_all n Wn Dn 0%nat [] I) as [Fn Hn].
  destruct (round_trips_all m Wm Dm 0%nat [] I) as [Fm Hm].
  specialize (Hn (Nat.max Fn Fm) ltac:(lia)).
  specialize (Hm (Nat.max Fn Fm) ltac:(lia)).
  rewrite E, Hm in Hn. now injection Hn as ->.
Qed.

Lemma Print_is_injective_witness :
  well_formed (VArray [VInt 1; VString (lit "1")]) /\
  doubles_reparse (VArray [VInt 1; VString (lit "1")]) /\
  VArray [VInt 1; VString (lit "1")] = VArray [VInt 1; VString (lit "1")].
Proof.
  assert (W : well_formed (VArray [VInt 1; VString (lit "1")])).
  { simpl. unfold int_range, INT_MIN, INT_MAX. repeat split; lia. }
  assert (D : doubles_reparse (VArray [VInt 1; VString (lit "1")])) by (simpl; auto).
  split; [exact W|]. split; [exact D|].
  exact (Print_is_injective _ _ W D W D eq_refl).
Defined.

(** ** Building a map from entries *)

Lemma sorted_dict_NoDup : forall d, sorted_dict d -> NoDup (keys d).
Proof.
  induction d as [|[k n] d IH]; intros H; [constructor|].
  apply sorted_dict_cons in H as [Hs Hall]. simpl. constructor; [|auto].
  intros Hin. rewrite Forall_forall in Hall. apply Hall in Hin.
  unfold string_lt in Hin. now rewrite string_ltb_irrefl in Hin.
Qed.

Lemma length_emplace : forall key node d,
  (length (emplace key node d) <= S (length d))%nat
  /\ (~ In key (keys d) -> length (emplace key node d) = S (length d)).
Proof.
  intros key node d. induction d as [|[k n] d [IH1 IH2]]; simpl.
  - split; [lia | reflexivity].
  - destruct (string_ltb key k) eqn:E1; [simpl; split; [lia | reflexivity]|].
    destruct (string_ltb k key) eqn:E2; simpl.
    + split; [lia|]. intros H. rewrite IH2; [reflexivity|]. tauto.
    + assert (key = k) by now apply string_ltb_total. subst.
      split; [lia|]. intros H. exfalso. apply H. now left.
Qed.

(** X11: a map built by inserting entries one after the other, as
    [LoadDict] and the constructor from a list of pairs do, has every key of
    the entries, each of them once, and no other key; it has as many entries
    as the list when the keys of the list are distinct and fewer when a key
    is repeated. *)
Theorem Dict_of_entries_keeps_every_key : forall l,
  NoDup (keys (Dict_of_entries l)) /\
  (forall k, In k (keys (Dict_of_entries l)) <-> In k (List.map fst l)) /\
  (length (Dict_of_entries l) <= length l)%nat /\
  (NoDup (List.map fst l) <-> length (Dict_of_entries l) = length l).
Proof.
  intros l. split; [apply sorted_dict_NoDup, Dict_of_entries_sorted|].
  induction l as [|[k n] l (IHk & IHl & IHn)] using rev_ind.
  - repeat split; simpl; auto; try tauto. constructor.
  - rewrite Dict_of_entries_snoc, map_app, length_app. cbn [List.map length fst].
    destruct (length_emplace k n (Dict_of_entries l)) as [L1 L2].
    assert (Hk : forall k', In k' (keys (emplace k n (Dict_of_entries l)))
                            <-> In k' (List.map fst l ++ [k])).
    { intros k'. rewrite keys_emplace, in_app_iff, IHk. simpl. intuition. }
    split; [exact Hk|]. split; [lia|]. split.
    + intros Hnd. apply NoDup_remove in Hnd as [Hnd Hnot]. rewrite app_nil_r in *.
      rewrite L2; [|now rewrite IHk]. apply IHn in Hnd. lia.
    + intros Hlen.
      assert (Hfull : length (Dict_of_entries l) = length l) by lia.
      assert (Hnot : ~ In k (List.map fst l)).
      { intros Hin. apply IHk in Hin.
        rewrite (emplace_present k n _ (Dict_of_entries_sorted l) Hin) in Hlen. lia. }
      apply NoDup_app; [now apply IHn | constructor; [tauto | constructor] |].
      intros a Ha [<-|[]]. contradiction.
Qed.

Lemma Dict_of_entries_keeps_every_key_witness :
  NoDup (List.map fst [(lit "b", VInt 2); (lit "a", VInt 1)]) /\
  length (Dict_of_entries [(lit "b", VInt 2); (lit "a", VInt 1)]) = 2%nat.
Proof.
  assert (H : NoDup (List.map fst [(lit "b", VInt 2); (lit "a", VInt 1)])).
  { simpl. constructor; [simpl; intros [E|[]]; discriminate E|].
    constructor; [simpl; tauto | constructor]. }
  split; [exact H|].
  exact (proj1 (proj2 (proj2 (proj2 (Dict_of_entries_keeps_every_key _)))) H).
Defined.

(** ** The layout of printed text *)

Lemma forallb_firstn : forall (A : Type) (P : A -> bool) n l,
  forallb P l = true -> forallb P (firstn n l) = true.
Proof.
  intros A P n. induction n as [|n IH]; intros [|x l] H; try reflexivity.
  simpl in *. apply andb_true_iff in H as [H1 H2]. now rewrite H1, IH.
Qed.

Lemma forallb_skipn : forall (A : Type) (P : A -> bool) n l,
  forallb P l = true -> forallb P (skipn n l) = true.
Proof.
  intros A P n. induction n as [|n IH]; intros [|x l] H; try reflexivity; trivial.
  simpl in *. apply andb_true_iff in H as [H1 H2]. now apply IH.
Qed.

Lemma forallb_rev : forall (A : Type) (P : A -> bool) l,
  forallb P l = true -> forallb P (rev l) = true.
Proof.
  intros A P l H. rewrite forallb_forall in *. intros x Hx.
  apply H. now apply in_rev.
Qed.

Lemma forallb_drop_zeros : forall P l,
  forallb P l = true -> forallb P (Double.drop_zeros l) = true.
Proof.
  intros P. induction l as [|c l IH]; intros H; [reflexivity|].
  simpl. destruct (Ascii.eqb c "0"); [|exact H].
  simpl in H. apply andb_true_iff in H as [_ H]. auto.
Qed.

Lemma forallb_strip_zeros : forall P l,
  forallb P l = true -> forallb P (Double.strip_zeros l) = true.
Proof.
  intros P l H. unfold Double.strip_zeros.
  now apply forallb_rev, forallb_drop_zeros, forallb_rev.
Qed.

Lemma number_char_digit : forall d, 0 <= d < 10 -> number_char (digit_char d) = true.
Proof.
  intros d H. unfold number_char. now rewrite isdigit_digit_char.
Qed.

Lemma dec_digits_number_chars : forall fuel n acc,
  forallb number_char acc = true -> forallb number_char (dec_digits fuel n acc) = true.
Proof.
  induction fuel as [|fuel IH]; intros n acc H; [exact H|].
  assert (Hc : forallb number_char (digit_char (n mod 10) :: acc) = true).
  { simpl. rewrite H, number_char_digit; [reflexivity|].
    apply Z.mod_pos_bound. lia. }
  cbn [dec_digits]. destruct (n <? 10); [exact Hc | now apply IH].
Qed.

Lemma Z_to_dec_number_chars : forall n, forallb number_char (Z_to_dec n) = true.
Proof. intros n. unfold Z_to_dec. now apply dec_digits_number_chars. Qed.

Lemma print_int_number_chars : forall i, forallb number_char (print_int i) = true.
Proof.
  intros i. unfold print_int. destruct (i <? 0); [|apply Z_to_dec_number_chars].
  simpl. apply Z_to_dec_number_chars.
Qed.

Lemma with_point_number_chars : forall s,
  forallb number_char s = true -> forallb number_char (Double.with_point s) = true.
Proof. intros [|c s] H; [reflexivity | exact H]. Qed.

Lemma repeat_zero_number_chars : forall n, forallb number_char (repeat "0"%char n) = true.
Proof. induction n as [|n IH]; [reflexivity | exact IH]. Qed.

Lemma exponent_field_number_chars : forall x,
  forallb number_char (Double.exponent_field x) = true.
Proof.
  intros x. unfold Double.exponent_field.
  pose proof (Z_to_dec_number_chars (Z.abs x)) as H.
  destruct (x <? 0), (length (Z_to_dec (Z.abs x)) <? 2)%nat; simpl; exact H.
Qed.

Lemma g_format_number_chars : forall v, forallb number_char (Double.g_format v) = true.
Proof.
  intros v. unfold Double.g_format.
  destruct v as [s|s| |s m e]; try (destruct s; reflexivity); try reflexivity.
  destruct (Double.six_digits m e) as [d x].
  pose proof (Z_to_dec_number_chars d) as Hd.
  rewrite forallb_app. apply andb_true_iff. split; [destruct s; reflexivity|].
  destruct (_ || _).
  - rewrite !forallb_app, forallb_firstn, exponent_field_number_chars by exact Hd.
    rewrite with_point_number_chars; [reflexivity|].
    now apply forallb_strip_zeros, forallb_skipn.
  - destruct (x <? 0).
    + rewrite !forallb_app, repeat_zero_number_chars.
      rewrite forallb_strip_zeros by exact Hd. reflexivity.
    + rewrite forallb_app, forallb_firstn by exact Hd.
      rewrite with_point_number_chars; [reflexivity|].
      now apply forallb_strip_zeros, forallb_skipn.
Qed.

Lemma PrintDouble_number_chars : forall v, forallb number_char (PrintDouble v) = true.
Proof.
  intros v. unfold PrintDouble. rewrite forallb_app, g_format_number_chars.
  destruct (Double.eqb _ _ && Double.ltb _ _); reflexivity.
Qed.

Lemma number_char_not_control : forall c, number_char c = true -> is_control c = false.
Proof.
  intros [[] [] [] [] [] [] [] []]; vm_compute; intros H;
    try discriminate H; reflexivity.
Qed.

Lemma forallb_impl : forall (A : Type) (P Q : A -> bool) l,
  (forall x, P x = true -> Q x = true) -> forallb P l = true -> forallb Q l = true.
Proof.
  intros A P Q l H. rewrite !forallb_forall. auto.
Qed.

Lemma PrintString_no_control : forall s,
  forallb (fun c => negb (is_control c)) (PrintString s) = true.
Proof.
  intros s. unfold PrintString. rewrite !forallb_app. cbn [forallb].
  change (negb (is_control ch_quote)) with true. cbn [andb].
  rewrite andb_true_r.
  induction s as [|c s IH]; [reflexivity|].
  cbn [flat_map]. rewrite forallb_app, IH, andb_true_r.
  destruct (PrintString_char_cases c)
    as [[E H]|[[E H]|[[E H]|[[E H]|[[E H]|(N1 & N2 & N3 & Hp & H)]]]]];
    rewrite H; try reflexivity.
  cbn [forallb]. rewrite andb_true_r. unfold is_control.
  destruct (Ascii.eqb_spec c ch_newline); [contradiction|].
  destruct (Ascii.eqb_spec c ch_return); [contradiction|].
  destruct (Ascii.eqb_spec c ch_tab); [contradiction|]. reflexivity.
Qed.

Lemma no_control_split : forall s,
  forallb (fun c => negb (is_control c)) s = true ->
  one_line s = true /\ no_tab_or_return s = true.
Proof.
  intros s H. unfold one_line, no_tab_or_return. split.
  - eapply forallb_impl; [|exact H]. intros c Hc. unfold is_control in Hc.
    destruct (Ascii.eqb c ch_newline); [discriminate Hc | reflexivity].
  - eapply forallb_impl; [|exact H]. intros c Hc. unfold is_control in Hc.
    destruct (Ascii.eqb c ch_newline), (Ascii.eqb c ch_tab), (Ascii.eqb c ch_return);
      try discriminate Hc; reflexivity.
Qed.

Lemma one_line_indented : forall k s, one_line s = true -> lines_indented k s = true.
Proof.
  intros k. induction s as [|c s IH]; intros H; [reflexivity|].
  unfold one_line in *. simpl in *. apply andb_true_iff in H as [Hc Hs].
  apply negb_true_iff in Hc. rewrite Hc. now apply IH.
Qed.

Lemma firstn_app_full : forall (A : Type) k (l l2 : list A),
  length (firstn k l) = k -> firstn k (l ++ l2) = firstn k l.
Proof.
  intros A. induction k as [|k IH]; intros [|x l] l2 H; try reflexivity.
  - discriminate H.
  - simpl in *. f_equal. apply IH. lia.
Qed.

Lemma firstn_spaces : forall k j, (k <= j)%nat -> firstn k (spaces j) = spaces k.
Proof.
  unfold spaces. induction k as [|k IH]; intros [|j] H; try reflexivity; [lia|].
  simpl. f_equal. apply IH. lia.
Qed.

Lemma length_spaces : forall k, length (spaces k) = k.
Proof. intros k. apply repeat_length. Qed.

Lemma lines_indented_app : forall k s1 s2,
  lines_indented k s1 = true -> lines_indented k s2 = true ->
  lines_indented k (s1 ++ s2) = true.
Proof.
  intros k. induction s1 as [|c s1 IH]; intros s2 H1 H2; [exact H2|].
  cbn [app lines_indented] in *. apply andb_true_iff in H1 as [Hc Hs].
  rewrite (IH s2 Hs H2), andb_true_r.
  destruct (Ascii.eqb c ch_newline); [|reflexivity].
  apply string_eqb_true in Hc. apply string_eqb_true.
  rewrite firstn_app_full; [exact Hc|]. now rewrite Hc, length_spaces.
Qed.

Lemma lines_indented_line : forall k j rest,
  (k <= j)%nat -> lines_indented k rest = true ->
  lines_indented k (ch_newline :: spaces j ++ rest) = true.
Proof.
  intros k j rest Hj H. cbn [lines_indented].
  change (Ascii.eqb ch_newline ch_newline) with true. cbv iota.
  apply andb_true_iff. split.
  - apply string_eqb_true. rewrite firstn_app_full.
    + now apply firstn_spaces.
    + rewrite firstn_spaces by exact Hj. apply length_spaces.
  - apply lines_indented_app; [|exact H]. apply one_line_indented.
    unfold one_line, spaces. clear. induction j as [|j IH]; [reflexivity | exact IH].
Qed.

Lemma lines_indented_mono : forall k k' s,
  (k <= k')%nat -> lines_indented k' s = true -> lines_indented k s = true.
Proof.
  intros k k' s Hk. induction s as [|c s IH]; intros H; [reflexivity|].
  cbn [lines_indented] in *. apply andb_true_iff in H as [Hc Hs].
  rewrite (IH Hs), andb_true_r.
  destruct (Ascii.eqb c ch_newline); [|reflexivity].
  apply string_eqb_true in Hc. apply string_eqb_true.
  rewrite <- (firstn_spaces k k' Hk), <- Hc, firstn_firstn.
  now rewrite Nat.min_l by exact Hk.
Qed.

Lemma no_tab_or_return_app : forall s1 s2,
  no_tab_or_return (s1 ++ s2) = no_tab_or_return s1 && no_tab_or_return s2.
Proof. intros s1 s2. apply forallb_app. Qed.

Lemma no_tab_or_return_spaces : forall k, no_tab_or_return (spaces k) = true.
Proof. induction k as [|k IH]; [reflexivity | exact IH]. Qed.

Lemma scalar_text_no_control : forall n indent,
  IsArray n = false -> IsMap n = false ->
  forallb (fun c => negb (is_control c)) (PrintNode n indent) = true.
Proof.
  intros n indent Ha Hm. destruct n as [|a|d|b|i|x|s]; try discriminate; cbn [PrintNode].
  - reflexivity.
  - destruct b; reflexivity.
  - eapply forallb_impl; [|apply print_int_number_chars].
    intros c Hc. now rewrite number_char_not_control.
  - eapply forallb_impl; [|apply PrintDouble_number_chars].
    intros c Hc. now rewrite number_char_not_control.
  - apply PrintString_no_control.
Qed.

Lemma PrintNode_layout : forall n indent,
  lines_indented indent (PrintNode n indent) = true
  /\ no_tab_or_return (PrintNode n indent) = true.
Proof.
  induction n as [|a IH|d IH|b|i|x|s] using Node_ind'; intros indent;
    try (match goal with |- context [PrintNode ?v indent] =>
           destruct (no_control_split _ (scalar_text_no_control v indent eq_refl eq_refl))
             as [O T] end; split; [now apply one_line_indented | exact T]).
  - change (PrintNode (VArray a) indent) with (PrintArray PrintNode a indent).
    unfold PrintArray.
    assert (Hitems : forall first,
              lines_indented indent (PrintArray_items PrintNode a first indent) = true
              /\ no_tab_or_return (PrintArray_items PrintNode a first indent) = true).
    { induction IH as [|x a Hx _ IHa]; intros first; [split; reflexivity|].
      rewrite PrintArray_items_cons. destruct (Hx (indent + 2)%nat) as [L T].
      destruct (IHa false) as [L' T']. split.
      - apply lines_indented_app; [destruct first; reflexivity|].
        apply (lines_indented_line indent (indent + 2)); [lia|].
        apply lines_indented_app; [|exact L'].
        apply (lines_indented_mono indent (indent + 2)); [lia | exact L].
      - rewrite !no_tab_or_return_app, no_tab_or_return_spaces, T, T'.
        destruct first; reflexivity. }
    destruct (Hitems true) as [L T]. split.
    + apply lines_indented_app; [reflexivity|]. apply lines_indented_app; [exact L|].
      destruct a; [reflexivity|].
      rewrite <- app_assoc. apply (lines_indented_line indent indent); [lia | reflexivity].
    + rewrite !no_tab_or_return_app, T.
      destruct a; [reflexivity|].
      rewrite no_tab_or_return_app, no_tab_or_return_spaces. reflexivity.
  - change (PrintNode (VDict d) indent) with (PrintDict PrintNode d indent).
    unfold PrintDict.
    assert (Hitems : forall first,
              lines_indented indent (PrintDict_items PrintNode d first indent) = true
              /\ no_tab_or_return (PrintDict_items PrintNode d first indent) = true).
    { induction IH as [|[k x] d Hx _ IHd]; intros first; [split; reflexivity|].
      rewrite PrintDict_items_cons. destruct (Hx (indent + 2)%nat) as [L T].
      cbn [snd] in L, T. destruct (IHd false) as [L' T'].
      destruct (no_control_split _ (PrintString_no_control k)) as [Ok Tk]. split.
      - apply lines_indented_app; [destruct first; reflexivity|].
        apply (lines_indented_line indent (indent + 2)); [lia|].
        apply lines_indented_app; [now apply one_line_indented|].
        apply lines_indented_app; [reflexivity|].
        apply lines_indented_app; [|exact L'].
        apply (lines_indented_mono indent (indent + 2)); [lia | exact L].
      - rewrite !no_tab_or_return_app, no_tab_or_return_spaces, Tk, T, T'.
        destruct first; reflexivity. }
    destruct (Hitems true) as [L T]. split.
    + apply lines_indented_app; [reflexivity|]. apply lines_indented_app; [exact L|].
      destruct d; [reflexivity|].
      rewrite <- app_assoc. apply (lines_indented_line indent indent); [lia | reflexivity].
    + rewrite !no_tab_or_return_app, T.
      destruct d; [reflexivity|].
      rewrite no_tab_or_return_app, no_tab_or_return_spaces. reflexivity.
Qed.

(** X12: the layout of printed text.  Whatever the value, every line feed
    in its text printed at indentation [indent] is followed by [indent]
    spaces at least, so the lines of a nested value never start left of the
    value; a value that is neither an Array nor an Object is printed on one
    line; and the text holds no tab and no carriage return: the line feeds,
    tabs and carriage returns of strings and keys are always written as
    escapes. *)
Theorem printed_text_layout : forall n indent,
  lines_indented indent (PrintNode n indent) = true /\
  no_tab_or_return (PrintNode n indent) = true /\
  (IsArray n = false -> IsMap n = false -> one_line (PrintNode n indent) = true).
Proof.
  intros n indent. destruct (PrintNode_layout n indent) as [L T].
  split; [exact L|]. split; [exact T|]. intros Ha Hm.
  exact (proj1 (no_control_split _ (scalar_text_no_control n indent Ha Hm))).
Qed.

Lemma printed_text_layout_witness :
  one_line (PrintNode (VString (lit "a" ++ [ch_newline; ch_tab] ++ lit "b")) 4) = true.
Proof.
  exact (proj2 (proj2 (printed_text_layout
           (VString (lit "a" ++ [ch_newline; ch_tab] ++ lit "b")) 4%nat)) eq_refl eq_refl).
Defined.

(** ** String literals: where the scan ends *)

Lemma LoadStringToken_loop_ends_at_quote : forall f st s rest,
  LoadStringToken_loop f st = Returns (s, rest) ->
  exists body, ss_input st = body ++ ch_quote :: rest
               /\ (length s <= length (ss_line st) + length body)%nat.
Proof.
  induction f as [|f IH]; intros [input line escape] s rest H; [discriminate H|].
  rewrite LoadStringToken_loop_S in H. cbn [ss_input ss_line].
  destruct input as [|c input].
  - destruct escape; [discriminate H|].
    rewrite body_eof, LoadStringToken_loop_eof in H. discriminate H.
  - destruct escape.
    + rewrite body_escaped in H. destruct (unescape c) as [c'|]; [|discriminate H].
      apply IH in H as (body & E & L). cbn [ss_input ss_line] in *.
      exists (c :: body). split; [now rewrite E|].
      rewrite length_app in L. simpl in *. lia.
    + destruct (Ascii.eqb_spec c ch_backslash) as [->|Nb].
      { rewrite body_backslash in H. apply IH in H as (body & E & L).
        cbn [ss_input ss_line] in *. exists (ch_backslash :: body).
        split; [now rewrite E | simpl; lia]. }
      destruct (Ascii.eqb_spec c ch_quote) as [->|Nq].
      { rewrite body_quote in H. injection H as <- <-. exists []. split; [reflexivity|lia]. }
      rewrite body_plain in H.
      * apply IH in H as (body & E & L). cbn [ss_input ss_line] in *.
        exists (c :: body). split; [now rewrite E|].
        rewrite length_app in L. simpl in *. lia.
      * unfold plain_char. apply andb_true_iff.
        split; apply negb_true_iff; now apply Ascii.eqb_neq.
Qed.

Lemma LoadStringToken_loop_verbatim : forall body line rest f,
  forallb plain_char body = true -> (length body < f)%nat ->
  LoadStringToken_loop f
    {| ss_input := body ++ ch_quote :: rest; ss_line := line; ss_escape := false |}
  = Returns (line ++ body, rest).
Proof.
  induction body as [|c body IH]; intros line rest f Hp Hf.
  - destruct f as [|f]; [simpl in Hf; lia|].
    rewrite LoadStringToken_loop_S. cbn [app]. rewrite body_quote. now rewrite app_nil_r.
  - simpl in Hp. apply andb_true_iff in Hp as [Hc Hp].
    destruct f as [|f]; [simpl in Hf; lia|]. cbn [app].
    rewrite LoadStringToken_loop_S, body_plain by exact Hc.
    rewrite IH by (trivial; simpl in Hf; lia). now rewrite <- app_assoc.
Qed.

(** X13: when the string scanner returns, it stopped at a closing quote:
    the input is the body of the literal, that quote, and the stream that is
    left; the string it returns is never longer than the body.  A body
    without quote and backslash is returned as it is, whatever its
    characters: raw line feeds, tabs and bytes above 0x7F are accepted. *)
Theorem LoadStringToken_ends_at_quote :
  (forall f input s rest,
     LoadStringToken f input = Returns (s, rest) ->
     exists body, input = body ++ ch_quote :: rest /\ (length s <= length body)%nat) /\
  (forall body rest k,
     forallb plain_char body = true ->
     LoadStringToken (S (length body) + k) (body ++ ch_quote :: rest)
     = Returns (body, rest)).
Proof.
  split.
  - intros f input s rest H. unfold LoadStringToken in H.
    apply LoadStringToken_loop_ends_at_quote in H as (body & E & L).
    cbn [ss_input ss_line length] in *. eauto.
  - intros body rest k H. unfold LoadStringToken.
    rewrite LoadStringToken_loop_verbatim by (trivial; lia). reflexivity.
Qed.

Lemma LoadStringToken_ends_at_quote_witness :
  forallb plain_char [ch_newline; ch_tab; ch_eof] = true /\
  LoadStringToken 4 ([ch_newline; ch_tab; ch_eof] ++ ch_quote :: lit ",1")
  = Returns ([ch_newline; ch_tab; ch_eof], lit ",1").
Proof.
  assert (H : forallb plain_char [ch_newline; ch_tab; ch_eof] = true) by reflexivity.
  split; [exact H|].
  exact (proj2 LoadStringToken_ends_at_quote [ch_newline; ch_tab; ch_eof] (lit ",1")
           0%nat H).
Defined.

(** ** Numbers: the lexeme and the variant *)

Lemma peek_is_char : forall s c,
  is_char (peek s) c = true -> exists s', s = c :: s'.
Proof.
  intros [|c0 s] c H.
  - unfold is_char, peek, EOF in H. pose proof (to_int_type_range c).
    apply Z.eqb_eq in H. lia.
  - unfold is_char, peek in H. apply Z.eqb_eq, to_int_type_inj in H. subst. eauto.
Qed.

Lemma peek_is_exponent : forall s,
  is_char (tolower (peek s)) "e" = true ->
  exists c s', s = c :: s' /\ is_marker c = true.
Proof.
  intros [|c s] H; [discriminate H|]. exists c, s. split; [reflexivity|].
  revert H. cbn [peek]. destruct c as [[] [] [] [] [] [] [] []];
    vm_compute; intros H; (reflexivity || discriminate H).
Qed.

Lemma read_char_cons : forall acc c s, read_char (acc, c :: s) = (acc ++ [c], s).
Proof. intros. unfold read_char, get. now rewrite to_char_to_int_type. Qed.

Lemma scanned_read_char : forall input st m c s',
  scanned input st m -> snd st = c :: s' ->
  scanned input (read_char st) (m || is_marker c).
Proof.
  intros input [acc s] m c s' [E M] H. cbn [fst snd] in *. subst s.
  rewrite read_char_cons. split; cbn [fst snd].
  - now rewrite <- app_assoc.
  - rewrite existsb_app, M. simpl. now rewrite orb_false_r.
Qed.

Lemma scanned_read_digits : forall s input acc m,
  scanned input (acc, s) m -> scanned input (read_digits acc s) m.
Proof.
  induction s as [|c s IH]; intros input acc m H; [exact H|]. simpl.
  destruct (isdigit (to_int_type c)) eqn:D; [|exact H].
  apply IH. replace m with (m || is_marker c).
  - pose proof (scanned_read_char input (acc, c :: s) m c s H eq_refl) as R.
    now rewrite read_char_cons in R.
  - assert (N : is_marker c = false).
    { revert D. destruct c as [[] [] [] [] [] [] [] []]; vm_compute;
        intros D; (reflexivity || discriminate D). }
    now rewrite N, orb_false_r.
Qed.

Lemma scanned_digits : forall input st m,
  scanned input st m -> scanned input (read_digits (fst st) (snd st)) m.
Proof. intros input [acc s] m H. now apply scanned_read_digits. Qed.

Lemma scan_number_scanned : forall input,
  scanned input (fst (fst (scan_number input)), snd (scan_number input))
          (snd (fst (scan_number input))).
Proof.
  intros input. unfold scan_number.
  assert (H0 : scanned input
            (if is_char (peek input) "-" then read_char ([], input) else ([], input))
            false).
  { destruct (is_char (peek input) "-") eqn:E; [|now split].
    destruct (peek_is_char _ _ E) as [s' ->].
    now apply (scanned_read_char _ ([], "-"%char :: s') false "-"%char s'). }
  cbn [fst snd].
  set (st0 := if is_char (peek input) "-" then read_char ([], input) else ([], input)) in *.
  apply scanned_digits in H0.
  set (st1 := read_digits (fst st0) (snd st0)) in *.
  assert (H2 : scanned input
            (fst (if is_char (peek (snd st1)) "."
                  then (let st := read_char st1 in (read_digits (fst st) (snd st), true))
                  else (st1, false)))
            (snd (if is_char (peek (snd st1)) "."
                  then (let st := read_char st1 in (read_digits (fst st) (snd st), true))
                  else (st1, false)))).
  { destruct (is_char (peek (snd st1)) ".") eqn:E; [|exact H0].
    destruct (peek_is_char _ _ E) as [s' Es]. cbn [fst snd].
    apply scanned_digits. exact (scanned_read_char _ _ _ _ _ H0 Es). }
  destruct (if is_char (peek (snd st1)) "."
            then (let st := read_char st1 in (read_digits (fst st) (snd st), true))
            else (st1, false)) as [st2 d2].
  cbn [fst snd] in H2.
  destruct (is_char (tolower (peek (snd st2))) "e") eqn:E.
  - destruct (peek_is_exponent _ E) as (c & s' & Es & Mc).
    pose proof (scanned_read_char _ _ _ _ _ H2 Es) as H3.
    rewrite Mc, orb_true_r in H3.
    set (st3 := read_char st2) in *.
    assert (H4 : scanned input
              (if is_char (peek (snd st3)) "+" || is_char (peek (snd st3)) "-"
               then read_char st3 else st3) true).
    { destruct (is_char (peek (snd st3)) "+") eqn:Ep.
      - destruct (peek_is_char _ _ Ep) as [s'' Es'']. cbn [orb].
        exact (scanned_read_char _ _ _ _ _ H3 Es'').
      - destruct (is_char (peek (snd st3)) "-") eqn:Em; [|exact H3].
        destruct (peek_is_char _ _ Em) as [s'' Es'']. cbn [orb].
        exact (scanned_read_char _ _ _ _ _ H3 Es''). }
    apply scanned_digits in H4. cbn [fst snd].
    destruct (read_digits _ _). exact H4.
  - cbn [fst snd]. destruct st2. exact H2.
Qed.

Lemma scan_after_sign_stages : forall st,
  scan_after_sign st = scan_exponent (scan_fraction (read_digits (fst st) (snd st))).
Proof. reflexivity. Qed.

Lemma digit_is_no_mark : forall c,
  isdigit (to_int_type c) = true ->
  is_char (to_int_type c) "." = false /\
  is_char (tolower (to_int_type c)) "e" = false /\
  is_char (to_int_type c) "+" = false /\
  is_char (to_int_type c) "-" = false.
Proof.
  intros [[] [] [] [] [] [] [] []]; vm_compute; intros H;
    try discriminate H; repeat split.
Qed.

Lemma marker_is_exponent : forall e,
  Ascii.eqb e "e" || Ascii.eqb e "E" = true ->
  isdigit (to_int_type e) = false /\
  is_char (to_int_type e) "." = false /\
  is_char (tolower (to_int_type e)) "e" = true.
Proof.
  intros [[] [] [] [] [] [] [] []]; vm_compute; intros H;
    try discriminate H; repeat split.
Qed.

Lemma sign_is_sign : forall c,
  Ascii.eqb c "+" || Ascii.eqb c "-" = true ->
  is_char (to_int_type c) "+" || is_char (to_int_type c) "-" = true /\
  isdigit (to_int_type c) = false.
Proof.
  intros [[] [] [] [] [] [] [] []]; vm_compute; intros H;
    try discriminate H; repeat split.
Qed.

Lemma scan_fraction_some : forall acc ds tail,
  all_digits ds = true -> isdigit (peek tail) = false ->
  scan_fraction (acc, "."%char :: ds ++ tail) = ((acc ++ "."%char :: ds, tail), true).
Proof.
  intros acc ds tail Hds Ht. unfold all_digits in Hds. unfold scan_fraction. cbn [snd peek].
  change (is_char (to_int_type ".") ".") with true. cbv iota zeta.
  rewrite read_char_cons. cbn [fst snd].
  rewrite read_digits_app by assumption. now rewrite <- app_assoc.
Qed.

Lemma scan_fraction_none : forall st,
  is_char (peek (snd st)) "." = false -> scan_fraction st = (st, false).
Proof. intros st H. unfold scan_fraction. now rewrite H. Qed.

Lemma scan_exponent_none : forall acc tail d,
  is_char (tolower (peek tail)) "e" = false ->
  scan_exponent ((acc, tail), d) = (acc, d, tail).
Proof. intros acc tail d H. unfold scan_exponent. cbn [snd]. now rewrite H. Qed.

Lemma scan_exponent_some : forall acc e sg ds rest d,
  exponent_ok (Some (e, sg, ds)) = true ->
  isdigit (peek rest) = false ->
  match sg, ds with
  | [], [] => is_char (peek rest) "+" || is_char (peek rest) "-" = false
  | _, _ => True
  end ->
  scan_exponent ((acc, e :: sg ++ ds ++ rest), d) = (acc ++ e :: sg ++ ds, true, rest).
Proof.
  intros acc e sg ds rest d Hok Hr Hs. cbn [exponent_ok] in Hok.
  apply andb_true_iff in Hok as [Hok Hds]. apply andb_true_iff in Hok as [He Hsg].
  destruct (marker_is_exponent e He) as (_ & _ & Me).
  unfold all_digits in Hds.
  unfold scan_exponent. cbn [snd peek]. rewrite Me. cbv zeta.
  rewrite read_char_cons. cbn [fst snd].
  destruct sg as [|c [|c' sg]]; [| |discriminate Hsg].
  - cbn [app].
    assert (Hp : is_char (peek (ds ++ rest)) "+" || is_char (peek (ds ++ rest)) "-" = false).
    { destruct ds as [|x ds]; [exact Hs|]. cbn [app peek].
      cbn [forallb] in Hds. apply andb_true_iff in Hds as [Hx _].
      destruct (digit_is_no_mark x Hx) as (_ & _ & P & M). now rewrite P, M. }
    rewrite Hp. cbv iota. cbn [fst snd]. rewrite read_digits_app by assumption.
    cbn [fst snd]. now rewrite <- app_assoc.
  - destruct (sign_is_sign c Hsg) as [Sc _]. cbn [app peek]. rewrite Sc. cbv iota.
    rewrite read_char_cons. cbn [fst snd].
    rewrite read_digits_app by assumption. cbn [fst snd].
    repeat rewrite <- app_assoc. reflexivity.
Qed.

Lemma peek_exponent_text : forall exp rest,
  exponent_ok exp = true ->
  isdigit (peek rest) = false ->
  isdigit (peek (exponent_text exp ++ rest)) = false /\
  (exp <> None -> is_char (peek (exponent_text exp ++ rest)) "." = false).
Proof.
  intros [[[e sg] ds]|] rest Hok Hr; [|split; [exact Hr | congruence]].
  cbn [exponent_ok] in Hok.
  apply andb_true_iff in Hok as [Hok _]. apply andb_true_iff in Hok as [He _].
  destruct (marker_is_exponent e He) as (D & P & _). cbn [exponent_text app peek].
  split; [exact D | intros _; exact P].
Qed.

Lemma scan_after_sign_parts : forall acc ints frac exp rest,
  all_digits ints = true ->
  match frac with Some ds => all_digits ds | None => true end = true ->
  exponent_ok exp = true ->
  isdigit (peek rest) = false ->
  match exp with
  | Some (_, [], []) => negb (is_char (peek rest) "+" || is_char (peek rest) "-")
  | Some _ => true
  | None =>
      negb (is_char (tolower (peek rest)) "e") &&
      match frac with
      | Some _ => true
      | None => negb (is_char (peek rest) ".")
      end
  end = true ->
  scan_after_sign (acc, ints ++ fraction_text frac ++ exponent_text exp ++ rest)
  = (acc ++ ints ++ fraction_text frac ++ exponent_text exp,
     match frac, exp with None, None => false | _, _ => true end, rest).
Proof.
  intros acc0 ints frac exp rest Hint Hfrac Hexp Hr Hlast.
  destruct (peek_exponent_text exp rest Hexp Hr) as [De Pe].
  unfold all_digits in Hint.
  rewrite scan_after_sign_stages. cbn [fst snd].
  assert (Dt : isdigit (peek (fraction_text frac ++ exponent_text exp ++ rest)) = false).
  { destruct frac as [ds|]; [reflexivity | exact De]. }
  rewrite read_digits_app by assumption.
  rewrite (app_assoc acc0 ints). set (acc := acc0 ++ ints).
  destruct frac as [fs|].
  - cbn [fraction_text app]. rewrite scan_fraction_some by assumption.
    destruct exp as [[[e sg] ds]|].
    + cbn [exponent_text app]. rewrite <- app_assoc.
      rewrite scan_exponent_some; trivial.
      * now repeat rewrite <- app_assoc.
      * destruct sg, ds; trivial. now apply negb_true_iff in Hlast.
    + cbn [exponent_text app]. apply andb_true_iff in Hlast as [Hl _].
      apply negb_true_iff in Hl. rewrite scan_exponent_none by exact Hl.
      now rewrite app_nil_r.
  - cbn [fraction_text app].
    destruct exp as [[[e sg] ds]|].
    + rewrite scan_fraction_none by (cbn [snd]; apply Pe; discriminate).
      cbn [exponent_text app]. rewrite <- app_assoc.
      rewrite scan_exponent_some; trivial.
      destruct sg, ds; trivial. now apply negb_true_iff in Hlast.
    + cbn [exponent_text app] in *. apply andb_true_iff in Hlast as [Hl Hp].
      apply negb_true_iff in Hl, Hp.
      rewrite scan_fraction_none by exact Hp.
      rewrite scan_exponent_none by exact Hl. now rewrite app_nil_r.
Qed.

Lemma scan_number_parts : forall p rest,
  number_parts_ok p = true -> number_stops p rest = true ->
  scan_number (number_text p ++ rest) = (number_text p, has_marker p, rest).
Proof.
  intros [minus ints frac exp] rest Hok Hstop.
  unfold number_parts_ok in Hok. cbn [np_int np_frac np_exp] in Hok.
  apply andb_true_iff in Hok as [Hok Hexp]. apply andb_true_iff in Hok as [Hint Hfrac].
  unfold number_stops in Hstop. cbn [np_minus np_exp np_frac] in Hstop.
  apply andb_true_iff in Hstop as [Hstop Hlast].
  apply andb_true_iff in Hstop as [Hsign Hr]. apply negb_true_iff in Hr.
  pose proof (scan_after_sign_parts (if minus then ["-"%char] else [])
                ints frac exp rest Hint Hfrac Hexp Hr Hlast) as P.
  rewrite scan_number_after_sign.
  unfold number_text, has_marker in *. cbn [np_minus np_int np_frac np_exp] in *.
  destruct minus.
  - cbn [app peek]. change (is_char (to_int_type "-") "-") with true. cbv iota.
    rewrite read_char_cons. cbn [app] in *. repeat rewrite <- app_assoc. exact P.
  - cbn [orb app] in *. apply negb_true_iff in Hsign. rewrite Hsign.
    repeat rewrite <- app_assoc. exact P.
Qed.

Lemma LoadNumber_parts : forall p rest,
  number_parts_ok p = true -> number_stops p rest = true ->
  LoadNumber (number_text p ++ rest) =
  (if has_marker p then VDouble (Double.extract (number_text p))
   else VInt (extract_int (number_text p)), rest).
Proof.
  intros p rest Hok Hstop. unfold LoadNumber.
  rewrite (scan_number_parts p rest Hok Hstop). now destruct (has_marker p).
Qed.

(** X14: the lexeme of a number and the variant of its value.  On every
    input, the lexeme [LoadNumber] scans is exactly what it takes from the
    stream, the value is converted from that lexeme, and it is a Double
    exactly when the lexeme holds a decimal point or an exponent marker (e or
    E), an Integer otherwise.  On a text made of an optional minus sign,
    digits, an optional point with digits and an optional exponent (marker,
    optional sign, digits), followed by a stream that does not continue it,
    the lexeme is that whole text.  So 42.0 and 1e2 load as the Doubles 42
    and 100, and 42 as the Integer 42. *)
Theorem LoadNumber_variant_follows_lexeme :
  (forall input,
     input = fst (fst (scan_number input)) ++ snd (scan_number input) /\
     snd (fst (scan_number input))
     = existsb is_marker (fst (fst (scan_number input))) /\
     LoadNumber input =
       (if existsb is_marker (fst (fst (scan_number input)))
        then VDouble (Double.extract (fst (fst (scan_number input))))
        else VInt (extract_int (fst (fst (scan_number input)))),
        snd (scan_number input))) /\
  (forall p rest, number_parts_ok p = true -> number_stops p rest = true ->
     scan_number (number_text p ++ rest) = (number_text p, has_marker p, rest) /\
     has_marker p = existsb is_marker (number_text p) /\
     LoadNumber (number_text p ++ rest) =
       (if has_marker p then VDouble (Double.extract (number_text p))
        else VInt (extract_int (number_text p)), rest)) /\
  LoadNumber (lit "42.0") = (VDouble (Double.of_Z 42), []) /\
  LoadNumber (lit "1e2") = (VDouble (Double.of_Z 100), []) /\
  LoadNumber (lit "42") = (VInt 42, []).
Proof.
  split.
  { intros input. destruct (scan_number_scanned input) as [E M].
    unfold LoadNumber. destruct (scan_number input) as [[lexeme d] rest].
    cbn [fst snd] in *. split; [exact E|]. split; [now rewrite M|].
    rewrite M. now destruct d. }
  split.
  { intros p rest Hok Hstop.
    pose proof (scan_number_parts p rest Hok Hstop) as S.
    split; [exact S|]. split.
    - destruct (scan_number_scanned (number_text p ++ rest)) as [_ M].
      rewrite S in M. cbn [fst snd] in M. now rewrite M.
    - now apply LoadNumber_parts. }
  split; [vm_compute; reflexivity|]. split; vm_compute; reflexivity.
Qed.

Lemma LoadNumber_variant_follows_lexeme_witness :
  number_parts_ok
    {| np_minus := true; np_int := lit "3"; np_frac := Some (lit "5");
       np_exp := Some ("E"%char, lit "+", lit "2") |} = true /\
  number_stops
    {| np_minus := true; np_int := lit "3"; np_frac := Some (lit "5");
       np_exp := Some ("E"%char, lit "+", lit "2") |} (lit ",1") = true /\
  scan_number (lit "-3.5E+2,1") = (lit "-3.5E+2", true, lit ",1").
Proof.
  assert (H1 : number_parts_ok
                 {| np_minus := true; np_int := lit "3"; np_frac := Some (lit "5");
                    np_exp := Some ("E"%char, lit "+", lit "2") |} = true)
    by reflexivity.
  assert (H2 : number_stops
                 {| np_minus := true; np_int := lit "3"; np_frac := Some (lit "5");
                    np_exp := Some ("E"%char, lit "+", lit "2") |} (lit ",1") = true)
    by reflexivity.
  split; [exact H1|]. split; [exact H2|].
  exact (proj1 (proj1 (proj2 LoadNumber_variant_follows_lexeme) _ _ H1 H2)).
Defined.
